(** * Shallow embedding of [src/modules/attention.py]

    Tensors are modelled the way the tensor library presents them to the
    program: a shape together with the elements in logical row-major order.
    Every operation the module calls is a function on that representation;
    an operation that raises in Python returns [None] here. *)

From Stdlib Require Import List Arith ZArith Lia Bool QArith Qcanon.
Import ListNotations.

Close Scope Qc_scope.
Close Scope Q_scope.
Open Scope nat_scope.

Set Implicit Arguments.

(* ================================================================== *)
(** * Part I: the model *)
(* ================================================================== *)

(** ** Exceptions as [option] *)

Definition bind {A B : Type} (m : option A) (k : A -> option B) : option B :=
  match m with
  | Some a => k a
  | None => None
  end.

Notation "x <- m ;; k" := (bind m (fun x => k))
  (at level 61, m at next level, right associativity).
Notation "' p <- m ;; k" := (bind m (fun x => match x with p => k end))
  (at level 61, p pattern, m at next level, right associativity).

(** Python's [a // b] on non-negative integers: raises when [b] is zero. *)
Definition floordiv (a b : nat) : option nat :=
  if b =? 0 then None else Some (a / b).

(** ** Scalars

    The element type is abstract: the program only ever combines elements
    through the operations below. *)

Class Scalar (R : Type) : Type := {
  zero : R;
  add : R -> R -> R;
  sub : R -> R -> R;
  mul : R -> R -> R;
  div : R -> R -> R;
  of_int : Z -> R;     (* a Python int promoted to the element type *)
  half : R             (* the literal 0.5 *)
}.

(** The non-algebraic functions used by softmax, LayerNorm and GELU. *)
Class Transcendental (R : Type) : Type := {
  exp : R -> R;
  sqrt : R -> R;
  gelu_fn : R -> R;
  ln_eps : R           (* LayerNorm's eps, 1e-5 by default *)
}.

(** ** Shapes and row-major indexing *)

Definition numel (s : list nat) : nat := fold_right Nat.mul 1 s.

Fixpoint ravel (s idx : list nat) : nat :=
  match s, idx with
  | _ :: s', i :: idx' => i * numel s' + ravel s' idx'
  | _, _ => 0
  end.

Fixpoint unravel (s : list nat) (k : nat) : list nat :=
  match s with
  | [] => []
  | _ :: s' => k / numel s' :: unravel s' (k mod numel s')
  end.

(** [in_bounds s idx]: [idx] is a valid multi-index into shape [s]. *)
Fixpoint in_bounds (s idx : list nat) : Prop :=
  match s, idx with
  | [], [] => True
  | d :: s', i :: idx' => i < d /\ in_bounds s' idx'
  | _, _ => False
  end.

(** [gather l p] is [[l[p0]; l[p1]; ...]]. *)
Definition gather (l p : list nat) : list nat := map (fun d => nth d l 0) p.

Fixpoint index_of (j : nat) (p : list nat) : nat :=
  match p with
  | [] => 0
  | d :: p' => if d =? j then 0 else S (index_of j p')
  end.

Definition inv_perm (p : list nat) : list nat :=
  map (fun j => index_of j p) (seq 0 (length p)).

Definition is_perm (p : list nat) (n : nat) : bool :=
  (length p =? n) && forallb (fun j => existsb (Nat.eqb j) p) (seq 0 n).

(** [all_lt n p]: every entry of [p] is an axis of a rank-[n] tensor. *)
Definition all_lt (n : nat) (p : list nat) : bool :=
  forallb (fun d => d <? n) p.

(** Exchange of the last two entries; shorter lists are left alone. *)
Fixpoint swap_last2 (l : list nat) : list nat :=
  match l with
  | [a; b] => [b; a]
  | x :: l' => x :: swap_last2 l'
  | [] => []
  end.

(** Replace the last entry. *)
Fixpoint set_last (l : list nat) (j : nat) : list nat :=
  match l with
  | [] => []
  | [_] => [j]
  | x :: l' => x :: set_last l' j
  end.

(** ** Tensors *)

Record Tensor (R : Type) : Type := mkTensor {
  shape : list nat;
  data : list R
}.

Arguments mkTensor {R} _ _.
Arguments shape {R} _.
Arguments data {R} _.

(** A tensor is well formed when it holds one element per index. *)
Definition wf {R} (t : Tensor R) : Prop := length (data t) = numel (shape t).

Definition has_shape {R} (t : Tensor R) (s : list nat) : Prop :=
  shape t = s /\ wf t.

Section TensorOps.
Context {R : Type} {SR : Scalar R}.

Definition get (t : Tensor R) (idx : list nat) : R :=
  nth (ravel (shape t) idx) (data t) zero.

Definition tabulate (s : list nat) (f : list nat -> R) : Tensor R :=
  mkTensor s (map (fun k => f (unravel s k)) (seq 0 (numel s))).

(** [x.reshape(s)]: same elements in the same logical order. *)
Definition reshape (s : list nat) (t : Tensor R) : option (Tensor R) :=
  if numel s =? numel (shape t) then Some (mkTensor s (data t)) else None.

(** [x.permute(dims)]: entry [k] of the result's index is entry
    [dims[k]] of the source index. *)
Definition permute (dims : list nat) (t : Tensor R) : option (Tensor R) :=
  if is_perm dims (length (shape t))
  then Some (tabulate (gather (shape t) dims)
               (fun idx => get t (gather idx (inv_perm dims))))
  else None.

(** [x.transpose(-2, -1)] *)
Definition transpose_last2 (t : Tensor R) : option (Tensor R) :=
  if 2 <=? length (shape t)
  then Some (tabulate (swap_last2 (shape t))
               (fun idx => get t (swap_last2 idx)))
  else None.

(** [x.flatten(-2)] *)
Fixpoint merge_last2 (s : list nat) : option (list nat) :=
  match s with
  | [a; b] => Some [a * b]
  | d :: s' => s'' <- merge_last2 s' ;; Some (d :: s'')
  | [] => None
  end.

Definition flatten_last2 (t : Tensor R) : option (Tensor R) :=
  s <- merge_last2 (shape t) ;; Some (mkTensor s (data t)).

(** [x.unflatten(-1, (H, W))] *)
Fixpoint split_last (s : list nat) (H W : nat) : option (list nat) :=
  match s with
  | [] => None
  | [n] => if n =? H * W then Some [H; W] else None
  | d :: s' => s'' <- split_last s' H W ;; Some (d :: s'')
  end.

Definition unflatten_last (H W : nat) (t : Tensor R) : option (Tensor R) :=
  s <- split_last (shape t) H W ;; Some (mkTensor s (data t)).

(** [x.unsqueeze(1)] *)
Definition unsqueeze1 (t : Tensor R) : option (Tensor R) :=
  match shape t with
  | b :: s => Some (mkTensor (b :: 1 :: s) (data t))
  | [] => None
  end.

(** [x.squeeze(1)]: drops dimension 1 when its size is 1. *)
Definition squeeze1 (t : Tensor R) : option (Tensor R) :=
  match shape t with
  | b :: 1 :: s => Some (mkTensor (b :: s) (data t))
  | _ :: _ :: _ => Some t
  | _ => None
  end.

(** *** The spatial reshaping utilities of the module

    Sizes ([window_size], [H], [W], and below [num_heads], the channel
    and the group counts) are natural numbers.  Python would also accept
    negative ints there: [reshape] and [unflatten] infer a size given as
    [-1] and raise on any other negative size, and [range] of a negative
    count is empty.  Those calls are outside the model; every statement
    about these functions is a statement about non-negative sizes. *)

Definition window_partition (x : Tensor R) (window_size : nat)
  : option (Tensor R) :=
  match shape x with
  | [B; C; H; W] =>
      num_windows <- floordiv (H * W) (window_size ^ 2) ;;
      Hw <- floordiv H window_size ;;
      Ww <- floordiv W window_size ;;
      x1 <- reshape [B; C; Hw; window_size; Ww; window_size] x ;;
      x2 <- permute [0; 1; 2; 4; 3; 5] x1 ;;
      x3 <- reshape [B; C; num_windows; window_size; window_size] x2 ;;
      permute [0; 2; 1; 3; 4] x3
  | _ => None
  end.

Definition window_unpartition (x : Tensor R) (H W : nat)
  : option (Tensor R) :=
  match shape x with
  | [B; _; C; window_size; _] =>
      x1 <- permute [0; 2; 1; 3; 4] x ;;
      Hw <- floordiv H window_size ;;
      Ww <- floordiv W window_size ;;
      x2 <- reshape [B; C; Hw; Ww; window_size; window_size] x1 ;;
      x3 <- permute [0; 1; 2; 4; 3; 5] x2 ;;
      reshape [B; C; H; W] x3
  | _ => None
  end.

Definition spatial_flatten (x : Tensor R) : option (Tensor R) :=
  x1 <- flatten_last2 x ;; transpose_last2 x1.

Definition spatial_unflatten (x : Tensor R) (H W : nat)
  : option (Tensor R) :=
  x1 <- transpose_last2 x ;; unflatten_last H W x1.

End TensorOps.

(** ** Arithmetic on tensors *)

Fixpoint shape_eqb (s1 s2 : list nat) : bool :=
  match s1, s2 with
  | [], [] => true
  | a :: s1', b :: s2' => (a =? b) && shape_eqb s1' s2'
  | _, _ => false
  end.

(** The leading (batch) entries, the row count and the column count of a
    shape or index of rank at least two. *)
Fixpoint split_last2 (s : list nat) : option (list nat * nat * nat) :=
  match s with
  | [a; b] => Some ([], a, b)
  | d :: s' => '(pre, a, b) <- split_last2 s' ;; Some (d :: pre, a, b)
  | [] => None
  end.

Section NumericOps.
Context {R : Type} {SR : Scalar R}.

(** [sum_n n f] is [f 0 + (f 1 + (... + (f (n-1) + 0)))]. *)
Definition sum_n (n : nat) (f : nat -> R) : R :=
  fold_right (fun k acc => add (f k) acc) zero (seq 0 n).

Definition tmap (g : R -> R) (t : Tensor R) : Tensor R :=
  mkTensor (shape t) (map g (data t)).

(** [x / n] for a Python int [n] *)
Definition div_scalar (t : Tensor R) (n : nat) : Tensor R :=
  tmap (fun v => div v (of_int (Z.of_nat n))) t.

(** [x - 0.5] and [x + 0.5] *)
Definition sub_half (t : Tensor R) : Tensor R := tmap (fun v => sub v half) t.
Definition add_half (t : Tensor R) : Tensor R := tmap (fun v => add v half) t.

(** [x + n] for a Python int [n] *)
Definition add_int (t : Tensor R) (n : Z) : Tensor R :=
  tmap (fun v => add v (of_int n)) t.

Fixpoint zip_with (g : R -> R -> R) (l1 l2 : list R) : list R :=
  match l1, l2 with
  | a :: l1', b :: l2' => g a b :: zip_with g l1' l2'
  | _, _ => []
  end.

(** [a + b] for tensors of one shape.  Broadcasting between different
    shapes is not modelled: the program only adds tensors of equal shape. *)
Definition tensor_add (a b : Tensor R) : option (Tensor R) :=
  if shape_eqb (shape a) (shape b)
  then Some (mkTensor (shape a) (zip_with add (data a) (data b)))
  else None.

(** [x[k]]: the [k]-th slice along the first axis. *)
Definition select0 (k : nat) (t : Tensor R) : option (Tensor R) :=
  match shape t with
  | d :: s =>
      if k <? d then Some (tabulate s (fun idx => get t (k :: idx)))
      else None
  | [] => None
  end.

(** [torch.matmul(a, b)] for operands of rank at least two with the same
    batch dimensions (the only way the program calls it). *)
Definition matmul (a b : Tensor R) : option (Tensor R) :=
  '(pa, m, n) <- split_last2 (shape a) ;;
  '(pb, n', p) <- split_last2 (shape b) ;;
  if shape_eqb pa pb && (n =? n')
  then Some (tabulate (pa ++ [m; p])
         (fun idx =>
            match split_last2 idx with
            | Some (bi, i, j) =>
                sum_n n (fun k => mul (get a (bi ++ [i; k]))
                                      (get b (bi ++ [k; j])))
            | None => zero
            end))
  else None.

End NumericOps.

Section Layers.
Context {R : Type} {SR : Scalar R} {TR : Transcendental R}.

(** [F.softmax(x, -1)], written as the quotient it denotes. *)
Definition softmax_last (t : Tensor R) : option (Tensor R) :=
  match shape t with
  | [] => None
  | _ :: _ =>
      Some (tabulate (shape t)
        (fun idx =>
           div (exp (get t idx))
               (sum_n (last (shape t) 0)
                  (fun j => exp (get t (set_last idx j))))))
  end.

(** [nn.GELU] *)
Definition gelu (t : Tensor R) : Tensor R := tmap gelu_fn t.

(** [nn.Linear(in_features, out_features)] *)
Record Linear : Type := mkLinear {
  in_features : nat;
  out_features : nat;
  weight : Tensor R;       (* (out_features, in_features) *)
  bias : Tensor R          (* (out_features) *)
}.

Definition Linear_forward (l : Linear) (x : Tensor R) : option (Tensor R) :=
  match shape x with
  | [] => None
  | _ :: _ =>
      if last (shape x) 0 =? in_features l
      then Some (tabulate (removelast (shape x) ++ [out_features l])
             (fun idx =>
                let o := last idx 0 in
                add (sum_n (in_features l)
                       (fun i => mul (get x (set_last idx i))
                                     (get (weight l) [o; i])))
                    (get (bias l) [o])))
      else None
  end.

(** [nn.LayerNorm(dim)]: normalisation over the last axis with a learned
    scale and shift. *)
Record LayerNorm : Type := mkLayerNorm {
  normalized_shape : nat;
  ln_weight : Tensor R;
  ln_bias : Tensor R
}.

Definition LayerNorm_forward (l : LayerNorm) (x : Tensor R)
  : option (Tensor R) :=
  match shape x with
  | [] => None
  | _ :: _ =>
      let n := normalized_shape l in
      if last (shape x) 0 =? n
      then Some (tabulate (shape x)
             (fun idx =>
                let c := last idx 0 in
                let mean :=
                  div (sum_n n (fun j => get x (set_last idx j)))
                      (of_int (Z.of_nat n)) in
                let var :=
                  div (sum_n n (fun j =>
                         let e := sub (get x (set_last idx j)) mean in
                         mul e e))
                      (of_int (Z.of_nat n)) in
                add (mul (div (sub (get x idx) mean) (sqrt (add var ln_eps)))
                         (get (ln_weight l) [c]))
                    (get (ln_bias l) [c])))
      else None
  end.

(** [nn.Conv2d(in_channels, out_channels, kernel_size, stride, padding)]
    on a batched (B, C, H, W) input, with zero padding. *)
Record Conv2d : Type := mkConv2d {
  in_channels : nat;
  out_channels : nat;
  kernel_size : nat;
  stride : nat;
  padding : nat;
  conv_weight : Tensor R;  (* (out_channels, in_channels, k, k) *)
  conv_bias : Tensor R     (* (out_channels) *)
}.

Definition conv_out_size (n k s p : nat) : nat := (n + 2 * p - k) / s + 1.

Definition padded_get (x : Tensor R) (p H W b c u v : nat) : R :=
  if (p <=? u) && (u <? H + p) && (p <=? v) && (v <? W + p)
  then get x [b; c; u - p; v - p]
  else zero.

Definition Conv2d_forward (cv : Conv2d) (x : Tensor R) : option (Tensor R) :=
  match shape x with
  | [B; C; H; W] =>
      let k := kernel_size cv in
      let s := stride cv in
      let p := padding cv in
      if (C =? in_channels cv) && (0 <? s)
         && (k <=? H + 2 * p) && (k <=? W + 2 * p)
      then Some (tabulate
             [B; out_channels cv; conv_out_size H k s p; conv_out_size W k s p]
             (fun idx =>
                match idx with
                | [b; o; i; j] =>
                    add (sum_n C (fun c =>
                           sum_n k (fun ky =>
                             sum_n k (fun kx =>
                               mul (padded_get x p H W b c
                                      (i * s + ky) (j * s + kx))
                                   (get (conv_weight cv) [o; c; ky; kx])))))
                        (get (conv_bias cv) [o])
                | _ => zero
                end))
      else None
  | _ => None
  end.

(** [nn.PixelShuffle(r)]: (B, C * r^2, H, W) to (B, C, H * r, W * r). *)
Definition PixelShuffle_forward (r : nat) (x : Tensor R)
  : option (Tensor R) :=
  match shape x with
  | [B; Crr; H; W] =>
      if (r =? 0) || negb (Crr mod (r * r) =? 0) then None
      else
        let C := Crr / (r * r) in
        x1 <- reshape [B; C; r; r; H; W] x ;;
        x2 <- permute [0; 1; 4; 2; 5; 3] x1 ;;
        reshape [B; C; H * r; W * r] x2
  | _ => None
  end.

(** [nn.AdaptiveAvgPool2d(1)]: the mean over the two spatial axes. *)
Definition AdaptiveAvgPool2d_1 (x : Tensor R) : option (Tensor R) :=
  match shape x with
  | [B; C; H; W] =>
      Some (tabulate [B; C; 1; 1]
        (fun idx =>
           match idx with
           | b :: c :: _ =>
               div (sum_n H (fun h => sum_n W (fun w => get x [b; c; h; w])))
                   (of_int (Z.of_nat (H * W)))
           | _ => zero
           end))
  | _ => None
  end.

(** [nn.Flatten()]: every axis after the first is merged into one. *)
Definition Flatten_forward (x : Tensor R) : option (Tensor R) :=
  match shape x with
  | b :: (_ :: _) as rest => Some (mkTensor [b; numel rest] (data x))
  | _ => None
  end.

End Layers.

Arguments Linear R : clear implicits.
Arguments LayerNorm R : clear implicits.
Arguments Conv2d R : clear implicits.


(** ** Python values held by the residual dictionary

    [residual = {k: 0 for k in self.residual_groups}] starts every entry at
    the int [0]; the loop later stores feature tensors under the same keys. *)

Inductive PyVal (T : Type) : Type :=
| PInt (n : Z)
| PTensor (t : T).

Arguments PInt {T} n.
Arguments PTensor {T} t.

(** Python's [a % b] on ints: the result has the sign of [b]; raises when
    [b] is zero. *)
Definition py_mod (a b : Z) : option Z :=
  if (b =? 0)%Z then None else Some (a mod b)%Z.

(** An insertion-ordered dictionary with int keys. *)
Section Dict.
Variable V : Type.

Definition dict : Type := list (Z * V).

Fixpoint dict_set (k : Z) (v : V) (d : dict) : dict :=
  match d with
  | [] => [(k, v)]
  | (k', v') :: d' =>
      if (k' =? k)%Z then (k', v) :: d' else (k', v') :: dict_set k v d'
  end.

Fixpoint dict_get (k : Z) (d : dict) : option V :=
  match d with
  | [] => None
  | (k', v') :: d' => if (k' =? k)%Z then Some v' else dict_get k d'
  end.

Definition dict_keys (d : dict) : list Z := map fst d.

(** [{k: v for k in ks}] *)
Definition dict_fromkeys (ks : list Z) (v : V) : dict :=
  fold_left (fun d k => dict_set k v d) ks [].

End Dict.

(** ** The residual loop of [TransformerSR.forward]

    The loop is written once, for any type of features and of blocks, so
    that its skip policy can be studied on its own. *)
Section ResidualLoop.
Variables (T Blk : Type).
Variable run : Blk -> T -> option T.           (* [block(x)] *)
Variable plus : T -> PyVal T -> option T.      (* [x + residual[step]] *)

(** [for step in residual.keys(): if i % step == 0: residual[step] = x] *)
Fixpoint reset_phase (i : Z) (x : T) (steps : list Z) (d : dict (PyVal T))
  : option (dict (PyVal T)) :=
  match steps with
  | [] => Some d
  | step :: steps' =>
      m <- py_mod i step ;;
      reset_phase i x steps'
        (if (m =? 0)%Z then dict_set step (PTensor x) d else d)
  end.

(** [for step in residual.keys():
       if i % step == step - 1: x = x + residual[step]] *)
Fixpoint close_phase (i : Z) (steps : list Z) (d : dict (PyVal T)) (x : T)
  : option T :=
  match steps with
  | [] => Some x
  | step :: steps' =>
      m <- py_mod i step ;;
      if (m =? step - 1)%Z
      then v <- dict_get step d ;;
           x' <- plus x v ;;
           close_phase i steps' d x'
      else close_phase i steps' d x
  end.

(** One iteration of the [for i, block in enumerate(self.blocks)] loop. *)
Definition loop_body (i : nat) (block : Blk) (st : dict (PyVal T) * T)
  : option (dict (PyVal T) * T) :=
  let '(d, x) := st in
  d' <- reset_phase (Z.of_nat i) x (dict_keys d) d ;;
  y <- run block x ;;
  z <- close_phase (Z.of_nat i) (dict_keys d') d' y ;;
  Some (d', z).

(** The iterations [i, i+1, ...] over the given blocks. *)
Fixpoint loop_from (i : nat) (blocks : list Blk) (st : dict (PyVal T) * T)
  : option (dict (PyVal T) * T) :=
  match blocks with
  | [] => Some st
  | block :: rest =>
      st' <- loop_body i block st ;;
      loop_from (S i) rest st'
  end.

(** [entry blocks st0 j]: the dictionary and the features on entry to
    iteration [j], that is, after the first [j] iterations. *)
Definition entry (blocks : list Blk) (st0 : dict (PyVal T) * T) (j : nat)
  : option (dict (PyVal T) * T) :=
  loop_from 0 (firstn j blocks) st0.

Definition residual_loop (residual_groups : list Z) (blocks : list Blk)
  (x : T) : option T :=
  let residual := dict_fromkeys residual_groups (PInt 0) in
  '(_, y) <- loop_from 0 blocks (residual, x) ;;
  Some y.

End ResidualLoop.

(** ** The modules *)

Section Modules.
Context {R : Type} {SR : Scalar R} {TR : Transcendental R}.

Record MultiHeadSelfAttention : Type := mkMHSA {
  dim : nat;
  transposed : bool;
  num_heads : nat;
  qkv : Linear R;
  out : Linear R
}.

(** The argument of the softmax in either branch of the forward pass:
    [q], [k] are [x[0]], [x[1]] of shape (B, N, num_heads, L, head_dim). *)
Definition attention_scores (tr : bool) (L head_dim : nat) (q k : Tensor R)
  : option (Tensor R) :=
  if tr then
    qT <- transpose_last2 q ;;
    matmul (div_scalar qT L) (div_scalar k L)
  else
    kT <- transpose_last2 k ;;
    matmul (div_scalar q head_dim) (div_scalar kT head_dim).

(** The first half of the forward pass: the fused projection, split into
    [x[0]], [x[1]], [x[2]] of shape (B, N, num_heads, L, head_dim).  The
    result also carries [L] and [head_dim]. *)
Definition qkv_heads (m : MultiHeadSelfAttention) (x : Tensor R)
  : option (nat * nat * (Tensor R * Tensor R * Tensor R)) :=
  match shape x with
  | [B; N; L; C] =>
      head_dim <- floordiv C (num_heads m) ;;
      x <- Linear_forward (qkv m) x ;;
      x <- reshape [B; N; L; 3; num_heads m; head_dim] x ;;
      x <- permute [3; 0; 1; 4; 2; 5] x ;;
      x0 <- select0 0 x ;;
      x1 <- select0 1 x ;;
      x2 <- select0 2 x ;;
      Some (L, head_dim, (x0, x1, x2))
  | _ => None
  end.

(** The tensor that the forward pass hands to [F.softmax]. *)
Definition MultiHeadSelfAttention_scores
  (m : MultiHeadSelfAttention) (x : Tensor R) : option (Tensor R) :=
  '(L, head_dim, (x0, x1, _)) <- qkv_heads m x ;;
  attention_scores (transposed m) L head_dim x0 x1.

Definition MultiHeadSelfAttention_forward
  (m : MultiHeadSelfAttention) (x : Tensor R) : option (Tensor R) :=
  '(L, head_dim, (x0, x1, x2)) <- qkv_heads m x ;;
  s <- attention_scores (transposed m) L head_dim x0 x1 ;;
  a <- softmax_last s ;;
  x <- (if transposed m then
          vT <- transpose_last2 x2 ;;
          o <- matmul a vT ;;
          permute [0; 1; 4; 2; 3] o
        else
          o <- matmul a x2 ;;
          permute [0; 1; 3; 2; 4] o) ;;
  x <- flatten_last2 x ;;
  Linear_forward (out m) x.

Record AttentionBlock : Type := mkAttentionBlock {
  window_size : nat;
  ab_transposed : bool;
  window_attention : MultiHeadSelfAttention;
  mlp_fc1 : Linear R;      (* mlp[0] *)
  mlp_fc2 : Linear R;      (* mlp[2]; mlp[1] is GELU *)
  norm1 : LayerNorm R;
  norm2 : LayerNorm R
}.

(** [self.mlp(x)] *)
Definition mlp_forward (b : AttentionBlock) (x : Tensor R)
  : option (Tensor R) :=
  h <- Linear_forward (mlp_fc1 b) x ;;
  Linear_forward (mlp_fc2 b) (gelu h).

(** The two residual sub-layers applied to the flattened sequence. *)
Definition block_core (b : AttentionBlock) (x : Tensor R)
  : option (Tensor R) :=
  n1 <- LayerNorm_forward (norm1 b) x ;;
  a <- MultiHeadSelfAttention_forward (window_attention b) n1 ;;
  x <- tensor_add x a ;;
  n2 <- LayerNorm_forward (norm2 b) x ;;
  f <- mlp_forward b n2 ;;
  tensor_add x f.

Definition AttentionBlock_forward (b : AttentionBlock) (x : Tensor R)
  : option (Tensor R) :=
  match shape x with
  | [_; _; H; W] =>
      x <- (if ab_transposed b then unsqueeze1 x
            else window_partition x (window_size b)) ;;
      x <- spatial_flatten x ;;
      x <- block_core b x ;;
      if ab_transposed b then
        x <- spatial_unflatten x H W ;;
        squeeze1 x
      else
        x <- spatial_unflatten x (window_size b) (window_size b) ;;
        window_unpartition x H W
  | _ => None
  end.

(** [x + residual[step]] where the entry is the int placeholder or a
    stored tensor. *)
Definition plus_value (x : Tensor R) (v : PyVal (Tensor R))
  : option (Tensor R) :=
  match v with
  | PInt n => Some (add_int x n)
  | PTensor t => tensor_add x t
  end.

(** [nn.Sequential(AttentionBlock(.., False, ..), AttentionBlock(.., True, ..))] *)
Definition pair_forward (p : AttentionBlock * AttentionBlock) (x : Tensor R)
  : option (Tensor R) :=
  y <- AttentionBlock_forward (fst p) x ;;
  AttentionBlock_forward (snd p) y.

Record TransformerSR : Type := mkTransformerSR {
  residual_groups : list Z;
  in_conv : Conv2d R;
  blocks : list (AttentionBlock * AttentionBlock);
  out_conv : Conv2d R;     (* out_conv[0] *)
  upscale_factor : nat     (* out_conv[1] = PixelShuffle(factor) *)
}.

Definition TransformerSR_forward (m : TransformerSR) (x : Tensor R)
  : option (Tensor R) :=
  let x := sub_half x in
  x <- Conv2d_forward (in_conv m) x ;;
  x <- residual_loop pair_forward plus_value (residual_groups m) (blocks m) x ;;
  x <- Conv2d_forward (out_conv m) x ;;
  x <- PixelShuffle_forward (upscale_factor m) x ;;
  Some (add_half x).

(** The state of the loop of [TransformerSR.forward] on entry to iteration
    [j], for features [x0] coming out of [in_conv]. *)
Definition sr_entry (m : TransformerSR) (x0 : Tensor R) (j : nat)
  : option (dict (PyVal (Tensor R)) * Tensor R) :=
  entry pair_forward plus_value (blocks m)
    (dict_fromkeys (residual_groups m) (PInt 0), x0) j.

(** The heterogeneous entries of [Classifier.blocks]. *)
Inductive Layer : Type :=
| LConv2d (c : Conv2d R)
| LAttentionBlock (b : AttentionBlock)
| LAdaptiveAvgPool2d
| LFlatten
| LLinear (l : Linear R).

Definition Layer_forward (l : Layer) (x : Tensor R) : option (Tensor R) :=
  match l with
  | LConv2d c => Conv2d_forward c x
  | LAttentionBlock b => AttentionBlock_forward b x
  | LAdaptiveAvgPool2d => AdaptiveAvgPool2d_1 x
  | LFlatten => Flatten_forward x
  | LLinear l => Linear_forward l x
  end.

Fixpoint run_layers (ls : list Layer) (x : Tensor R) : option (Tensor R) :=
  match ls with
  | [] => Some x
  | l :: ls' => y <- Layer_forward l x ;; run_layers ls' y
  end.

Record Classifier : Type := mkClassifier {
  cls_blocks : list Layer
}.

Definition Classifier_forward (m : Classifier) (x : Tensor R)
  : option (Tensor R) :=
  run_layers (cls_blocks m) (sub_half x).

End Modules.

Arguments MultiHeadSelfAttention R : clear implicits.
Arguments AttentionBlock R : clear implicits.
Arguments TransformerSR R : clear implicits.
Arguments Layer R : clear implicits.
Arguments Classifier R : clear implicits.


(** ** Construction

    The constructors allocate parameter tensors whose values the program
    never inspects; what [__init__] fixes is each layer's configuration and
    the shapes of its parameters.  [X_built x args] says that [x] is an
    object that [X(args)] can have produced (or that training has since
    updated in place). *)

Section Construction.
Context {R : Type}.

Definition Linear_built (l : Linear R) (i o : nat) : Prop :=
  in_features l = i /\ out_features l = o /\
  has_shape (weight l) [o; i] /\ has_shape (bias l) [o].

Definition LayerNorm_built (l : LayerNorm R) (d : nat) : Prop :=
  normalized_shape l = d /\
  has_shape (ln_weight l) [d] /\ has_shape (ln_bias l) [d].

Definition Conv2d_built (c : Conv2d R) (cin cout k s p : nat) : Prop :=
  in_channels c = cin /\ out_channels c = cout /\
  kernel_size c = k /\ stride c = s /\ padding c = p /\
  has_shape (conv_weight c) [cout; cin; k; k] /\
  has_shape (conv_bias c) [cout].

(** [MultiHeadSelfAttention(dim, transposed, num_heads)] *)
Definition MultiHeadSelfAttention_built
  (m : MultiHeadSelfAttention R) (d : nat) (tr : bool) (nh : nat) : Prop :=
  dim m = d /\ transposed m = tr /\ num_heads m = nh /\
  Linear_built (qkv m) d (d * 3) /\
  Linear_built (out m) d d.

(** [AttentionBlock(dim, transposed, window_size, num_heads)] *)
Definition AttentionBlock_built
  (b : AttentionBlock R) (d : nat) (tr : bool) (ws nh : nat) : Prop :=
  window_size b = ws /\ ab_transposed b = tr /\
  MultiHeadSelfAttention_built (window_attention b) d tr nh /\
  Linear_built (mlp_fc1 b) d (d * 4) /\
  Linear_built (mlp_fc2 b) (d * 4) d /\
  LayerNorm_built (norm1 b) d /\
  LayerNorm_built (norm2 b) d.

(** [TransformerSR(factor, residual_groups, num_blocks, dim, window_size,
    num_heads, in_channels, out_channels)] *)
Definition TransformerSR_built (m : TransformerSR R)
  (factor : nat) (groups : list Z) (num_blocks d ws nh cin cout : nat)
  : Prop :=
  residual_groups m = groups /\
  Conv2d_built (in_conv m) cin d 3 1 1 /\
  length (blocks m) = num_blocks /\
  Forall (fun p => AttentionBlock_built (fst p) d false ws nh /\
                   AttentionBlock_built (snd p) d true ws nh) (blocks m) /\
  Conv2d_built (out_conv m) d (factor ^ 2 * cout) 3 1 1 /\
  upscale_factor m = factor.

End Construction.

(** The constructor calls made by [Classifier.__init__], in the order in
    which they are appended to [self.blocks]. *)
Inductive LayerSpec : Type :=
| SConv2d (cin cout k s p : nat)
| SAttentionBlock (d : nat) (tr : bool) (ws nh : nat)
| SAdaptiveAvgPool2d (n : nat)
| SFlatten
| SLinear (i o : nat).

(** [for _ in range(n): self.blocks += [AttentionBlock(dims[i], False, ..),
                                        AttentionBlock(dims[i], True, ..)]] *)
Fixpoint append_pairs (n i : nat) (dims : list nat) (ws nh : nat)
  (acc : list LayerSpec) : option (list LayerSpec) :=
  match n with
  | 0 => Some acc
  | S n' =>
      d <- nth_error dims i ;;
      append_pairs n' i dims ws nh
        (acc ++ [SAttentionBlock d false ws nh; SAttentionBlock d true ws nh])
  end.

(** The iterations [i, i+1, ...] of [for i in range(len(groups))]. *)
Fixpoint init_stages (i : nat) (groups dims : list nat)
  (window_size num_heads : nat) (acc : list LayerSpec)
  : option (list LayerSpec) :=
  match groups with
  | [] => Some acc
  | g :: groups' =>
      acc1 <- (if 0 <? i
               then dp <- nth_error dims (i - 1) ;;
                    dc <- nth_error dims i ;;
                    Some (acc ++ [SConv2d dp dc 2 2 0])
               else Some acc) ;;
      acc2 <- append_pairs g i dims (window_size / 2 ^ i) num_heads acc1 ;;
      init_stages (S i) groups' dims window_size num_heads acc2
  end.

Definition Classifier_init (groups dims : list nat)
  (window_size num_heads num_classes in_channels : nat)
  : option (list LayerSpec) :=
  d0 <- nth_error dims 0 ;;
  acc <- init_stages 0 groups dims window_size num_heads
           [SConv2d in_channels d0 3 1 1] ;;
  dl <- nth_error dims (length dims - 1) ;;
  Some (acc ++ [SAdaptiveAvgPool2d 1; SFlatten; SLinear dl num_classes]).

Section ClassifierConstruction.
Context {R : Type}.

Definition Layer_built (s : LayerSpec) (l : Layer R) : Prop :=
  match s, l with
  | SConv2d cin cout k st p, LConv2d c => Conv2d_built c cin cout k st p
  | SAttentionBlock d tr ws nh, LAttentionBlock b =>
      AttentionBlock_built b d tr ws nh
  | SAdaptiveAvgPool2d n, LAdaptiveAvgPool2d => n = 1
  | SFlatten, LFlatten => True
  | SLinear i o, LLinear l => Linear_built l i o
  | _, _ => False
  end.

(** [Classifier(groups, dims, window_size, num_heads, num_classes,
    in_channels)] *)
Definition Classifier_built (m : Classifier R) (groups dims : list nat)
  (window_size num_heads num_classes in_channels : nat) : Prop :=
  exists specs,
    Classifier_init groups dims window_size num_heads num_classes in_channels
    = Some specs /\
    Forall2 Layer_built specs (cls_blocks m).

End ClassifierConstruction.


(** ** Reference formulation of the skip policy

    The specification's reading of the loop: at iteration [i] the buffer of
    period [p] is overwritten when [i % p == 0], and the buffers of the
    periods with [i % p == p - 1] are added, in key order, after the block. *)

Section SkipPolicy.
Variable T : Type.
Variable plus : T -> PyVal T -> option T.

Definition closing (i : Z) (steps : list Z) : list Z :=
  filter (fun p => (i mod p =? p - 1)%Z) steps.

Fixpoint add_stored (ps : list Z) (d : dict (PyVal T)) (x : T) : option T :=
  match ps with
  | [] => Some x
  | p :: ps' =>
      v <- dict_get p d ;;
      x' <- plus x v ;;
      add_stored ps' d x'
  end.

End SkipPolicy.


(** ** Invariant of the residual dictionary

    Every entry is either an int placeholder or a stored value that
    satisfies [P]. *)

Definition good_val {T : Type} (P : T -> Prop) (v : PyVal T) : Prop :=
  match v with
  | PInt _ => True
  | PTensor t => P t
  end.

Definition dict_good {T : Type} (P : T -> Prop) (d : dict (PyVal T)) : Prop :=
  forall p v, dict_get p d = Some v -> good_val P v.


(** ** Reference layout of the classifier

    The specification's reading of [Classifier.__init__]: a 3x3 input
    convolution; then, for each stage [i], a stride-2 kernel-2 convolution
    from [dims[i-1]] to [dims[i]] when [i > 0], followed by [groups[i]]
    pairs of a windowed and a transposed block at window size
    [window_size / 2^i]; then global average pooling, flatten and the
    linear projection to the class logits. *)

Definition stage_specs (dims : list nat) (window_size num_heads : nat)
  (i g : nat) : list LayerSpec :=
  (if 0 <? i
   then [SConv2d (nth (i - 1) dims 0) (nth i dims 0) 2 2 0]
   else []) ++
  concat (repeat
    [SAttentionBlock (nth i dims 0) false (window_size / 2 ^ i) num_heads;
     SAttentionBlock (nth i dims 0) true (window_size / 2 ^ i) num_heads] g).

Definition Classifier_layout (groups dims : list nat)
  (window_size num_heads num_classes in_channels : nat) : list LayerSpec :=
  [SConv2d in_channels (nth 0 dims 0) 3 1 1] ++
  concat (map (fun ig => stage_specs dims window_size num_heads
                           (fst ig) (snd ig))
            (combine (seq 0 (length groups)) groups)) ++
  [SAdaptiveAvgPool2d 1; SFlatten; SLinear (last dims 0) num_classes].


(** ** Reference formulation of attention

    The specification's reading of the two attention formulas, element by
    element.  [head_entry m x hd w b n h l d] is entry [(l, d)] of the
    query ([w = 0]), key ([w = 1]) or value ([w = 2]) of head [h]. *)

Section AttentionReference.
Context {R : Type} {SR : Scalar R} {TR : Transcendental R}.

Definition qkv_proj (m : MultiHeadSelfAttention R) (x : Tensor R)
  (b n l o : nat) : R :=
  add (sum_n (in_features (qkv m))
         (fun c => mul (get x [b; n; l; c]) (get (weight (qkv m)) [o; c])))
      (get (bias (qkv m)) [o]).

Definition head_entry (m : MultiHeadSelfAttention R) (x : Tensor R)
  (hd w b n h l d : nat) : R :=
  qkv_proj m x b n l ((w * num_heads m + h) * hd + d).

Definition softmax_row (n : nat) (s : nat -> R) (j : nat) : R :=
  div (exp (s j)) (sum_n n (fun j' => exp (s j'))).

(** Standard attention: the score of query position [i] against key
    position [j]. *)

(** [Q . K^T] with each factor divided by [head_dim], as the forward pass
    writes it. *)
Definition scores_std_factors (m : MultiHeadSelfAttention R) (x : Tensor R)
  (hd b n h i j : nat) : R :=
  sum_n hd (fun d =>
    mul (div (head_entry m x hd 0 b n h i d) (of_int (Z.of_nat hd)))
        (div (head_entry m x hd 1 b n h j d) (of_int (Z.of_nat hd)))).

(** [Q . K^T / head_dim] *)
Definition scores_std_once (m : MultiHeadSelfAttention R) (x : Tensor R)
  (hd b n h i j : nat) : R :=
  div (sum_n hd (fun d =>
         mul (head_entry m x hd 0 b n h i d) (head_entry m x hd 1 b n h j d)))
      (of_int (Z.of_nat hd)).

(** [Q . K^T / head_dim^2] *)
Definition scores_std_twice (m : MultiHeadSelfAttention R) (x : Tensor R)
  (hd b n h i j : nat) : R :=
  div (sum_n hd (fun d =>
         mul (head_entry m x hd 0 b n h i d) (head_entry m x hd 1 b n h j d)))
      (mul (of_int (Z.of_nat hd)) (of_int (Z.of_nat hd))).

(** The scores as a tensor of shape (B, N, num_heads, n, n). *)
Definition scores_tensor (score : nat -> nat -> nat -> nat -> nat -> R)
  (B N nh n : nat) : Tensor R :=
  tabulate [B; N; nh; n; n]
    (fun idx =>
       match idx with
       | [b; n'; h; i; j] => score b n' h i j
       | _ => zero
       end).

(** [softmax(score) . V], softmax over the key positions, laid out as
    (B, N, L, num_heads, head_dim). *)
Definition attention_std (score : nat -> nat -> nat -> nat -> nat -> R)
  (m : MultiHeadSelfAttention R) (x : Tensor R) (B N L hd : nat)
  : Tensor R :=
  tabulate [B; N; L; num_heads m; hd]
    (fun idx =>
       match idx with
       | [b; n; l; h; d] =>
           sum_n L (fun j =>
             mul (softmax_row L (fun j' => score b n h l j') j)
                 (head_entry m x hd 2 b n h j d))
       | _ => zero
       end).

(** Transposed attention: the score of query channel [d1] against key
    channel [d2]. *)

(** [Q^T . K] with each factor divided by [L], as the forward pass writes
    it. *)
Definition scores_T_factors (m : MultiHeadSelfAttention R) (x : Tensor R)
  (L hd b n h d1 d2 : nat) : R :=
  sum_n L (fun l =>
    mul (div (head_entry m x hd 0 b n h l d1) (of_int (Z.of_nat L)))
        (div (head_entry m x hd 1 b n h l d2) (of_int (Z.of_nat L)))).

(** [Q^T . K / L^2] *)
Definition scores_T_squared (m : MultiHeadSelfAttention R) (x : Tensor R)
  (L hd b n h d1 d2 : nat) : R :=
  div (sum_n L (fun l =>
         mul (head_entry m x hd 0 b n h l d1)
             (head_entry m x hd 1 b n h l d2)))
      (mul (of_int (Z.of_nat L)) (of_int (Z.of_nat L))).

(** [softmax(score) . V^T], softmax over the key channels, transposed back
    to (B, N, L, num_heads, head_dim). *)
Definition attention_T (score : nat -> nat -> nat -> nat -> nat -> R)
  (m : MultiHeadSelfAttention R) (x : Tensor R) (B N L hd : nat)
  : Tensor R :=
  tabulate [B; N; L; num_heads m; hd]
    (fun idx =>
       match idx with
       | [b; n; l; h; d1] =>
           sum_n hd (fun d2 =>
             mul (softmax_row hd (fun d2' => score b n h d1 d2') d2)
                 (head_entry m x hd 2 b n h l d2))
       | _ => zero
       end).

End AttentionReference.

(** The identities of exact arithmetic under which a product of quotients
    is one quotient. *)
Class ScalarLaws (R : Type) {SR : Scalar R} : Prop := {
  div_mul_div : forall a b c : R,
    mul (div a c) (div b c) = div (mul a b) (mul c c);
  div_add_div : forall a b c : R,
    add (div a c) (div b c) = div (add a b) c;
  zero_div : forall c : R, div zero c = zero
}.

Arguments ScalarLaws R {SR}.

(** ** Exact rational scalars

    The instance used for concrete runs of the model.  Rationals have no
    exponential, square root or error function; the three placeholders
    below are only ever used where their values do not matter. *)

#[export] Instance Qc_Scalar : Scalar Qc := {
  zero := 0%Qc;
  add := Qcplus;
  sub := Qcminus;
  mul := Qcmult;
  div := Qcdiv;
  of_int := fun z => Q2Qc (inject_Z z);
  half := Q2Qc (1 # 2)
}.

#[export] Instance Qc_Transcendental : Transcendental Qc := {
  exp := fun x => (1 + x * x)%Qc;
  sqrt := fun x => x;
  gelu_fn := fun x => x;
  ln_eps := Q2Qc (1 # 100000)
}.

(** A tensor of the given shape filled with [c]. *)
Definition full {R : Type} (s : list nat) (c : R) : Tensor R :=
  mkTensor s (repeat c (numel s)).

Definition sample_Linear {R : Type} (i o : nat) (w b : R) : Linear R :=
  mkLinear i o (full [o; i] w) (full [o] b).

Definition sample_LayerNorm {R : Type} (d : nat) (w b : R) : LayerNorm R :=
  mkLayerNorm d (full [d] w) (full [d] b).

Definition sample_Conv2d {R : Type} (cin cout k s p : nat) (w b : R)
  : Conv2d R :=
  mkConv2d cin cout k s p (full [cout; cin; k; k] w) (full [cout] b).

Definition sample_MHSA {R : Type} (d : nat) (tr : bool) (nh : nat) (w b : R)
  : MultiHeadSelfAttention R :=
  mkMHSA d tr nh (sample_Linear d (d * 3) w b) (sample_Linear d d w b).

Definition sample_AttentionBlock {R : Type} (d : nat) (tr : bool)
  (ws nh : nat) (w b : R) : AttentionBlock R :=
  mkAttentionBlock ws tr (sample_MHSA d tr nh w b)
    (sample_Linear d (d * 4) w b) (sample_Linear (d * 4) d w b)
    (sample_LayerNorm d w b) (sample_LayerNorm d w b).


(** ** Concrete objects for the examples *)

(** [MultiHeadSelfAttention(2, transposed, 1)] with every weight 1 and every
    bias 0, and the input [torch.ones(1, 1, 1, 2)]. *)
Definition ex_attention (tr : bool) : MultiHeadSelfAttention Qc :=
  sample_MHSA 2 tr 1 (Q2Qc 1) (Q2Qc 0).

Definition ex_sequence : Tensor Qc := full [1; 1; 1; 2] (Q2Qc 1).


Definition ex_block (d : nat) (tr : bool) (ws nh : nat) : AttentionBlock Qc :=
  sample_AttentionBlock d tr ws nh (Q2Qc 1) (Q2Qc 0).

Definition ex_pair : AttentionBlock Qc * AttentionBlock Qc :=
  (ex_block 1 false 2 1, ex_block 1 true 2 1).

(** [TransformerSR(factor=2, residual_groups=[2], num_blocks=4, dim=1,
    window_size=2, num_heads=1)] and a 2x2 RGB image. *)
Definition ex_sr : TransformerSR Qc :=
  mkTransformerSR [2%Z]
    (sample_Conv2d 3 1 3 1 1 (Q2Qc 1) (Q2Qc 0))
    [ex_pair; ex_pair; ex_pair; ex_pair]
    (sample_Conv2d 1 (2 ^ 2 * 3) 3 1 1 (Q2Qc 1) (Q2Qc 0))
    2.

Definition ex_image : Tensor Qc := full [1; 3; 2; 2] (Q2Qc 1).

(** The same network with [residual_groups=[1]]. *)
Definition ex_sr1 : TransformerSR Qc :=
  mkTransformerSR [1%Z] (in_conv ex_sr) (blocks ex_sr) (out_conv ex_sr) 2.

Definition ex_features : Tensor Qc := full [1; 1; 2; 2] (Q2Qc 1).

(** [Classifier(groups=[1, 1], dims=[16, 32], window_size=8, num_heads=8,
    num_classes=10)] and a 64x64 RGB image. *)
Definition ex_classifier : Classifier Qc :=
  mkClassifier
    [LConv2d (sample_Conv2d 3 16 3 1 1 (Q2Qc 1) (Q2Qc 0));
     LAttentionBlock (ex_block 16 false 8 8);
     LAttentionBlock (ex_block 16 true 8 8);
     LConv2d (sample_Conv2d 16 32 2 2 0 (Q2Qc 1) (Q2Qc 0));
     LAttentionBlock (ex_block 32 false 4 8);
     LAttentionBlock (ex_block 32 true 4 8);
     LAdaptiveAvgPool2d;
     LFlatten;
     LLinear (sample_Linear 32 10 (Q2Qc 1) (Q2Qc 0))].

Definition ex_photo : Tensor Qc := full [1; 3; 64; 64] (Q2Qc 0).


(** ** Reference formulation of skip groups

    [run_all] applies blocks one after the other with no skip at all;
    [run_group] runs the blocks of one group and then adds the group's
    input; [run_groups] chains groups. *)

Section SkipGroups.
Variables (T Blk : Type).
Variable run : Blk -> T -> option T.
Variable plus : T -> PyVal T -> option T.

Fixpoint run_all (blocks : list Blk) (x : T) : option T :=
  match blocks with
  | [] => Some x
  | b :: rest => y <- run b x ;; run_all rest y
  end.

Definition run_group (G : list Blk) (x : T) : option T :=
  y <- run_all G x ;; plus y (PTensor x).

Fixpoint run_groups (Gs : list (list Blk)) (x : T) : option T :=
  match Gs with
  | [] => Some x
  | G :: rest => y <- run_group G x ;; run_groups rest y
  end.

End SkipGroups.

(** The same network with another [residual_groups] list. *)
Definition with_residual_groups {R : Type} (m : TransformerSR R)
  (groups : list Z) : TransformerSR R :=
  mkTransformerSR groups (in_conv m) (blocks m) (out_conv m)
    (upscale_factor m).


(** Further sample objects: one 2x2 window, a three-channel attention
    module with two heads, and inputs that do not fit. *)
Definition ex_windows : Tensor Qc := full [1; 1 * 1; 1; 2; 2] (Q2Qc 1).

Definition ex_attention3 : MultiHeadSelfAttention Qc :=
  sample_MHSA 3 false 2 (Q2Qc 1) (Q2Qc 0).

Definition ex_sequence3 : Tensor Qc := full [1; 1; 1; 3] (Q2Qc 1).

Definition ex_image3 : Tensor Qc := full [1; 3; 3; 3] (Q2Qc 1).


(** Two feature maps of two 2x2 windows that agree on the left window
    only, and two batches of two images that agree on the first image
    only. *)
Definition ex_two_windows : Tensor Qc :=
  full [1; 1 * 1; 1 * 2; 2 * 2] (Q2Qc 1).

Definition ex_two_windows_alt : Tensor Qc :=
  mkTensor [1; 1 * 1; 1 * 2; 2 * 2]
    (map (fun z => Q2Qc (inject_Z z)) [1; 1; 5; 6; 1; 1; 7; 8]%Z).

Definition ex_two_images : Tensor Qc := full [2; 1 * 1; 2; 2] (Q2Qc 1).

Definition ex_two_images_alt : Tensor Qc :=
  mkTensor [2; 1 * 1; 2; 2]
    (map (fun z => Q2Qc (inject_Z z)) [1; 1; 1; 1; 5; 6; 7; 8]%Z).


(** Two batches of two one-row sequences that agree on the first
    sequence only. *)
Definition ex_two_sequences : Tensor Qc := full [1; 2; 1; 1 * 2] (Q2Qc 1).

Definition ex_two_sequences_alt : Tensor Qc :=
  mkTensor [1; 2; 1; 1 * 2]
    (map (fun z => Q2Qc (inject_Z z)) [1; 1; 3; 4]%Z).


(** ** Two runs side by side

    [same_entry i B S x x']: two tensors of shape [B :: S] hold the same
    values at batch entry [i].  [val_rel] and [dict_rel] lift a relation on
    features to the values and to the whole of the residual dictionary:
    same keys in the same order, int placeholders equal, stored features
    related. *)

Definition same_entry {R : Type} {SR : Scalar R} (i B : nat) (S : list nat)
  (x x' : Tensor R) : Prop :=
  has_shape x (B :: S) /\ has_shape x' (B :: S) /\
  forall idx, in_bounds S idx -> get x (i :: idx) = get x' (i :: idx).

Definition val_rel {T : Type} (Rel : T -> T -> Prop) (v v' : PyVal T)
  : Prop :=
  match v, v' with
  | PInt n, PInt n' => n = n'
  | PTensor t, PTensor t' => Rel t t'
  | _, _ => False
  end.

Definition dict_rel {T : Type} (Rel : T -> T -> Prop)
  (d d' : dict (PyVal T)) : Prop :=
  Forall2 (fun e e' => fst e = fst e' /\ val_rel Rel (snd e) (snd e')) d d'.


(** A batch of two 2x2 RGB images, and one that differs in the second
    image only. *)
Definition ex_two_photos : Tensor Qc := full [2; 3; 1 * 2; 1 * 2] (Q2Qc 1).

Definition ex_two_photos_alt : Tensor Qc :=
  mkTensor [2; 3; 1 * 2; 1 * 2]
    (repeat (Q2Qc 1) 12 ++ repeat (Q2Qc (inject_Z 2)) 12).


(** [Classifier(groups=[1, 1], dims=[1, 1], window_size=1, num_heads=1,
    num_classes=2)]: the second stage asks for windows of size
    [1 // 2 = 0]. *)
Definition ex_classifier_thin : Classifier Qc :=
  mkClassifier
    [LConv2d (sample_Conv2d 3 1 3 1 1 (Q2Qc 1) (Q2Qc 0));
     LAttentionBlock (ex_block 1 false 1 1);
     LAttentionBlock (ex_block 1 true 1 1);
     LConv2d (sample_Conv2d 1 1 2 2 0 (Q2Qc 1) (Q2Qc 0));
     LAttentionBlock (ex_block 1 false 0 1);
     LAttentionBlock (ex_block 1 true 0 1);
     LAdaptiveAvgPool2d;
     LFlatten;
     LLinear (sample_Linear 1 2 (Q2Qc 1) (Q2Qc 0))].


(** [Classifier(groups=[1], dims=[1], window_size=2, num_heads=1,
    num_classes=2)], small enough to be run on [ex_image]. *)
Definition ex_classifier_small : Classifier Qc :=
  mkClassifier
    [LConv2d (sample_Conv2d 3 1 3 1 1 (Q2Qc 1) (Q2Qc 0));
     LAttentionBlock (ex_block 1 false 2 1);
     LAttentionBlock (ex_block 1 true 2 1);
     LAdaptiveAvgPool2d;
     LFlatten;
     LLinear (sample_Linear 1 2 (Q2Qc 1) (Q2Qc 0))].


(** A 2x2 matrix: too few axes for [spatial_flatten]. *)
Definition ex_matrix : Tensor Qc := full [2; 2] (Q2Qc 1).


(** ** Reference formulation of the layers, element by element

    What one entry of the result of a layer is, in the words of the
    library's documentation: [layer_norm_entry l row c] normalises a row by
    its mean and variance and applies the learned scale and shift;
    [linear_entry l row o] is output feature [o] of [row . W^T + bias];
    [conv_entry cv x H W b o i j] is output channel [o] at position
    [(i, j)] of the zero-padded cross-correlation of image [b];
    [pool_entry x H W b c] is the mean of channel [c] of image [b]. *)

Section LayerReference.
Context {R : Type} {SR : Scalar R} {TR : Transcendental R}.

Definition layer_norm_entry (l : LayerNorm R) (row : nat -> R) (c : nat)
  : R :=
  let n := normalized_shape l in
  let mean := div (sum_n n row) (of_int (Z.of_nat n)) in
  let var :=
    div (sum_n n (fun j => mul (sub (row j) mean) (sub (row j) mean)))
        (of_int (Z.of_nat n)) in
  add (mul (div (sub (row c) mean) (sqrt (add var ln_eps)))
           (get (ln_weight l) [c]))
      (get (ln_bias l) [c]).

Definition linear_entry (l : Linear R) (row : nat -> R) (o : nat) : R :=
  add (sum_n (in_features l)
         (fun i => mul (row i) (get (weight l) [o; i])))
      (get (bias l) [o]).

Definition conv_entry (cv : Conv2d R) (x : Tensor R) (H W b o i j : nat)
  : R :=
  add (sum_n (in_channels cv) (fun c =>
         sum_n (kernel_size cv) (fun ky =>
           sum_n (kernel_size cv) (fun kx =>
             mul (let u := i * stride cv + ky in
                  let v := j * stride cv + kx in
                  let p := padding cv in
                  if (p <=? u) && (u <? H + p) && (p <=? v) && (v <? W + p)
                  then get x [b; c; u - p; v - p]
                  else zero)
                 (get (conv_weight cv) [o; c; ky; kx])))))
      (get (conv_bias cv) [o]).

Definition pool_entry (x : Tensor R) (H W b c : nat) : R :=
  div (sum_n H (fun h => sum_n W (fun w => get x [b; c; h; w])))
      (of_int (Z.of_nat (H * W))).

End LayerReference.

(** ** Reference formulation of the classifier's stages

    The specification's reading of [Classifier.forward]: the input
    convolution, then the stages one after the other, then pooling,
    flatten and the linear projection.  A stage is an optional
    downsampling convolution followed by block pairs, each a windowed
    block followed by a transposed one. *)

Section StageReference.
Context {R : Type} {SR : Scalar R} {TR : Transcendental R}.

Definition Stage : Type :=
  (option (Conv2d R) * list (AttentionBlock R * AttentionBlock R))%type.

Definition stage_forward (st : Stage) (x : Tensor R) : option (Tensor R) :=
  y <- match fst st with
       | Some c => Conv2d_forward c x
       | None => Some x
       end ;;
  run_all pair_forward (snd st) y.

(** The entries of [self.blocks] that a stage accounts for. *)
Definition stage_layers (st : Stage) : list (Layer R) :=
  match fst st with
  | Some c => [LConv2d c]
  | None => []
  end ++
  concat (map (fun p => [LAttentionBlock (fst p); LAttentionBlock (snd p)])
            (snd st)).

(** Stage [i] as the constructor is said to build it. *)
Definition Stage_built (dims : list nat) (window_size num_heads : nat)
  (i g : nat) (st : Stage) : Prop :=
  match fst st with
  | Some c =>
      0 < i /\ Conv2d_built c (nth (i - 1) dims 0) (nth i dims 0) 2 2 0
  | None => i = 0
  end /\
  length (snd st) = g /\
  Forall (fun p =>
            AttentionBlock_built (fst p) (nth i dims 0) false
              (window_size / 2 ^ i) num_heads /\
            AttentionBlock_built (snd p) (nth i dims 0) true
              (window_size / 2 ^ i) num_heads) (snd st).

End StageReference.


(* ================================================================== *)
(** * Part II: properties *)
(* ================================================================== *)

(** ** Row-major index arithmetic *)

Lemma in_bounds_length (s idx : list nat) :
  in_bounds s idx -> length idx = length s.
Proof.
  revert idx; induction s as [|d s IH]; intros [|i idx]; simpl; try tauto.
  intros [_ H]; f_equal; auto.
Qed.

Lemma ravel_lt (s idx : list nat) :
  in_bounds s idx -> ravel s idx < numel s.
Proof.
  revert idx; induction s as [|d s IH]; intros [|i idx]; simpl; try tauto.
  - lia.
  - intros [Hi Hb]. specialize (IH _ Hb). nia.
Qed.

Lemma unravel_in_bounds (s : list nat) (k : nat) :
  k < numel s -> in_bounds s (unravel s k).
Proof.
  revert k; induction s as [|d s IH]; intros k; simpl; [tauto|].
  intros Hk.
  assert (Hs : numel s <> 0) by (intros E; rewrite E in Hk; lia).
  split.
  - apply Nat.Div0.div_lt_upper_bound. lia.
  - apply IH, Nat.mod_upper_bound; assumption.
Qed.

Lemma ravel_unravel (s : list nat) (k : nat) :
  k < numel s -> ravel s (unravel s k) = k.
Proof.
  revert k; induction s as [|d s IH]; intros k; simpl; [lia|].
  intros Hk.
  assert (Hs : numel s <> 0) by (intros E; rewrite E in Hk; lia).
  rewrite IH by (apply Nat.mod_upper_bound; assumption).
  rewrite (Nat.div_mod_eq k (numel s)) at 3. lia.
Qed.

Lemma unravel_ravel (s idx : list nat) :
  in_bounds s idx -> unravel s (ravel s idx) = idx.
Proof.
  revert idx; induction s as [|d s IH]; intros [|i idx]; simpl; try tauto.
  intros [Hi Hb].
  pose proof (ravel_lt _ _ Hb) as Hlt.
  f_equal.
  - rewrite Nat.div_add_l by lia. rewrite Nat.div_small by assumption. lia.
  - rewrite Nat.add_comm, Nat.Div0.mod_add, Nat.mod_small by assumption.
    auto.
Qed.

(** ** Generic facts about tensors *)

Section TensorFacts.
Context {R : Type} {SR : Scalar R}.

Lemma wf_tabulate (s : list nat) (f : list nat -> R) : wf (tabulate s f).
Proof. unfold wf, tabulate; simpl. now rewrite length_map, length_seq. Qed.

Lemma shape_tabulate (s : list nat) (f : list nat -> R) :
  shape (tabulate s f) = s.
Proof. reflexivity. Qed.

Lemma get_tabulate (s idx : list nat) (f : list nat -> R) :
  in_bounds s idx -> get (tabulate s f) idx = f idx.
Proof.
  intros Hb. unfold get, tabulate; simpl.
  pose proof (ravel_lt _ _ Hb) as Hlt.
  rewrite (nth_indep _ zero (f (unravel s 0)))
    by now rewrite length_map, length_seq.
  rewrite (map_nth (fun k => f (unravel s k))).
  rewrite seq_nth by assumption. simpl.
  now rewrite unravel_ravel.
Qed.

Lemma tabulate_ext (s : list nat) (f g : list nat -> R) :
  (forall idx, in_bounds s idx -> f idx = g idx) ->
  tabulate s f = tabulate s g.
Proof.
  intros H. unfold tabulate. f_equal. apply map_ext_in.
  intros k Hk. apply in_seq in Hk. apply H, unravel_in_bounds. lia.
Qed.

Lemma tabulate_get (t : Tensor R) :
  wf t -> tabulate (shape t) (get t) = t.
Proof.
  destruct t as [s d]; unfold wf, tabulate, get; simpl. intros Hwf.
  f_equal. apply nth_ext with (d := zero) (d' := zero).
  - now rewrite length_map, length_seq.
  - intros k Hk. rewrite length_map, length_seq in Hk.
    rewrite (nth_indep _ zero (nth (ravel s (unravel s 0)) d zero))
      by now rewrite length_map, length_seq.
    rewrite (map_nth (fun k => nth (ravel s (unravel s k)) d zero)).
    rewrite seq_nth by assumption. simpl.
    now rewrite ravel_unravel.
Qed.

(** Two well-formed tensors of one shape that agree at every index are
    equal. *)
Lemma tensor_ext (t1 t2 : Tensor R) :
  shape t1 = shape t2 -> wf t1 -> wf t2 ->
  (forall idx, in_bounds (shape t1) idx -> get t1 idx = get t2 idx) ->
  t1 = t2.
Proof.
  intros Hs H1 H2 Hg.
  rewrite <- (tabulate_get H1), <- (tabulate_get H2), <- Hs.
  now apply tabulate_ext.
Qed.

Lemma reshape_ok (s : list nat) (t : Tensor R) :
  numel s = numel (shape t) -> reshape s t = Some (mkTensor s (data t)).
Proof. intros H. unfold reshape. now rewrite H, Nat.eqb_refl. Qed.

End TensorFacts.

(** ** Permutations of axes *)

Lemma nth_in_bounds (s idx : list nat) (d : nat) :
  in_bounds s idx -> d < length s -> nth d idx 0 < nth d s 0.
Proof.
  revert idx d; induction s as [|a s IH]; intros [|i idx] d; simpl;
    try tauto; try lia.
  intros [Hi Hb] Hd. destruct d as [|d]; [assumption|].
  apply IH; [assumption | lia].
Qed.

Lemma gather_in_bounds (s idx p : list nat) :
  in_bounds s idx -> Forall (fun d => d < length s) p ->
  in_bounds (gather s p) (gather idx p).
Proof.
  intros Hb Hp. induction Hp as [|d p Hd _ IH]; simpl; [exact I|].
  split; [now apply nth_in_bounds | exact IH].
Qed.

Lemma gather_gather (l p q : list nat) :
  Forall (fun d => d < length p) q ->
  gather (gather l p) q = gather l (gather p q).
Proof.
  intros Hq. unfold gather. rewrite map_map. apply map_ext_in.
  intros d Hd. rewrite Forall_forall in Hq. specialize (Hq _ Hd).
  rewrite (nth_indep _ 0 (nth 0 l 0)) by now rewrite length_map.
  now rewrite (map_nth (fun d => nth d l 0)).
Qed.

Lemma gather_seq (l : list nat) : gather l (seq 0 (length l)) = l.
Proof.
  unfold gather. apply nth_ext with (d := 0) (d' := 0).
  - now rewrite length_map, length_seq.
  - intros k Hk. rewrite length_map, length_seq in Hk.
    rewrite (nth_indep _ 0 (nth 0 l 0)) by now rewrite length_map, length_seq.
    rewrite (map_nth (fun d => nth d l 0)). now rewrite seq_nth.
Qed.

Lemma all_lt_Forall (n : nat) (p : list nat) :
  all_lt n p = true -> Forall (fun d => d < n) p.
Proof.
  unfold all_lt. rewrite forallb_forall, Forall_forall.
  intros H d Hd. apply Nat.ltb_lt, H, Hd.
Qed.

Section PermuteFacts.
Context {R : Type} {SR : Scalar R}.

Lemma permute_ok (p : list nat) (t : Tensor R) :
  is_perm p (length (shape t)) = true ->
  permute p t =
  Some (tabulate (gather (shape t) p)
          (fun idx => get t (gather idx (inv_perm p)))).
Proof. intros H. unfold permute. now rewrite H. Qed.

Lemma get_permute (p : list nat) (t t' : Tensor R) (idx : list nat) :
  permute p t = Some t' ->
  in_bounds (shape t') idx ->
  get t' idx = get t (gather idx (inv_perm p)).
Proof.
  unfold permute. destruct (is_perm p (length (shape t))); [|discriminate].
  intros [= <-]. simpl. intros Hb. now rewrite get_tabulate.
Qed.

(** Permuting by [p] and then by its inverse [q] gives the tensor back.
    The side conditions are closed boolean checks on [p] and [q]. *)
Lemma permute_inverse (p q : list nat) (t : Tensor R) :
  wf t ->
  is_perm p (length (shape t)) = true ->
  is_perm q (length (shape t)) = true ->
  all_lt (length (shape t)) p = true ->
  all_lt (length (shape t)) q = true ->
  inv_perm q = p ->
  inv_perm p = q ->
  gather p q = seq 0 (length (shape t)) ->
  (t' <- permute p t ;; permute q t') = Some t.
Proof.
  intros Hwf Hp Hq Lp Lq Ipq Iqp Gpq.
  assert (Hlenp : length p = length (shape t)).
  { unfold is_perm in Hp. apply andb_prop in Hp as [Hp _].
    now apply Nat.eqb_eq. }
  assert (Hlenq : length q = length (shape t)).
  { unfold is_perm in Hq. apply andb_prop in Hq as [Hq _].
    now apply Nat.eqb_eq. }
  apply all_lt_Forall in Lp, Lq.
  assert (Hlg : length (gather (shape t) p) = length (shape t)).
  { unfold gather. now rewrite length_map. }
  assert (Hsh : gather (gather (shape t) p) q = shape t).
  { rewrite gather_gather by (rewrite Hlenp; exact Lq).
    rewrite Gpq. apply gather_seq. }
  rewrite (permute_ok _ _ Hp). cbn [bind].
  rewrite permute_ok by (rewrite shape_tabulate, Hlg; exact Hq).
  f_equal. rewrite shape_tabulate, Hsh, Ipq.
  apply tensor_ext; rewrite ?shape_tabulate; auto using wf_tabulate.
  intros idx Hb.
  pose proof (in_bounds_length _ _ Hb) as Hl.
  rewrite get_tabulate by assumption.
  rewrite get_tabulate by (apply gather_in_bounds; assumption).
  rewrite Iqp. f_equal.
  rewrite gather_gather by (rewrite Hlenp; exact Lq).
  rewrite Gpq, <- Hl. apply gather_seq.
Qed.

End PermuteFacts.

(** ** Window partitioning *)

Lemma floordiv_ok (a b : nat) : b <> 0 -> floordiv a b = Some (a / b).
Proof.
  intros Hb. unfold floordiv.
  destruct (Nat.eqb_spec b 0); [contradiction | reflexivity].
Qed.

Section WindowFacts.
Context {R : Type} {SR : Scalar R}.

(** What [window_partition] returns on a map whose sides are multiples of
    the window size. *)
Lemma window_partition_ok (x : Tensor R) (B C h v w : nat) :
  has_shape x [B; C; h * w; v * w] -> w <> 0 ->
  exists x1 x2 x3 y,
    reshape [B; C; h; w; v; w] x = Some x1 /\
    permute [0; 1; 2; 4; 3; 5] x1 = Some x2 /\
    reshape [B; C; h * v; w; w] x2 = Some x3 /\
    permute [0; 2; 1; 3; 4] x3 = Some y /\
    window_partition x w = Some y /\
    x1 = mkTensor [B; C; h; w; v; w] (data x) /\
    x3 = mkTensor [B; C; h * v; w; w] (data x2) /\
    has_shape x2 [B; C; h; v; w; w] /\
    has_shape y [B; h * v; C; w; w].
Proof.
  intros [Hs Hwf] Hw.
  assert (E1 : reshape [B; C; h; w; v; w] x
               = Some (mkTensor [B; C; h; w; v; w] (data x))).
  { apply reshape_ok. rewrite Hs. simpl. ring. }
  set (x1 := mkTensor [B; C; h; w; v; w] (data x)) in *.
  assert (E2 : permute [0; 1; 2; 4; 3; 5] x1
               = Some (tabulate [B; C; h; v; w; w]
                   (fun idx => get x1 (gather idx (inv_perm [0; 1; 2; 4; 3; 5]))))).
  { now rewrite permute_ok. }
  set (x2 := tabulate [B; C; h; v; w; w] _) in *.
  assert (E3 : reshape [B; C; h * v; w; w] x2
               = Some (mkTensor [B; C; h * v; w; w] (data x2))).
  { apply reshape_ok. simpl. ring. }
  set (x3 := mkTensor [B; C; h * v; w; w] (data x2)) in *.
  assert (E4 : permute [0; 2; 1; 3; 4] x3
               = Some (tabulate [B; h * v; C; w; w]
                   (fun idx => get x3 (gather idx (inv_perm [0; 2; 1; 3; 4]))))).
  { now rewrite permute_ok. }
  set (y := tabulate [B; h * v; C; w; w] _) in *.
  exists x1, x2, x3, y. repeat split; auto; try apply wf_tabulate.
  unfold window_partition. rewrite Hs.
  assert (Hw2 : w ^ 2 <> 0) by (simpl; nia).
  rewrite (floordiv_ok _ Hw2), !(floordiv_ok _ Hw). cbn [bind].
  rewrite !Nat.div_mul by assumption.
  replace (h * w * (v * w) / w ^ 2) with (h * v).
  - rewrite E1. cbn [bind]. rewrite E2. cbn [bind]. rewrite E3. cbn [bind].
    exact E4.
  - replace (h * w * (v * w)) with (h * v * w ^ 2) by (simpl; ring).
    now rewrite Nat.div_mul.
Qed.

(** C4: [window_unpartition] undoes [window_partition] on every
    (B, C, H, W) map whose height and width are multiples of the window
    size. *)
Theorem window_unpartition_partition
  (x : Tensor R) (B C H W w : nat) :
  has_shape x [B; C; H; W] ->
  w <> 0 -> H mod w = 0 -> W mod w = 0 ->
  (y <- window_partition x w ;; window_unpartition y H W) = Some x.
Proof.
  intros Hx Hw HH HW.
  apply Nat.Div0.div_exact in HH, HW.
  remember (H / w) as h eqn:Eh. remember (W / w) as v eqn:Ev.
  clear Eh Ev.
  rewrite (Nat.mul_comm w h) in HH. rewrite (Nat.mul_comm w v) in HW.
  subst H W.
  edestruct window_partition_ok
    as (x1 & x2 & x3 & y & E1 & E2 & E3 & E4 & EP & D1 & D3 & S2 & Sy);
    [exact Hx | exact Hw |].
  rewrite EP. cbn [bind].
  unfold window_unpartition. rewrite (proj1 Sy).
  (* the outer permutation is its own inverse *)
  assert (W3 : wf x3).
  { subst x3. unfold wf. simpl. rewrite (proj2 S2), (proj1 S2). simpl. ring. }
  assert (P3 : (t' <- permute [0; 2; 1; 3; 4] x3 ;;
                permute [0; 2; 1; 3; 4] t') = Some x3).
  { apply permute_inverse; subst x3; auto. }
  rewrite E4 in P3. cbn [bind] in P3. rewrite P3. cbn [bind].
  rewrite !(floordiv_ok _ Hw). cbn [bind].
  rewrite !Nat.div_mul by assumption.
  (* reshaping back recovers [x2] *)
  assert (R2 : reshape [B; C; h; v; w; w] x3 = Some x2).
  { rewrite reshape_ok by (subst x3; simpl; ring).
    subst x3. simpl. destruct S2 as [S2 _]. destruct x2; simpl in *.
    now subst. }
  rewrite R2. cbn [bind].
  (* the inner permutation is its own inverse as well *)
  assert (W1 : wf x1).
  { subst x1. unfold wf. simpl. destruct Hx as [Hs Hwf].
    rewrite Hwf, Hs. simpl. ring. }
  assert (P1 : (t' <- permute [0; 1; 2; 4; 3; 5] x1 ;;
                permute [0; 1; 2; 4; 3; 5] t') = Some x1).
  { apply permute_inverse; subst x1; auto. }
  rewrite E2 in P1. cbn [bind] in P1. rewrite P1. cbn [bind].
  rewrite reshape_ok by (subst x1; simpl; ring).
  subst x1. simpl. destruct Hx as [Hs _]. destruct x; simpl in *.
  now subst.
Qed.

End WindowFacts.

(** ** Flattening the spatial axes *)

Lemma numel_app (s1 s2 : list nat) : numel (s1 ++ s2) = numel s1 * numel s2.
Proof. induction s1 as [|d s1 IH]; simpl; [lia | rewrite IH; ring]. Qed.

Lemma ravel_app (s1 s2 i1 i2 : list nat) :
  length i1 = length s1 ->
  ravel (s1 ++ s2) (i1 ++ i2) = ravel s1 i1 * numel s2 + ravel s2 i2.
Proof.
  revert i1; induction s1 as [|d s1 IH]; intros [|i i1]; simpl;
    try discriminate; auto.
  intros [= Hl]. rewrite IH, numel_app by assumption. ring.
Qed.

Lemma in_bounds_app (s1 s2 i1 i2 : list nat) :
  in_bounds s1 i1 -> in_bounds s2 i2 -> in_bounds (s1 ++ s2) (i1 ++ i2).
Proof.
  revert i1; induction s1 as [|d s1 IH]; intros [|i i1]; simpl; try tauto.
  intros [Hi Hb] H2. split; auto.
Qed.

Lemma swap_last2_app (pre : list nat) (a b : nat) :
  swap_last2 (pre ++ [a; b]) = pre ++ [b; a].
Proof.
  induction pre as [|d pre IH]; [reflexivity|].
  simpl app. simpl swap_last2. rewrite IH.
  destruct pre as [|e pre]; [reflexivity|].
  destruct pre; reflexivity.
Qed.

Lemma swap_last2_length (l : list nat) : length (swap_last2 l) = length l.
Proof.
  induction l as [|a l IH]; [reflexivity|].
  destruct l as [|b l]; [reflexivity|].
  destruct l as [|c l]; [reflexivity|].
  change (swap_last2 (a :: b :: c :: l)) with (a :: swap_last2 (b :: c :: l)).
  simpl length in *. now rewrite IH.
Qed.

Lemma swap_last2_involutive (l : list nat) : swap_last2 (swap_last2 l) = l.
Proof.
  induction l as [|a l IH]; [reflexivity|].
  destruct l as [|b l]; [reflexivity|].
  destruct l as [|c l]; [reflexivity|].
  change (swap_last2 (a :: b :: c :: l)) with (a :: swap_last2 (b :: c :: l)).
  pose proof (swap_last2_length (b :: c :: l)) as Hl.
  destruct (swap_last2 (b :: c :: l)) as [|b' [|c' l']] eqn:E;
    try discriminate.
  change (swap_last2 (a :: b' :: c' :: l'))
    with (a :: swap_last2 (b' :: c' :: l')).
  now rewrite IH.
Qed.

Lemma in_bounds_swap_last2 (s idx : list nat) :
  in_bounds s idx -> in_bounds (swap_last2 s) (swap_last2 idx).
Proof.
  revert idx; induction s as [|a s IH]; intros [|i idx]; simpl; try tauto.
  destruct s as [|b s]; destruct idx as [|j idx]; simpl; try tauto.
  destruct s as [|c s]; destruct idx as [|k idx]; simpl; try tauto.
  intros (Hi & Hj & Hk & Hb). split; [assumption|].
  apply (IH (j :: k :: idx)). simpl. tauto.
Qed.

Lemma merge_last2_app (pre : list nat) (a b : nat) :
  merge_last2 (pre ++ [a; b]) = Some (pre ++ [a * b]).
Proof.
  induction pre as [|d pre IH]; [reflexivity|].
  simpl app. simpl merge_last2. rewrite IH. cbn [bind].
  destruct pre as [|e pre]; [reflexivity|].
  destruct pre; reflexivity.
Qed.

Lemma split_last_app (pre : list nat) (H W : nat) :
  split_last (pre ++ [H * W]) H W = Some (pre ++ [H; W]).
Proof.
  induction pre as [|d pre IH].
  - simpl. now rewrite Nat.eqb_refl.
  - simpl app. simpl split_last. rewrite IH. cbn [bind].
    destruct pre; reflexivity.
Qed.

Section FlattenFacts.
Context {R : Type} {SR : Scalar R}.

Lemma transpose_last2_ok (t : Tensor R) :
  2 <= length (shape t) ->
  transpose_last2 t =
  Some (tabulate (swap_last2 (shape t)) (fun idx => get t (swap_last2 idx))).
Proof.
  intros H. unfold transpose_last2.
  destruct (Nat.leb_spec 2 (length (shape t))); [reflexivity | lia].
Qed.

Lemma transpose_last2_involutive (t : Tensor R) :
  wf t -> 2 <= length (shape t) ->
  (t' <- transpose_last2 t ;; transpose_last2 t') = Some t.
Proof.
  intros Hwf Hr. rewrite transpose_last2_ok by assumption. cbn [bind].
  rewrite transpose_last2_ok
    by (rewrite shape_tabulate, swap_last2_length; assumption).
  f_equal. rewrite shape_tabulate, swap_last2_involutive.
  apply tensor_ext; rewrite ?shape_tabulate; auto using wf_tabulate.
  intros idx Hb.
  rewrite get_tabulate by assumption.
  rewrite get_tabulate by (apply in_bounds_swap_last2; assumption).
  now rewrite swap_last2_involutive.
Qed.

(** What [spatial_flatten] returns, and where each element goes: the
    element at channel [c], row [h], column [w] lands at sequence position
    [h * W + w]. *)
Lemma spatial_flatten_ok (x : Tensor R) (pre : list nat) (C H W : nat) :
  has_shape x (pre ++ [C; H; W]) ->
  exists x1 y,
    flatten_last2 x = Some x1 /\
    transpose_last2 x1 = Some y /\
    spatial_flatten x = Some y /\
    x1 = mkTensor ((pre ++ [C]) ++ [H * W]) (data x) /\
    has_shape y ((pre ++ [H * W]) ++ [C]) /\
    forall ipre c h w,
      in_bounds pre ipre -> c < C -> h < H -> w < W ->
      get y (ipre ++ [h * W + w; c]) = get x (ipre ++ [c; h; w]).
Proof.
  intros [Hs Hwf].
  assert (E1 : flatten_last2 x
               = Some (mkTensor ((pre ++ [C]) ++ [H * W]) (data x))).
  { unfold flatten_last2. rewrite Hs.
    change (pre ++ [C; H; W]) with (pre ++ [C] ++ [H; W]).
    rewrite app_assoc, merge_last2_app. reflexivity. }
  set (x1 := mkTensor ((pre ++ [C]) ++ [H * W]) (data x)) in *.
  assert (E2 : transpose_last2 x1
               = Some (tabulate ((pre ++ [H * W]) ++ [C])
                         (fun idx => get x1 (swap_last2 idx)))).
  { rewrite transpose_last2_ok.
    - simpl shape. rewrite <- !app_assoc. simpl app.
      now rewrite swap_last2_app.
    - simpl shape. rewrite !length_app. simpl. lia. }
  set (y := tabulate _ _) in *.
  exists x1, y. repeat split; auto; try apply wf_tabulate.
  - unfold spatial_flatten. rewrite E1. cbn [bind]. exact E2.
  - intros ipre c h w Hi Hc Hh Hw.
    pose proof (in_bounds_length _ _ Hi) as Hl.
    unfold y. rewrite get_tabulate.
    2:{ rewrite <- app_assoc. apply in_bounds_app; [assumption|].
        simpl. repeat split; auto. nia. }
    rewrite swap_last2_app. unfold get. rewrite Hs. simpl shape. simpl data.
    f_equal. rewrite <- app_assoc.
    rewrite !ravel_app by assumption. simpl. ring.
Qed.

Lemma unflatten_after_flatten
  (x : Tensor R) (pre : list nat) (C H W : nat) :
  has_shape x (pre ++ [C; H; W]) ->
  (y <- spatial_flatten x ;; spatial_unflatten y H W) = Some x.
Proof.
  intros Hx.
  destruct (spatial_flatten_ok _ _ _ _ Hx)
    as (x1 & y & E1 & E2 & EF & D1 & Sy & Hget).
  rewrite EF. cbn [bind]. unfold spatial_unflatten.
  assert (W1 : wf x1).
  { subst x1. unfold wf. simpl. destruct Hx as [Hs Hwf].
    rewrite Hwf, Hs, !numel_app. simpl. ring. }
  assert (T : (t' <- transpose_last2 x1 ;; transpose_last2 t') = Some x1).
  { apply transpose_last2_involutive; [assumption|].
    subst x1. simpl. rewrite !length_app. simpl. lia. }
  rewrite E2 in T. cbn [bind] in T. rewrite T. cbn [bind].
  unfold unflatten_last. subst x1. simpl shape.
  rewrite split_last_app. cbn [bind]. simpl data.
  destruct Hx as [Hs _]. destruct x; simpl in *. subst.
  now rewrite <- app_assoc.
Qed.

Lemma flatten_after_unflatten
  (y : Tensor R) (pre : list nat) (C H W : nat) :
  has_shape y (pre ++ [H * W; C]) ->
  (x <- spatial_unflatten y H W ;; spatial_flatten x) = Some y.
Proof.
  intros [Hs Hwf].
  assert (Hr : 2 <= length (shape y)).
  { rewrite Hs, length_app. simpl. lia. }
  pose proof (transpose_last2_involutive Hwf Hr) as T.
  unfold spatial_unflatten, spatial_flatten.
  rewrite transpose_last2_ok in T |- * by assumption.
  cbn [bind] in T |- *.
  set (y1 := tabulate _ _) in *.
  assert (S1 : shape y1 = (pre ++ [C]) ++ [H * W]).
  { unfold y1. rewrite shape_tabulate, Hs, swap_last2_app.
    now rewrite <- app_assoc. }
  unfold unflatten_last. rewrite S1, split_last_app. cbn [bind].
  unfold flatten_last2. simpl shape.
  rewrite <- app_assoc. simpl app.
  change (pre ++ [C; H; W]) with (pre ++ [C] ++ [H; W]).
  rewrite app_assoc, merge_last2_app. cbn [bind].
  rewrite <- T. f_equal.
  destruct y1 as [s1 d1]; simpl in *. now subst.
Qed.

(** C8: [spatial_unflatten] undoes [spatial_flatten] on every tensor whose
    trailing dimensions are (C, H, W), [spatial_flatten] undoes
    [spatial_unflatten] on every tensor whose trailing dimensions are
    (H * W, C), and flattening is in raster-scan order: position
    [h * W + w] of the sequence axis holds the element of row [h],
    column [w]. *)
Theorem spatial_unflatten_flatten (pre : list nat) (C H W : nat) :
  (forall x : Tensor R,
     has_shape x (pre ++ [C; H; W]) ->
     (y <- spatial_flatten x ;; spatial_unflatten y H W) = Some x /\
     exists y,
       spatial_flatten x = Some y /\
       has_shape y (pre ++ [H * W; C]) /\
       forall ipre c h w,
         in_bounds pre ipre -> c < C -> h < H -> w < W ->
         get y (ipre ++ [h * W + w; c]) = get x (ipre ++ [c; h; w])) /\
  (forall y : Tensor R,
     has_shape y (pre ++ [H * W; C]) ->
     (x <- spatial_unflatten y H W ;; spatial_flatten x) = Some y).
Proof.
  split.
  - intros x Hx. split.
    + now apply unflatten_after_flatten with (pre := pre) (C := C).
    + destruct (spatial_flatten_ok _ _ _ _ Hx)
        as (x1 & y & E1 & E2 & EF & D1 & Sy & Hget).
      exists y. rewrite <- app_assoc in Sy. auto.
  - intros y Hy.
    now apply flatten_after_unflatten with (pre := pre) (C := C).
Qed.

End FlattenFacts.

(** ** The residual dictionary *)

Section DictFacts.
Variable V : Type.

Lemma dict_get_set (k p : Z) (v : V) (d : dict V) :
  dict_get p (dict_set k v d) =
  if (k =? p)%Z then Some v else dict_get p d.
Proof.
  induction d as [|[k' v'] d IH]; simpl.
  - destruct (Z.eqb_spec k p); reflexivity.
  - destruct (Z.eqb_spec k' k) as [E|N]; simpl.
    + subst k'. destruct (Z.eqb_spec k p); reflexivity.
    + destruct (Z.eqb_spec k' p) as [E'|N'].
      * destruct (Z.eqb_spec k p); [congruence | reflexivity].
      * exact IH.
Qed.

Lemma dict_keys_set_in (k : Z) (v : V) (d : dict V) :
  In k (dict_keys d) -> dict_keys (dict_set k v d) = dict_keys d.
Proof.
  induction d as [|[k' v'] d IH]; simpl; [tauto|].
  intros Hin. destruct (Z.eqb_spec k' k) as [E|N]; simpl; [reflexivity|].
  f_equal. apply IH. destruct Hin; [contradiction | assumption].
Qed.

Lemma dict_keys_set (k : Z) (v : V) (d : dict V) :
  forall p, In p (dict_keys d) -> In p (dict_keys (dict_set k v d)).
Proof.
  induction d as [|[k' v'] d IH]; simpl; [tauto|].
  intros p [E|Hin]; destruct (Z.eqb_spec k' k); simpl; auto.
Qed.

Lemma dict_keys_set_self (k : Z) (v : V) (d : dict V) :
  In k (dict_keys (dict_set k v d)).
Proof.
  induction d as [|[k' v'] d IH]; simpl; [auto|].
  destruct (Z.eqb_spec k' k); simpl; auto.
Qed.

Lemma dict_fromkeys_keys (ks : list Z) (v : V) :
  forall p, In p ks -> In p (dict_keys (dict_fromkeys ks v)).
Proof.
  unfold dict_fromkeys.
  assert (G : forall ks d p,
             In p ks \/ In p (dict_keys d) ->
             In p (dict_keys (fold_left (fun d k => dict_set k v d) ks d))).
  { clear ks. induction ks as [|k ks IH]; simpl; intros d p H.
    - destruct H; [contradiction | assumption].
    - apply IH. destruct H as [[E|H]|H]; auto.
      + subst. right. apply dict_keys_set_self.
      + right. now apply dict_keys_set. }
  intros p Hp. apply G. now left.
Qed.

End DictFacts.

(** ** The residual loop *)

Lemma py_mod_ok (a b : Z) : b <> 0%Z -> py_mod a b = Some (a mod b)%Z.
Proof.
  intros Hb. unfold py_mod. destruct (Z.eqb_spec b 0); [contradiction|].
  reflexivity.
Qed.

Lemma py_mod_Some (a b m : Z) :
  py_mod a b = Some m -> b <> 0%Z /\ m = (a mod b)%Z.
Proof.
  unfold py_mod. destruct (Z.eqb_spec b 0); [discriminate|].
  intros [= <-]. auto.
Qed.

Lemma bind_Some {A B : Type} (m : option A) (k : A -> option B) (b : B) :
  bind m k = Some b -> exists a, m = Some a /\ k a = Some b.
Proof. destruct m as [a|]; simpl; [eauto | discriminate]. Qed.

Section LoopFacts.
Variables (T Blk : Type).
Variable run : Blk -> T -> option T.
Variable plus : T -> PyVal T -> option T.

(** The reset phase succeeds when no period is zero. *)
Lemma reset_phase_total (i : Z) (x : T) (steps : list Z) :
  Forall (fun p => p <> 0%Z) steps ->
  forall d, exists d', reset_phase i x steps d = Some d'.
Proof.
  induction 1 as [|s steps Hs _ IH]; intros d; simpl; [eauto|].
  rewrite (py_mod_ok _ Hs). cbn [bind]. apply IH.
Qed.

(** What the reset phase leaves in the dictionary: the entry of [p] is
    overwritten with the current features when [p] is visited and
    [i % p == 0], and is untouched otherwise; no other entry matters. *)
Lemma reset_phase_get (i : Z) (x : T) (steps : list Z) :
  forall d d',
    reset_phase i x steps d = Some d' ->
    (forall s, In s steps -> In s (dict_keys d)) ->
    dict_keys d' = dict_keys d /\
    forall p,
      dict_get p d' =
      if existsb (Z.eqb p) steps && (i mod p =? 0)%Z
      then Some (PTensor x) else dict_get p d.
Proof.
  induction steps as [|s steps IH]; intros d d'; simpl.
  - intros [= <-] _. auto.
  - intros H Hin. apply bind_Some in H as (m & Hm & H).
    apply py_mod_Some in Hm as [Hs ->].
    apply IH in H as [Hk Hg].
    + split.
      * rewrite Hk. destruct (i mod s =? 0)%Z; [|reflexivity].
        apply dict_keys_set_in. auto.
      * intros p. rewrite Hg.
        destruct (Z.eqb_spec p s) as [->|Hps]; simpl.
        -- destruct (i mod s =? 0)%Z eqn:E.
           ++ rewrite Bool.andb_true_r, dict_get_set, Z.eqb_refl.
              now destruct (existsb (Z.eqb s) steps).
           ++ now rewrite Bool.andb_false_r.
        -- destruct (existsb (Z.eqb p) steps && (i mod p =? 0)%Z);
             [reflexivity|].
           destruct (i mod s =? 0)%Z; [|reflexivity].
           rewrite dict_get_set.
           destruct (Z.eqb_spec s p); [congruence | reflexivity].
    + intros s' Hs'. destruct (i mod s =? 0)%Z; auto.
      apply dict_keys_set. auto.
Qed.

(** The close phase adds exactly the buffers of the periods with
    [i % p == p - 1], in key order. *)
Lemma close_phase_closing (i : Z) (steps : list Z) (d : dict (PyVal T)) :
  Forall (fun p => p <> 0%Z) steps ->
  forall x, close_phase plus i steps d x
            = add_stored plus (closing i steps) d x.
Proof.
  induction 1 as [|s steps Hs _ IH]; intros x; simpl; [reflexivity|].
  rewrite (py_mod_ok _ Hs). cbn [bind].
  destruct (i mod s =? s - 1)%Z; simpl.
  - destruct (dict_get s d) as [v|]; simpl; [|reflexivity].
    destruct (plus x v) as [x'|]; simpl; [apply IH | reflexivity].
  - apply IH.
Qed.

Lemma existsb_eqb_In (p : Z) (l : list Z) :
  In p l -> existsb (Z.eqb p) l = true.
Proof.
  intros H. apply existsb_exists. exists p. split; [assumption|].
  apply Z.eqb_refl.
Qed.

(** One iteration, in the specification's terms. *)
Lemma loop_body_policy (i : nat) (b : Blk) (d : dict (PyVal T)) (x : T) :
  Forall (fun p => p <> 0%Z) (dict_keys d) ->
  exists d',
    reset_phase (Z.of_nat i) x (dict_keys d) d = Some d' /\
    dict_keys d' = dict_keys d /\
    (forall p, In p (dict_keys d) ->
       dict_get p d' =
       if (Z.of_nat i mod p =? 0)%Z then Some (PTensor x)
       else dict_get p d) /\
    (forall p, ~ In p (dict_keys d) -> dict_get p d' = dict_get p d) /\
    loop_body run plus i b (d, x) =
    (y <- run b x ;;
     z <- add_stored plus (closing (Z.of_nat i) (dict_keys d)) d' y ;;
     Some (d', z)).
Proof.
  intros Hnz.
  destruct (reset_phase_total (Z.of_nat i) x Hnz d) as [d' Hd'].
  destruct (reset_phase_get _ _ _ _ Hd' (fun s H => H)) as [Hk Hg].
  exists d'. repeat split; auto.
  - intros p Hp. rewrite Hg, (existsb_eqb_In _ _ Hp). reflexivity.
  - intros p Hp. rewrite Hg.
    destruct (existsb (Z.eqb p) (dict_keys d)) eqn:E; [|reflexivity].
    apply existsb_exists in E as (q & Hq & E).
    apply Z.eqb_eq in E. subst q. contradiction.
  - unfold loop_body. rewrite Hd'. cbn [bind]. rewrite Hk.
    destruct (run b x) as [y|]; cbn [bind]; [|reflexivity].
    now rewrite close_phase_closing.
Qed.

(** With the single period 2 and four blocks the loop is the hand-unrolled
    computation with two skips. *)
Lemma residual_loop_period2_four (b0 b1 b2 b3 : Blk) (x0 : T) :
  residual_loop run plus [2%Z] [b0; b1; b2; b3] x0 =
  (y0 <- run b0 x0 ;;
   y1 <- run b1 y0 ;;
   z1 <- plus y1 (PTensor x0) ;;
   y2 <- run b2 z1 ;;
   y3 <- run b3 y2 ;;
   z3 <- plus y3 (PTensor z1) ;;
   Some z3).
Proof.
  unfold residual_loop. cbn.
  destruct (run b0 x0) as [y0|]; cbn; [|reflexivity].
  destruct (run b1 y0) as [y1|]; cbn; [|reflexivity].
  destruct (plus y1 (PTensor x0)) as [z1|]; cbn; [|reflexivity].
  destruct (run b2 z1) as [y2|]; cbn; [|reflexivity].
  destruct (run b3 y2) as [y3|]; cbn; [|reflexivity].
  destruct (plus y3 (PTensor z1)) as [z3|]; cbn; reflexivity.
Qed.

End LoopFacts.

Section DictKeys.
Variable V : Type.

Lemma dict_keys_set_notin (k : Z) (v : V) (d : dict V) :
  ~ In k (dict_keys d) -> dict_keys (dict_set k v d) = dict_keys d ++ [k].
Proof.
  induction d as [|[k' v'] d IH]; simpl; [reflexivity|].
  intros Hn. destruct (Z.eqb_spec k' k) as [E|N]; [tauto|].
  simpl. f_equal. apply IH. tauto.
Qed.

Lemma dict_keys_set_cases (k : Z) (v : V) (d : dict V) :
  (In k (dict_keys d) /\ dict_keys (dict_set k v d) = dict_keys d) \/
  (~ In k (dict_keys d) /\ dict_keys (dict_set k v d) = dict_keys d ++ [k]).
Proof.
  destruct (in_dec Z.eq_dec k (dict_keys d)) as [Hin|Hn].
  - left. split; [assumption | now apply dict_keys_set_in].
  - right. split; [assumption | now apply dict_keys_set_notin].
Qed.

Lemma dict_fromkeys_spec (ks : list Z) (v : V) :
  NoDup (dict_keys (dict_fromkeys ks v)) /\
  forall p, In p (dict_keys (dict_fromkeys ks v)) <-> In p ks.
Proof.
  unfold dict_fromkeys.
  assert (G : forall ks d,
             NoDup (dict_keys d) ->
             NoDup (dict_keys (fold_left (fun d k => dict_set k v d) ks d)) /\
             forall p,
               In p (dict_keys (fold_left (fun d k => dict_set k v d) ks d))
               <-> In p ks \/ In p (dict_keys d)).
  { clear ks. induction ks as [|k ks IH]; simpl; intros d Hd.
    - split; [assumption | tauto].
    - destruct (dict_keys_set_cases k v d) as [[Hin E]|[Hn E]].
      + destruct (IH (dict_set k v d)) as [N I]; [now rewrite E|].
        split; [assumption|]. intros p. rewrite I, E.
        split; [tauto|]. intros [[<-|H]|H]; auto.
      + destruct (IH (dict_set k v d)) as [N I].
        { rewrite E. apply NoDup_app; [assumption | | ].
          - constructor; [simpl; tauto | constructor].
          - intros a Ha [<-|[]]. contradiction. }
        split; [assumption|]. intros p. rewrite I, E, in_app_iff. simpl.
        tauto. }
  destruct (G ks [] (NoDup_nil _)) as [N I].
  split; [assumption|]. intros p. rewrite I. simpl. tauto.
Qed.

End DictKeys.

Section LoopInvariant.
Variables (T Blk : Type).
Variable run : Blk -> T -> option T.
Variable plus : T -> PyVal T -> option T.

Lemma loop_body_Some (i : nat) (b : Blk) (d d1 : dict (PyVal T)) (x x1 : T) :
  loop_body run plus i b (d, x) = Some (d1, x1) ->
  reset_phase (Z.of_nat i) x (dict_keys d) d = Some d1 /\
  dict_keys d1 = dict_keys d.
Proof.
  unfold loop_body. intros H.
  apply bind_Some in H as (d' & Hr & H).
  apply bind_Some in H as (y & Hy & H).
  apply bind_Some in H as (z & Hz & [= <- <-]).
  split; [assumption|].
  now destruct (reset_phase_get _ _ _ _ Hr (fun s H => H)).
Qed.

Lemma loop_from_keys (blocks : list Blk) :
  forall i d x d' x',
    loop_from run plus i blocks (d, x) = Some (d', x') ->
    dict_keys d' = dict_keys d.
Proof.
  induction blocks as [|b blocks IH]; simpl; intros i d x d' x' H.
  - now inversion H.
  - apply bind_Some in H as ([d1 x1] & Hb & H).
    apply IH in H. apply loop_body_Some in Hb as [_ Hk]. congruence.
Qed.

Lemma loop_from_snoc (blocks : list Blk) (b : Blk) :
  forall i st,
    loop_from run plus i (blocks ++ [b]) st =
    (st' <- loop_from run plus i blocks st ;;
     loop_body run plus (i + length blocks) b st').
Proof.
  induction blocks as [|c blocks IH]; simpl; intros i st.
  - rewrite Nat.add_0_r. now destruct (loop_body run plus i b st).
  - destruct (loop_body run plus i c st) as [st1|]; simpl; [|reflexivity].
    rewrite IH. now rewrite Nat.add_succ_comm.
Qed.

Lemma firstn_S_nth_error (A : Type) (l : list A) (j : nat) (a : A) :
  nth_error l j = Some a -> firstn (S j) l = firstn j l ++ [a].
Proof.
  revert j; induction l as [|h l IH]; intros [|j]; try discriminate.
  - simpl. now intros [= ->].
  - intros H. change (h :: firstn (S j) l = h :: (firstn j l ++ [a])).
    f_equal. now apply IH.
Qed.

Lemma entry_S (blocks : list Blk) st0 (j : nat) (b : Blk) :
  nth_error blocks j = Some b ->
  entry run plus blocks st0 (S j) =
  (st <- entry run plus blocks st0 j ;; loop_body run plus j b st).
Proof.
  intros Hb. unfold entry. rewrite (firstn_S_nth_error _ _ Hb).
  rewrite loop_from_snoc. simpl.
  rewrite length_firstn, Nat.min_l; [reflexivity|].
  apply Nat.lt_le_incl, nth_error_Some. congruence.
Qed.

(** After the reset phase of iteration [j], the buffer of a period
    [p >= 1] holds the features that entered the latest iteration whose
    index is a multiple of [p]. *)
Lemma buffer_after_reset (blocks : list Blk) st0 (p : Z) :
  (1 <= p)%Z -> In p (dict_keys (fst st0)) ->
  forall j d x d',
    j <= length blocks ->
    entry run plus blocks st0 j = Some (d, x) ->
    reset_phase (Z.of_nat j) x (dict_keys d) d = Some d' ->
    exists d0 x0,
      entry run plus blocks st0 (j - Z.to_nat (Z.of_nat j mod p)) = Some (d0, x0) /\
      dict_get p d' = Some (PTensor x0).
Proof.
  intros Hp Hin. destruct st0 as [d00 x00]. simpl in Hin.
  induction j as [|j IH]; intros d x d' Hj He Hr.
  - destruct (reset_phase_get _ _ _ _ Hr (fun s H => H)) as [_ Hg].
    exists d, x. split; [exact He|].
    rewrite Hg. unfold entry in He. simpl in He. inversion He; subst.
    rewrite (existsb_eqb_In _ _ Hin). rewrite Z.mod_0_l by lia.
    reflexivity.
  - destruct (nth_error blocks j) as [b|] eqn:Hb.
    2:{ apply nth_error_None in Hb. lia. }
    rewrite entry_S with (b := b) in He by exact Hb.
    apply bind_Some in He as ([dj xj] & Hej & Hbody).
    pose proof (loop_body_Some _ _ _ _ Hbody) as [Hrj Hkj].
    assert (Hkeys : In p (dict_keys d)).
    { rewrite Hkj. unfold entry in Hej.
      apply loop_from_keys in Hej. rewrite Hej. exact Hin. }
    destruct (reset_phase_get _ _ _ _ Hr (fun s H => H)) as [_ Hg].
    rewrite Hg, (existsb_eqb_In _ _ Hkeys). cbn [andb].
    destruct (Z.eqb_spec (Z.of_nat (S j) mod p) 0) as [E|N].
    + exists d, x. rewrite E. change (Z.to_nat 0) with 0.
      rewrite Nat.sub_0_r. split; [|reflexivity].
      rewrite entry_S with (b := b) by exact Hb. rewrite Hej. exact Hbody.
    + destruct (IH dj xj d (Nat.lt_le_incl _ _ Hj) Hej Hrj)
        as (d0 & x0 & He0 & Hg0).
      exists d0, x0. split; [|exact Hg0].
      replace (S j - Z.to_nat (Z.of_nat (S j) mod p))
        with (j - Z.to_nat (Z.of_nat j mod p)); [exact He0|].
      assert (Hm : (Z.of_nat (S j) mod p = Z.of_nat j mod p + 1)%Z).
      { pose proof (Z.mod_pos_bound (Z.of_nat j) p ltac:(lia)) as Bj.
        pose proof (Z.mod_pos_bound (Z.of_nat (S j)) p ltac:(lia)) as Bs.
        pose proof (Z.div_mod (Z.of_nat j) p ltac:(lia)) as Dj.
        rewrite Nat2Z.inj_succ in *.
        destruct (Z.eq_dec (Z.of_nat j mod p + 1) p) as [Ep|Np].
        - exfalso. apply N.
          replace (Z.succ (Z.of_nat j)) with (0 + (Z.of_nat j / p + 1) * p)%Z
            by nia.
          rewrite Z.mod_add by lia. apply Z.mod_0_l. lia.
        - symmetry. apply Z.mod_unique with (q := (Z.of_nat j / p)%Z); lia. }
      pose proof (Z.mod_pos_bound (Z.of_nat j) p ltac:(lia)) as Bj.
      pose proof (Z.mod_le (Z.of_nat j) p ltac:(lia) ltac:(lia)) as Lj.
      rewrite Hm. lia.
Qed.

End LoopInvariant.

(** ** The skip policy of [TransformerSR.forward] *)

Section TransformerSRPolicy.
Context {R : Type} {SR : Scalar R} {TR : Transcendental R}.

Lemma sr_entry_keys (m : TransformerSR R) (x0 : Tensor R) (j : nat) d x :
  sr_entry m x0 j = Some (d, x) ->
  dict_keys d = dict_keys (dict_fromkeys (residual_groups m)
                             (PInt 0 : PyVal (Tensor R))).
Proof. unfold sr_entry, entry. apply loop_from_keys. Qed.


(** C9: in [TransformerSR.forward], whenever the buffer of a period
    [p >= 1] is added (after block [i] with [i % p == p - 1]), that buffer
    holds the features that entered iteration [i - (p - 1)] of the same
    run; in particular it is never the int placeholder it was initialised
    with. *)
Theorem TransformerSR_residual_buffer
  (m : TransformerSR R) (x0 : Tensor R) (p : Z) (i : nat) d x d' :
  In p (residual_groups m) -> (1 <= p)%Z ->
  i < length (blocks m) ->
  sr_entry m x0 i = Some (d, x) ->
  reset_phase (Z.of_nat i) x (dict_keys d) d = Some d' ->
  (Z.of_nat i mod p = p - 1)%Z ->
  exists d0 xs,
    sr_entry m x0 (i - Z.to_nat (p - 1)) = Some (d0, xs) /\
    dict_get p d' = Some (PTensor xs) /\
    (forall n, dict_get p d' <> Some (PInt n)).
Proof.
  intros Hin Hp Hi He Hr Hm.
  assert (Hk : In p (dict_keys (fst (dict_fromkeys (residual_groups m)
                                       (PInt 0 : PyVal (Tensor R)), x0)))).
  { simpl. now apply dict_fromkeys_spec. }
  destruct (@buffer_after_reset _ _ pair_forward plus_value (blocks m) _ p
              Hp Hk i d x d' (Nat.lt_le_incl _ _ Hi) He Hr)
    as (d0 & xs & He0 & Hg).
  rewrite Hm in He0. exists d0, xs. split; [exact He0|].
  split; [exact Hg|]. intros n. rewrite Hg. discriminate.
Qed.

End TransformerSRPolicy.

(** ** Shapes of the results of the primitive operations *)

Lemma shape_eqb_refl (s : list nat) : shape_eqb s s = true.
Proof. induction s; simpl; [|rewrite Nat.eqb_refl]; auto. Qed.

Lemma shape_eqb_eq (s1 s2 : list nat) : shape_eqb s1 s2 = true -> s1 = s2.
Proof.
  revert s2; induction s1 as [|a s1 IH]; intros [|b s2]; simpl;
    try discriminate; auto.
  intros H. apply andb_prop in H as [E H]. apply Nat.eqb_eq in E.
  f_equal; auto.
Qed.

Lemma last_app_single (pre : list nat) (a d : nat) : last (pre ++ [a]) d = a.
Proof. apply last_last. Qed.

Lemma removelast_app_single (pre : list nat) (a : nat) :
  removelast (pre ++ [a]) = pre.
Proof. apply removelast_last. Qed.

Section ShapeFacts.
Context {R : Type} {SR : Scalar R}.

Lemma has_shape_tmap (g : R -> R) (t : Tensor R) (s : list nat) :
  has_shape t s -> has_shape (tmap g t) s.
Proof.
  intros [Hs Hwf]. split; [exact Hs|].
  unfold wf, tmap. simpl. now rewrite length_map.
Qed.

Lemma has_shape_tabulate (s : list nat) (f : list nat -> R) :
  has_shape (tabulate s f) s.
Proof. split; [reflexivity | apply wf_tabulate]. Qed.

Lemma zip_with_length (g : R -> R -> R) (l1 l2 : list R) :
  length l1 = length l2 -> length (zip_with g l1 l2) = length l1.
Proof.
  revert l2; induction l1 as [|a l1 IH]; intros [|b l2]; simpl;
    try discriminate; auto.
Qed.

Lemma tensor_add_shape (a b : Tensor R) (s : list nat) :
  has_shape a s -> has_shape b s ->
  exists y, tensor_add a b = Some y /\ has_shape y s.
Proof.
  intros [Sa Wa] [Sb Wb]. unfold tensor_add.
  rewrite Sa, Sb, shape_eqb_refl. eexists. split; [reflexivity|].
  split; [reflexivity|]. unfold wf in *. simpl.
  rewrite zip_with_length; congruence.
Qed.

Lemma reshape_shape (s s' : list nat) (t : Tensor R) :
  has_shape t s -> numel s' = numel s ->
  exists y, reshape s' t = Some y /\ has_shape y s' /\ data y = data t.
Proof.
  intros [Hs Hwf] Hn. rewrite reshape_ok by congruence.
  eexists. split; [reflexivity|]. split; [|reflexivity].
  split; [reflexivity|]. unfold wf in *. simpl. congruence.
Qed.

Lemma permute_shape (p s : list nat) (t : Tensor R) :
  has_shape t s -> is_perm p (length s) = true ->
  exists y, permute p t = Some y /\ has_shape y (gather s p).
Proof.
  intros [Hs _] Hp. rewrite permute_ok by now rewrite Hs.
  eexists. split; [reflexivity|]. rewrite Hs. apply has_shape_tabulate.
Qed.

Lemma transpose_last2_shape (pre : list nat) (a b : nat) (t : Tensor R) :
  has_shape t (pre ++ [a; b]) ->
  exists y, transpose_last2 t = Some y /\ has_shape y (pre ++ [b; a]).
Proof.
  intros [Hs _]. rewrite transpose_last2_ok.
  - eexists. split; [reflexivity|]. rewrite Hs, swap_last2_app.
    apply has_shape_tabulate.
  - rewrite Hs, length_app. simpl. lia.
Qed.

Lemma flatten_last2_shape (pre : list nat) (a b : nat) (t : Tensor R) :
  has_shape t (pre ++ [a; b]) ->
  exists y, flatten_last2 t = Some y /\ has_shape y (pre ++ [a * b]).
Proof.
  intros [Hs Hwf]. unfold flatten_last2. rewrite Hs, merge_last2_app.
  cbn [bind]. eexists. split; [reflexivity|]. split; [reflexivity|].
  unfold wf in *. simpl. rewrite Hwf, Hs, !numel_app. simpl. ring.
Qed.

Lemma spatial_flatten_shape (pre : list nat) (C H W : nat) (x : Tensor R) :
  has_shape x (pre ++ [C; H; W]) ->
  exists y, spatial_flatten x = Some y /\ has_shape y (pre ++ [H * W; C]).
Proof.
  intros Hx.
  destruct (spatial_flatten_ok _ _ _ _ Hx) as (x1 & y & _ & _ & E & _ & S & _).
  exists y. rewrite <- app_assoc in S. auto.
Qed.

Lemma spatial_unflatten_shape (pre : list nat) (C H W : nat) (y : Tensor R) :
  has_shape y (pre ++ [H * W; C]) ->
  exists x, spatial_unflatten y H W = Some x /\
            has_shape x (pre ++ [C; H; W]).
Proof.
  intros Hy. unfold spatial_unflatten.
  destruct (transpose_last2_shape _ _ _ Hy) as (y1 & E1 & S1 & W1).
  rewrite E1. cbn [bind]. unfold unflatten_last.
  change (pre ++ [C; H * W]) with (pre ++ [C] ++ [H * W]) in S1.
  rewrite app_assoc in S1. rewrite S1, split_last_app. cbn [bind].
  eexists. split; [reflexivity|]. split.
  - simpl. now rewrite <- app_assoc.
  - unfold wf in *. simpl. rewrite W1, S1, !numel_app. simpl. ring.
Qed.

Lemma unsqueeze1_shape (b : nat) (s : list nat) (x : Tensor R) :
  has_shape x (b :: s) ->
  exists y, unsqueeze1 x = Some y /\ has_shape y (b :: 1 :: s).
Proof.
  intros [Hs Hwf]. unfold unsqueeze1. rewrite Hs.
  eexists. split; [reflexivity|]. split; [reflexivity|].
  unfold wf in *. simpl. rewrite Hwf, Hs. simpl. lia.
Qed.

Lemma squeeze1_shape (b : nat) (s : list nat) (x : Tensor R) :
  has_shape x (b :: 1 :: s) ->
  exists y, squeeze1 x = Some y /\ has_shape y (b :: s).
Proof.
  intros [Hs Hwf]. unfold squeeze1. rewrite Hs.
  eexists. split; [reflexivity|]. split; [reflexivity|].
  unfold wf in *. simpl. rewrite Hwf, Hs. simpl. lia.
Qed.

Lemma window_partition_shape (x : Tensor R) (B C h v w : nat) :
  has_shape x [B; C; h * w; v * w] -> w <> 0 ->
  exists y, window_partition x w = Some y /\
            has_shape y [B; h * v; C; w; w].
Proof.
  intros Hx Hw.
  edestruct window_partition_ok
    as (x1 & x2 & x3 & y & _ & _ & _ & _ & EP & _ & _ & _ & Sy);
    [exact Hx | exact Hw |].
  eauto.
Qed.

Lemma window_unpartition_shape (x : Tensor R) (B C h v w : nat) :
  has_shape x [B; h * v; C; w; w] -> w <> 0 ->
  exists y, window_unpartition x (h * w) (v * w) = Some y /\
            has_shape y [B; C; h * w; v * w].
Proof.
  intros Hx Hw. unfold window_unpartition. rewrite (proj1 Hx).
  destruct (permute_shape [0; 2; 1; 3; 4] Hx eq_refl) as (x1 & E1 & S1).
  rewrite E1. cbn [bind]. rewrite !(floordiv_ok _ Hw). cbn [bind].
  rewrite !Nat.div_mul by assumption.
  destruct (reshape_shape [B; C; h; v; w; w] S1)
    as (x2 & E2 & S2 & _); [simpl; ring|].
  rewrite E2. cbn [bind].
  destruct (permute_shape [0; 1; 2; 4; 3; 5] S2 eq_refl) as (x3 & E3 & S3).
  rewrite E3. cbn [bind].
  destruct (reshape_shape [B; C; h * w; v * w] S3)
    as (x4 & E4 & S4 & _); [simpl; ring|].
  eauto.
Qed.

End ShapeFacts.

(** ** Shapes of the results of the layers *)

Lemma app_single_nonempty (pre : list nat) (a : nat) :
  exists h t, pre ++ [a] = h :: t.
Proof. destruct pre; simpl; eauto. Qed.

Lemma split_last2_app (pre : list nat) (a b : nat) :
  split_last2 (pre ++ [a; b]) = Some (pre, a, b).
Proof.
  induction pre as [|d pre IH]; [reflexivity|].
  simpl app. simpl split_last2. rewrite IH. cbn [bind].
  destruct pre as [|e pre]; [reflexivity|].
  destruct pre; reflexivity.
Qed.

Section LayerShapes.
Context {R : Type} {SR : Scalar R} {TR : Transcendental R}.

Lemma select0_shape (k d : nat) (s : list nat) (t : Tensor R) :
  has_shape t (d :: s) -> k < d ->
  exists y, select0 k t = Some y /\ has_shape y s /\
            forall idx, in_bounds s idx -> get y idx = get t (k :: idx).
Proof.
  intros [Hs _] Hk. unfold select0. rewrite Hs.
  destruct (Nat.ltb_spec k d); [|lia].
  eexists. split; [reflexivity|]. split; [apply has_shape_tabulate|].
  intros idx Hb. now rewrite get_tabulate.
Qed.

Lemma matmul_shape (pre : list nat) (m n p : nat) (a b : Tensor R) :
  has_shape a (pre ++ [m; n]) -> has_shape b (pre ++ [n; p]) ->
  exists y, matmul a b = Some y /\ has_shape y (pre ++ [m; p]).
Proof.
  intros [Sa _] [Sb _]. unfold matmul.
  rewrite Sa, Sb, !split_last2_app. cbn [bind].
  rewrite shape_eqb_refl, Nat.eqb_refl. cbn [andb].
  eexists. split; [reflexivity|]. apply has_shape_tabulate.
Qed.

Lemma softmax_last_shape (pre : list nat) (n : nat) (t : Tensor R) :
  has_shape t (pre ++ [n]) ->
  exists y, softmax_last t = Some y /\ has_shape y (pre ++ [n]).
Proof.
  intros [Hs _]. unfold softmax_last. rewrite Hs.
  destruct (app_single_nonempty pre n) as (h & tl & E). rewrite E.
  eexists. split; [reflexivity|]. apply has_shape_tabulate.
Qed.

Lemma Linear_forward_shape (l : Linear R) (pre : list nat) (i o : nat)
  (x : Tensor R) :
  Linear_built l i o -> has_shape x (pre ++ [i]) ->
  exists y, Linear_forward l x = Some y /\ has_shape y (pre ++ [o]).
Proof.
  intros (Hi & Ho & _) [Hs _]. unfold Linear_forward. rewrite Hs.
  destruct (app_single_nonempty pre i) as (h & tl & E). rewrite E.
  rewrite <- E, last_app_single, removelast_app_single, Hi, Ho.
  rewrite Nat.eqb_refl.
  eexists. split; [reflexivity|]. apply has_shape_tabulate.
Qed.

Lemma LayerNorm_forward_shape (l : LayerNorm R) (pre : list nat) (d : nat)
  (x : Tensor R) :
  LayerNorm_built l d -> has_shape x (pre ++ [d]) ->
  exists y, LayerNorm_forward l x = Some y /\ has_shape y (pre ++ [d]).
Proof.
  intros (Hd & _) [Hs _]. unfold LayerNorm_forward. rewrite Hs.
  destruct (app_single_nonempty pre d) as (h & tl & E). rewrite E.
  rewrite <- E, last_app_single, Hd, Nat.eqb_refl.
  eexists. split; [reflexivity|]. apply has_shape_tabulate.
Qed.

Lemma Conv2d_forward_shape (c : Conv2d R) (cin cout k s p B H W : nat)
  (x : Tensor R) :
  Conv2d_built c cin cout k s p -> has_shape x [B; cin; H; W] ->
  0 < s -> k <= H + 2 * p -> k <= W + 2 * p ->
  exists y, Conv2d_forward c x = Some y /\
            has_shape y [B; cout; conv_out_size H k s p;
                         conv_out_size W k s p].
Proof.
  intros (Hi & Ho & Hk & Hst & Hp & _) [Hs _] Hs0 HH HW.
  unfold Conv2d_forward. rewrite Hs, Hi, Ho, Hk, Hst, Hp.
  rewrite Nat.eqb_refl.
  destruct (Nat.ltb_spec 0 s); [|lia].
  destruct (Nat.leb_spec k (H + 2 * p)); [|lia].
  destruct (Nat.leb_spec k (W + 2 * p)); [|lia].
  cbn [andb]. eexists. split; [reflexivity|]. apply has_shape_tabulate.
Qed.

(** A 3x3 convolution with padding 1 keeps the spatial size. *)
Lemma conv_out_size_same (n : nat) : 0 < n -> conv_out_size n 3 1 1 = n.
Proof. intros H. unfold conv_out_size. rewrite Nat.div_1_r. lia. Qed.

(** A 2x2 convolution with stride 2 halves an even spatial size. *)
Lemma conv_out_size_half (n : nat) :
  0 < n -> conv_out_size (2 * n) 2 2 0 = n.
Proof.
  intros H. unfold conv_out_size.
  replace (2 * n + 2 * 0 - 2) with ((n - 1) * 2) by lia.
  rewrite Nat.div_mul by lia. lia.
Qed.

Lemma PixelShuffle_forward_shape (r B C H W : nat) (x : Tensor R) :
  0 < r -> has_shape x [B; r ^ 2 * C; H; W] ->
  exists y, PixelShuffle_forward r x = Some y /\
            has_shape y [B; C; H * r; W * r].
Proof.
  intros Hr Hx. unfold PixelShuffle_forward. rewrite (proj1 Hx).
  assert (E : r ^ 2 * C = C * (r * r)) by (simpl; ring).
  assert (Hrr : r * r <> 0) by nia.
  destruct (Nat.eqb_spec r 0); [lia|].
  rewrite E, Nat.Div0.mod_mul, Nat.eqb_refl, Nat.div_mul by assumption.
  cbn [orb negb].
  destruct (reshape_shape [B; C; r; r; H; W] Hx) as (x1 & E1 & S1 & _);
    [simpl; ring|].
  rewrite E1. cbn [bind].
  destruct (permute_shape [0; 1; 4; 2; 5; 3] S1 eq_refl) as (x2 & E2 & S2).
  rewrite E2. cbn [bind].
  destruct (reshape_shape [B; C; H * r; W * r] S2) as (x3 & E3 & S3 & _);
    [simpl; ring|].
  eauto.
Qed.

Lemma AdaptiveAvgPool2d_1_shape (B C H W : nat) (x : Tensor R) :
  has_shape x [B; C; H; W] ->
  exists y, AdaptiveAvgPool2d_1 x = Some y /\ has_shape y [B; C; 1; 1].
Proof.
  intros [Hs _]. unfold AdaptiveAvgPool2d_1. rewrite Hs.
  eexists. split; [reflexivity|]. apply has_shape_tabulate.
Qed.

Lemma Flatten_forward_shape (b d : nat) (s : list nat) (x : Tensor R) :
  has_shape x (b :: d :: s) ->
  exists y, Flatten_forward x = Some y /\ has_shape y [b; numel (d :: s)].
Proof.
  intros [Hs Hwf]. unfold Flatten_forward. rewrite Hs.
  eexists. split; [reflexivity|]. split; [reflexivity|].
  unfold wf in *. cbn [data shape]. rewrite Hwf, Hs. simpl. ring.
Qed.

End LayerShapes.

(** ** Shape of the attention output *)

Section AttentionShapes.
Context {R : Type} {SR : Scalar R} {TR : Transcendental R}.

Lemma attention_scores_shape (tr : bool) (pre : list nat) (L hd : nat)
  (q k : Tensor R) :
  has_shape q (pre ++ [L; hd]) -> has_shape k (pre ++ [L; hd]) ->
  exists s, attention_scores tr L hd q k = Some s /\
            has_shape s (pre ++ (if tr then [hd; hd] else [L; L])).
Proof.
  intros Hq Hk. unfold attention_scores. destruct tr.
  - destruct (transpose_last2_shape _ _ _ Hq) as (qT & E & S).
    rewrite E. cbn [bind].
    apply (matmul_shape pre hd L hd); now apply has_shape_tmap.
  - destruct (transpose_last2_shape _ _ _ Hk) as (kT & E & S).
    rewrite E. cbn [bind].
    apply (matmul_shape pre L hd L); now apply has_shape_tmap.
Qed.

Lemma qkv_heads_shape
  (m : MultiHeadSelfAttention R) (tr : bool) (B N L nh hd : nat)
  (x : Tensor R) :
  MultiHeadSelfAttention_built m (nh * hd) tr nh -> 0 < nh ->
  has_shape x [B; N; L; nh * hd] ->
  exists x1 x2 x3 q k v,
    Linear_forward (qkv m) x = Some x1 /\
    has_shape x1 [B; N; L; nh * hd * 3] /\
    reshape [B; N; L; 3; nh; hd] x1 = Some x2 /\
    permute [3; 0; 1; 4; 2; 5] x2 = Some x3 /\
    has_shape x3 [3; B; N; nh; L; hd] /\
    select0 0 x3 = Some q /\ select0 1 x3 = Some k /\
    select0 2 x3 = Some v /\
    qkv_heads m x = Some (L, hd, (q, k, v)) /\
    has_shape q [B; N; nh; L; hd] /\
    has_shape k [B; N; nh; L; hd] /\
    has_shape v [B; N; nh; L; hd].
Proof.
  intros (Hd & Ht & Hn & Hqkv & Hout) Hnh Hx.
  destruct (Linear_forward_shape [B; N; L] Hqkv Hx) as (x1 & E1 & S1).
  destruct (reshape_shape [B; N; L; 3; nh; hd] S1) as (x2 & E2 & S2 & _);
    [simpl; ring|].
  destruct (permute_shape [3; 0; 1; 4; 2; 5] S2 eq_refl) as (x3 & E3 & S3).
  cbn [gather map nth] in S3.
  destruct (select0_shape (k := 0) S3) as (q & Eq & Sq & _); [lia|].
  destruct (select0_shape (k := 1) S3) as (k & Ek & Sk & _); [lia|].
  destruct (select0_shape (k := 2) S3) as (v & Ev & Sv & _); [lia|].
  exists x1, x2, x3, q, k, v. repeat split; auto;
    try apply S1; try apply S3; try apply Sq; try apply Sk; try apply Sv.
  unfold qkv_heads. rewrite (proj1 Hx), Hn.
  rewrite floordiv_ok by lia. cbn [bind].
  rewrite Nat.mul_comm, Nat.div_mul by lia.
  rewrite E1. cbn [bind]. rewrite E2. cbn [bind]. rewrite E3. cbn [bind].
  rewrite Eq, Ek, Ev. reflexivity.
Qed.

Lemma MultiHeadSelfAttention_forward_shape
  (m : MultiHeadSelfAttention R) (tr : bool) (B N L nh hd : nat)
  (x : Tensor R) :
  MultiHeadSelfAttention_built m (nh * hd) tr nh -> 0 < nh ->
  has_shape x [B; N; L; nh * hd] ->
  exists y, MultiHeadSelfAttention_forward m x = Some y /\
            has_shape y [B; N; L; nh * hd].
Proof.
  intros Hm Hnh Hx.
  destruct (qkv_heads_shape hd Hm Hnh Hx)
    as (x1 & x2 & x3 & q & k & v & _ & _ & _ & _ & _ & _ & _ & _
        & Eh & Sq & Sk & Sv).
  destruct Hm as (Hd & Ht & Hn & Hqkv & Hout).
  unfold MultiHeadSelfAttention_forward. rewrite Eh, Ht. cbn [bind].
  destruct (attention_scores_shape tr [B; N; nh] L hd Sq Sk) as (s & Es & Ss).
  rewrite Es. cbn [bind].
  assert (Hfin : forall o, has_shape o [B; N; L; nh; hd] ->
            exists y, (x <- flatten_last2 o ;; Linear_forward (out m) x)
                      = Some y /\ has_shape y [B; N; L; nh * hd]).
  { intros o So.
    destruct (flatten_last2_shape [B; N; L] nh hd So) as (f & Ef & Sf).
    rewrite Ef. cbn [bind].
    apply (Linear_forward_shape [B; N; L] Hout Sf). }
  destruct tr.
  - destruct (softmax_last_shape [B; N; nh; hd] hd Ss) as (a & Ea & Sa).
    rewrite Ea. cbn [bind].
    destruct (transpose_last2_shape [B; N; nh] L hd Sv) as (vT & EvT & SvT).
    rewrite EvT. cbn [bind].
    destruct (matmul_shape [B; N; nh] hd hd L Sa SvT) as (o & Eo & So).
    rewrite Eo. cbn [bind].
    destruct (permute_shape [0; 1; 4; 2; 3] So eq_refl) as (o' & Eo' & So').
    rewrite Eo'. cbn [bind]. apply Hfin, So'.
  - destruct (softmax_last_shape [B; N; nh; L] L Ss) as (a & Ea & Sa).
    rewrite Ea. cbn [bind].
    destruct (matmul_shape [B; N; nh] L L hd Sa Sv) as (o & Eo & So).
    rewrite Eo. cbn [bind].
    destruct (permute_shape [0; 1; 3; 2; 4] So eq_refl) as (o' & Eo' & So').
    rewrite Eo'. cbn [bind]. apply Hfin, So'.
Qed.

End AttentionShapes.

(** ** The attention block *)

Section BlockShapes.
Context {R : Type} {SR : Scalar R} {TR : Transcendental R}.

(** The two residual sub-layers keep the shape of the sequence; the hidden
    layer of the MLP is four times as wide as the channel axis. *)
Lemma block_core_ok (b : AttentionBlock R) (tr : bool)
  (ws nh hd B N L : nat) (x : Tensor R) :
  AttentionBlock_built b (nh * hd) tr ws nh -> 0 < nh ->
  has_shape x [B; N; L; nh * hd] ->
  exists n1 a s1 n2 h f s2,
    LayerNorm_forward (norm1 b) x = Some n1 /\
    MultiHeadSelfAttention_forward (window_attention b) n1 = Some a /\
    tensor_add x a = Some s1 /\
    LayerNorm_forward (norm2 b) s1 = Some n2 /\
    Linear_forward (mlp_fc1 b) n2 = Some h /\
    has_shape h [B; N; L; nh * hd * 4] /\
    Linear_forward (mlp_fc2 b) (gelu h) = Some f /\
    tensor_add s1 f = Some s2 /\
    block_core b x = Some s2 /\
    has_shape s2 [B; N; L; nh * hd].
Proof.
  intros (_ & _ & Hatt & Hfc1 & Hfc2 & Hn1 & Hn2) Hnh Hx.
  destruct (LayerNorm_forward_shape [B; N; L] Hn1 Hx) as (n1 & E1 & S1).
  destruct (MultiHeadSelfAttention_forward_shape hd Hatt Hnh S1)
    as (a & E2 & S2).
  destruct (tensor_add_shape Hx S2) as (s1 & E3 & S3).
  destruct (LayerNorm_forward_shape [B; N; L] Hn2 S3) as (n2 & E4 & S4).
  destruct (Linear_forward_shape [B; N; L] Hfc1 S4) as (h & E5 & S5).
  pose proof (has_shape_tmap gelu_fn S5) as S5'.
  destruct (Linear_forward_shape [B; N; L] Hfc2 S5') as (f & E6 & S6).
  destruct (tensor_add_shape S3 S6) as (s2 & E7 & S7).
  exists n1, a, s1, n2, h, f, s2. repeat split; auto; try apply S5;
    try apply S7.
  unfold block_core, mlp_forward.
  rewrite E1. cbn [bind]. rewrite E2. cbn [bind]. rewrite E3. cbn [bind].
  rewrite E4. cbn [bind]. rewrite E5. cbn [bind].
  change (tmap gelu_fn h) with (gelu h) in E6.
  rewrite E6. cbn [bind]. exact E7.
Qed.

(** The transposed block: the whole map is one window. *)
Lemma AttentionBlock_forward_transposed (b : AttentionBlock R)
  (ws nh hd B H W : nat) (x : Tensor R) :
  AttentionBlock_built b (nh * hd) true ws nh -> 0 < nh ->
  has_shape x [B; nh * hd; H; W] ->
  exists win seq s2 u y,
    unsqueeze1 x = Some win /\ has_shape win [B; 1; nh * hd; H; W] /\
    spatial_flatten win = Some seq /\
    has_shape seq [B; 1; H * W; nh * hd] /\
    block_core b seq = Some s2 /\
    spatial_unflatten s2 H W = Some u /\
    squeeze1 u = Some y /\
    AttentionBlock_forward b x = Some y /\
    has_shape y [B; nh * hd; H; W].
Proof.
  intros Hb Hnh Hx.
  destruct (unsqueeze1_shape Hx) as (win & E1 & S1).
  destruct (spatial_flatten_shape [B; 1] _ _ _ S1) as (seq & E2 & S2).
  destruct (block_core_ok hd Hb Hnh S2)
    as (n1 & a & s1 & n2 & h & f & s2 & _ & _ & _ & _ & _ & _ & _ & _ & E3 & S3).
  destruct (spatial_unflatten_shape [B; 1] _ _ _ S3) as (u & E4 & S4).
  destruct (squeeze1_shape S4) as (y & E5 & S5).
  exists win, seq, s2, u, y. repeat split; auto;
    try apply S1; try apply S2; try apply S5.
  unfold AttentionBlock_forward. rewrite (proj1 Hx).
  destruct Hb as (_ & -> & _).
  rewrite E1. cbn [bind]. rewrite E2. cbn [bind]. rewrite E3. cbn [bind].
  rewrite E4. cbn [bind]. exact E5.
Qed.

(** The windowed block, on a map whose sides are multiples of the window
    size. *)
Lemma AttentionBlock_forward_windowed (b : AttentionBlock R)
  (ws nh hd B h v : nat) (x : Tensor R) :
  AttentionBlock_built b (nh * hd) false ws nh -> 0 < nh -> ws <> 0 ->
  has_shape x [B; nh * hd; h * ws; v * ws] ->
  exists win seq s2 u y,
    window_partition x ws = Some win /\
    has_shape win [B; h * v; nh * hd; ws; ws] /\
    spatial_flatten win = Some seq /\
    has_shape seq [B; h * v; ws * ws; nh * hd] /\
    block_core b seq = Some s2 /\
    spatial_unflatten s2 ws ws = Some u /\
    window_unpartition u (h * ws) (v * ws) = Some y /\
    AttentionBlock_forward b x = Some y /\
    has_shape y [B; nh * hd; h * ws; v * ws].
Proof.
  intros Hb Hnh Hws Hx.
  destruct (window_partition_shape h v Hx Hws) as (win & E1 & S1).
  destruct (spatial_flatten_shape [B; h * v] _ _ _ S1) as (seq & E2 & S2).
  destruct (block_core_ok hd Hb Hnh S2)
    as (n1 & a & s1 & n2 & hh & f & s2 & _ & _ & _ & _ & _ & _ & _ & _ & E3 & S3).
  destruct (spatial_unflatten_shape [B; h * v] _ _ _ S3) as (u & E4 & S4).
  destruct (window_unpartition_shape h v S4 Hws) as (y & E5 & S5).
  exists win, seq, s2, u, y. repeat split; auto;
    try apply S1; try apply S2; try apply S5.
  unfold AttentionBlock_forward. rewrite (proj1 Hx).
  destruct Hb as (-> & -> & _).
  rewrite E1. cbn [bind]. rewrite E2. cbn [bind]. rewrite E3. cbn [bind].
  rewrite E4. cbn [bind]. exact E5.
Qed.

End BlockShapes.

(** ** The loop preserves what its blocks preserve *)

Lemma dict_get_in (V : Type) (p : Z) (d : dict V) :
  In p (dict_keys d) -> exists v, dict_get p d = Some v.
Proof.
  induction d as [|[k v] d IH]; simpl; [tauto|].
  intros [E|H]; destruct (Z.eqb_spec k p); eauto; congruence.
Qed.

Lemma dict_fromkeys_good (T : Type) (P : T -> Prop) (ks : list Z) (n : Z) :
  dict_good P (dict_fromkeys ks (PInt n)).
Proof.
  unfold dict_fromkeys.
  assert (G : forall ks (d : dict (PyVal T)),
             dict_good P d ->
             dict_good P (fold_left (fun d k => dict_set k (PInt n) d) ks d)).
  { clear ks. induction ks as [|k ks IH]; simpl; intros d Hd; [exact Hd|].
    apply IH. intros p v. rewrite dict_get_set.
    destruct (k =? p)%Z; [intros [= <-]; exact I | apply Hd]. }
  apply G. intros p v. discriminate.
Qed.

Section LoopPreservation.
Variables (T Blk : Type).
Variable run : Blk -> T -> option T.
Variable plus : T -> PyVal T -> option T.
Variable P : T -> Prop.
Hypothesis plus_ok :
  forall x v, P x -> good_val P v -> exists y, plus x v = Some y /\ P y.

Lemma close_phase_preserves (i : Z) (d : dict (PyVal T)) (steps : list Z) :
  Forall (fun p => p <> 0%Z) steps ->
  (forall s, In s steps -> In s (dict_keys d)) ->
  dict_good P d ->
  forall x, P x -> exists y, close_phase plus i steps d x = Some y /\ P y.
Proof.
  intros Hnz. induction Hnz as [|s steps Hs _ IH]; intros Hin Hd x Hx;
    simpl; [eauto|].
  rewrite (py_mod_ok _ Hs). cbn [bind].
  assert (Hin' : forall s', In s' steps -> In s' (dict_keys d))
    by (intros; apply Hin; now right).
  destruct (i mod s =? s - 1)%Z; [|now apply IH].
  destruct (dict_get_in s d (Hin s (or_introl eq_refl))) as [v Hv].
  rewrite Hv. cbn [bind].
  destruct (plus_ok v Hx (Hd _ _ Hv)) as (y & Ey & Py).
  rewrite Ey. cbn [bind]. now apply IH.
Qed.

Lemma loop_from_preserves (blocks : list Blk) :
  Forall (fun b => forall x, P x -> exists y, run b x = Some y /\ P y)
    blocks ->
  forall i d x,
    Forall (fun p => p <> 0%Z) (dict_keys d) ->
    dict_good P d -> P x ->
    exists d' y, loop_from run plus i blocks (d, x) = Some (d', y) /\ P y.
Proof.
  induction 1 as [|b blocks Hb _ IH]; intros i d x Hnz Hd Hx; simpl;
    [eauto|].
  destruct (reset_phase_total (Z.of_nat i) x Hnz d) as [d' Hr].
  destruct (reset_phase_get _ _ _ _ Hr (fun s H => H)) as [Hk Hg].
  assert (Hd' : dict_good P d').
  { intros p v. rewrite Hg.
    destruct (existsb (Z.eqb p) (dict_keys d) && (Z.of_nat i mod p =? 0)%Z).
    - intros [= <-]. exact Hx.
    - apply Hd. }
  destruct (Hb x Hx) as (y & Ey & Py).
  destruct (close_phase_preserves (Z.of_nat i) (d := d') (steps := dict_keys d'))
    with (x := y) as (z & Ez & Pz); auto.
  { now rewrite Hk. }
  unfold loop_body. rewrite Hr. cbn [bind]. rewrite Ey. cbn [bind].
  rewrite Ez. cbn [bind]. apply IH; auto. now rewrite Hk.
Qed.

Lemma residual_loop_preserves (groups : list Z) (blocks : list Blk) (x : T) :
  Forall (fun b => forall x, P x -> exists y, run b x = Some y /\ P y)
    blocks ->
  Forall (fun p => p <> 0%Z) groups ->
  P x ->
  exists y, residual_loop run plus groups blocks x = Some y /\ P y.
Proof.
  intros Hb Hnz Hx. unfold residual_loop.
  destruct (dict_fromkeys_spec groups (PInt 0 : PyVal T)) as [_ Hin].
  destruct (loop_from_preserves Hb 0
              (d := dict_fromkeys groups (PInt 0)) (x := x))
    as (d' & y & E & Py); auto.
  - rewrite Forall_forall in *. intros p Hp. apply Hnz, Hin, Hp.
  - apply dict_fromkeys_good.
  - rewrite E. cbn [bind]. eauto.
Qed.

End LoopPreservation.

(** ** Element-wise reading of reshapes and maps *)

Section GetFacts.
Context {R : Type} {SR : Scalar R}.

(** A reshape keeps every element at its row-major offset. *)
Lemma get_reshape (s' : list nat) (t y : Tensor R) (idx idx' : list nat) :
  reshape s' t = Some y ->
  ravel s' idx' = ravel (shape t) idx ->
  get y idx' = get t idx.
Proof.
  unfold reshape. destruct (numel s' =? numel (shape t)); [|discriminate].
  intros [= <-] H. unfold get. simpl. now rewrite H.
Qed.

Lemma get_tmap (g : R -> R) (t : Tensor R) (idx : list nat) :
  wf t -> in_bounds (shape t) idx -> get (tmap g t) idx = g (get t idx).
Proof.
  intros Hwf Hb. unfold get, tmap. simpl.
  pose proof (ravel_lt _ _ Hb) as Hlt. rewrite <- Hwf in Hlt.
  rewrite (nth_indep _ zero (g zero)) by now rewrite length_map.
  apply map_nth.
Qed.

(** Pixel shuffle sends channel [c * r^2 + i * r + j] at position
    [(h, w)] to channel [c] at position [(h * r + i, w * r + j)]. *)
Lemma PixelShuffle_forward_get (r B C H W : nat) (x y : Tensor R)
  (b c h w i j : nat) :
  has_shape x [B; r ^ 2 * C; H; W] ->
  PixelShuffle_forward r x = Some y ->
  b < B -> c < C -> h < H -> w < W -> i < r -> j < r ->
  get y [b; c; h * r + i; w * r + j]
  = get x [b; c * (r * r) + i * r + j; h; w].
Proof.
  intros Hx Hy Hb Hc Hh Hw Hi Hj.
  assert (Hr : r <> 0) by lia.
  assert (Hrr : r * r <> 0) by nia.
  assert (E : r ^ 2 * C = C * (r * r)) by (simpl; ring).
  unfold PixelShuffle_forward in Hy. rewrite (proj1 Hx) in Hy.
  destruct (Nat.eqb_spec r 0); [lia|].
  rewrite E, Nat.Div0.mod_mul, Nat.eqb_refl, Nat.div_mul in Hy
    by assumption.
  cbn [orb negb] in Hy.
  apply bind_Some in Hy as (x1 & E1 & Hy).
  apply bind_Some in Hy as (x2 & E2 & E3).
  destruct (reshape_shape [B; C; r; r; H; W] Hx) as (x1' & E1' & S1 & _);
    [simpl; ring|].
  rewrite E1 in E1'. inversion E1'; subst x1'. clear E1'.
  destruct (permute_shape [0; 1; 4; 2; 5; 3] S1 eq_refl) as (x2' & E2' & S2).
  rewrite E2 in E2'. inversion E2'; subst x2'. clear E2'.
  cbn [gather map nth] in S2.
  rewrite (@get_reshape _ _ _ [b; c; h; i; w; j] _ E3).
  2:{ rewrite (proj1 S2). simpl. ring. }
  rewrite (@get_permute _ _ _ _ _ [b; c; h; i; w; j] E2).
  2:{ rewrite (proj1 S2). simpl. repeat split; assumption. }
  cbn [gather map nth inv_perm length seq index_of Nat.eqb].
  apply (@get_reshape _ _ _ _ _ E1).
  rewrite (proj1 Hx). simpl. ring.
Qed.

End GetFacts.

(** ** The networks *)

Section Networks.
Context {R : Type} {SR : Scalar R} {TR : Transcendental R}.

(** C10: a transposed block never partitions its input and never reads
    [window_size]: two transposed blocks with the same sub-layers return the
    same result on every input, and the forward pass succeeds on every
    (B, C, H, W) input whatever the window size. *)
Theorem AttentionBlock_transposed_ignores_window_size :
  (forall (b1 b2 : AttentionBlock R) (x : Tensor R),
     ab_transposed b1 = true -> ab_transposed b2 = true ->
     window_attention b1 = window_attention b2 ->
     mlp_fc1 b1 = mlp_fc1 b2 -> mlp_fc2 b1 = mlp_fc2 b2 ->
     norm1 b1 = norm1 b2 -> norm2 b1 = norm2 b2 ->
     AttentionBlock_forward b1 x = AttentionBlock_forward b2 x) /\
  (forall (b : AttentionBlock R) (ws nh hd B H W : nat) (x : Tensor R),
     AttentionBlock_built b (nh * hd) true ws nh -> 0 < nh ->
     has_shape x [B; nh * hd; H; W] ->
     exists y,
       AttentionBlock_forward b x = Some y /\
       has_shape y [B; nh * hd; H; W] /\
       AttentionBlock_forward b x =
       (win <- unsqueeze1 x ;;
        seq <- spatial_flatten win ;;
        s2 <- block_core b seq ;;
        u <- spatial_unflatten s2 H W ;;
        squeeze1 u)).
Proof.
  split.
  - intros b1 b2 x T1 T2 Ha H1 H2 N1 N2.
    unfold AttentionBlock_forward, block_core, mlp_forward.
    now rewrite T1, T2, Ha, H1, H2, N1, N2.
  - intros b ws nh hd B H W x Hb Hnh Hx.
    destruct (AttentionBlock_forward_transposed hd Hb Hnh Hx)
      as (win & seq & s2 & u & y & E1 & S1 & E2 & S2 & E3 & E4 & E5 & E6 & S6).
    exists y. split; [exact E6|]. split; [exact S6|].
    rewrite E6, E1. cbn [bind]. rewrite E2. cbn [bind].
    rewrite E3. cbn [bind]. rewrite E4. cbn [bind]. now rewrite E5.
Qed.

Lemma pair_forward_shape (p : AttentionBlock R * AttentionBlock R)
  (ws nh hd B h v : nat) (x : Tensor R) :
  AttentionBlock_built (fst p) (nh * hd) false ws nh ->
  AttentionBlock_built (snd p) (nh * hd) true ws nh ->
  0 < nh -> ws <> 0 ->
  has_shape x [B; nh * hd; h * ws; v * ws] ->
  exists y, pair_forward p x = Some y /\
            has_shape y [B; nh * hd; h * ws; v * ws].
Proof.
  intros H1 H2 Hnh Hws Hx. unfold pair_forward.
  destruct (AttentionBlock_forward_windowed hd h v H1 Hnh Hws Hx)
    as (_ & _ & _ & _ & y & _ & _ & _ & _ & _ & _ & _ & E & S).
  rewrite E. cbn [bind].
  destruct (AttentionBlock_forward_transposed hd H2 Hnh S)
    as (_ & _ & _ & _ & z & _ & _ & _ & _ & _ & _ & _ & E' & S').
  eauto.
Qed.

Lemma plus_value_shape (s : list nat) (x : Tensor R) (v : PyVal (Tensor R)) :
  has_shape x s -> good_val (fun t => has_shape t s) v ->
  exists y, plus_value x v = Some y /\ has_shape y s.
Proof.
  intros Hx Hv. destruct v as [n|t]; simpl.
  - eexists. split; [reflexivity|]. now apply has_shape_tmap.
  - now apply tensor_add_shape.
Qed.

End Networks.

(** ** The classifier *)

Lemma append_pairs_spec (n i : nat) (dims : list nat) (ws nh : nat) :
  i < length dims ->
  forall acc,
    append_pairs n i dims ws nh acc =
    Some (acc ++ concat (repeat
            [SAttentionBlock (nth i dims 0) false ws nh;
             SAttentionBlock (nth i dims 0) true ws nh] n)).
Proof.
  intros Hi. induction n as [|n IH]; intros acc; simpl.
  - now rewrite app_nil_r.
  - rewrite (nth_error_nth' dims 0 Hi). cbn [bind].
    rewrite IH, <- app_assoc. reflexivity.
Qed.

Lemma init_stages_spec (dims : list nat) (ws nh : nat) (groups : list nat) :
  forall i acc,
    i + length groups <= length dims ->
    init_stages i groups dims ws nh acc =
    Some (acc ++ concat (map (fun ig => stage_specs dims ws nh
                                          (fst ig) (snd ig))
                           (combine (seq i (length groups)) groups))).
Proof.
  induction groups as [|g groups IH]; intros i acc Hlen; simpl.
  - now rewrite app_nil_r.
  - simpl in Hlen. unfold stage_specs at 1. simpl fst. simpl snd.
    destruct (Nat.ltb_spec 0 i) as [Hpos|Hz].
    + rewrite (nth_error_nth' dims 0 (n := i - 1)) by lia.
      rewrite (nth_error_nth' dims 0 (n := i)) by lia.
      cbn [bind].
      rewrite append_pairs_spec by lia. cbn [bind].
      rewrite IH by lia. now rewrite <- !app_assoc.
    + cbn [bind]. rewrite append_pairs_spec by lia. cbn [bind].
      rewrite IH by lia. now rewrite <- !app_assoc.
Qed.

Lemma nth_pred_length_last (l : list nat) (d : nat) :
  nth (length l - 1) l d = last l d.
Proof.
  induction l as [|a l IH]; [reflexivity|].
  destruct l as [|b l]; [reflexivity|].
  change (last (a :: b :: l) d) with (last (b :: l) d).
  rewrite <- IH. simpl. now rewrite Nat.sub_0_r.
Qed.

Lemma Classifier_init_layout (groups dims : list nat)
  (ws nh nc cin : nat) :
  0 < length dims -> length groups <= length dims ->
  Classifier_init groups dims ws nh nc cin
  = Some (Classifier_layout groups dims ws nh nc cin).
Proof.
  intros Hd Hg. unfold Classifier_init, Classifier_layout.
  rewrite (nth_error_nth' dims 0 (n := 0)) by lia. cbn [bind].
  rewrite init_stages_spec by lia. cbn [bind].
  rewrite (nth_error_nth' dims 0 (n := length dims - 1)) by lia.
  cbn [bind]. f_equal. rewrite <- app_assoc. simpl. repeat f_equal.
  apply nth_pred_length_last.
Qed.

Section ClassifierFacts.
Context {R : Type} {SR : Scalar R} {TR : Transcendental R}.

Lemma stride2_conv_shape (c : Conv2d R) (cin cout B n : nat) (x : Tensor R) :
  Conv2d_built c cin cout 2 2 0 -> 0 < n ->
  has_shape x [B; cin; 2 * n; 2 * n] ->
  exists y, Conv2d_forward c x = Some y /\ has_shape y [B; cout; n; n].
Proof.
  intros Hc Hn Hx.
  destruct (Conv2d_forward_shape Hc Hx) as (y & E & S); try lia.
  rewrite !conv_out_size_half in S by assumption. eauto.
Qed.

Lemma same_conv_shape (c : Conv2d R) (cin cout B H W : nat) (x : Tensor R) :
  Conv2d_built c cin cout 3 1 1 -> 0 < H -> 0 < W ->
  has_shape x [B; cin; H; W] ->
  exists y, Conv2d_forward c x = Some y /\ has_shape y [B; cout; H; W].
Proof.
  intros Hc HH HW Hx.
  destruct (Conv2d_forward_shape Hc Hx) as (y & E & S); try lia.
  rewrite !conv_out_size_same in S by assumption. eauto.
Qed.

End ClassifierFacts.

(** ** Element-wise reading of the layers *)

Lemma set_last_app (pre : list nat) (a j : nat) :
  set_last (pre ++ [a]) j = pre ++ [j].
Proof.
  induction pre as [|d pre IH]; [reflexivity|].
  simpl app. simpl set_last. rewrite IH.
  destruct pre; reflexivity.
Qed.

Section LayerGets.
Context {R : Type} {SR : Scalar R} {TR : Transcendental R}.

Lemma sum_n_ext (n : nat) (f g : nat -> R) :
  (forall k, k < n -> f k = g k) -> sum_n n f = sum_n n g.
Proof.
  intros H. unfold sum_n.
  assert (G : forall l, (forall k, In k l -> f k = g k) ->
              fold_right (fun k acc => add (f k) acc) zero l
              = fold_right (fun k acc => add (g k) acc) zero l).
  { induction l as [|a l IH]; simpl; intros Hl; [reflexivity|].
    rewrite Hl by now left. rewrite IH; [reflexivity|].
    intros k Hk. apply Hl. now right. }
  apply G. intros k Hk. apply in_seq in Hk. apply H. lia.
Qed.

Lemma get_transpose_last2 (t y : Tensor R) (pre bi : list nat)
  (a b i j : nat) :
  shape t = pre ++ [a; b] ->
  transpose_last2 t = Some y ->
  in_bounds pre bi -> i < a -> j < b ->
  get y (bi ++ [j; i]) = get t (bi ++ [i; j]).
Proof.
  intros Hs Hy Hb Hi Hj. rewrite transpose_last2_ok in Hy.
  2:{ rewrite Hs, length_app. simpl. lia. }
  inversion Hy; subst y; clear Hy.
  rewrite get_tabulate.
  - now rewrite swap_last2_app.
  - rewrite Hs, swap_last2_app. apply in_bounds_app; [assumption|].
    simpl. auto.
Qed.

Lemma get_matmul (a b y : Tensor R) (pre bi : list nat) (m n p i j : nat) :
  shape a = pre ++ [m; n] -> shape b = pre ++ [n; p] ->
  matmul a b = Some y ->
  in_bounds pre bi -> i < m -> j < p ->
  get y (bi ++ [i; j])
  = sum_n n (fun k => mul (get a (bi ++ [i; k])) (get b (bi ++ [k; j]))).
Proof.
  intros Sa Sb Hy Hb Hi Hj. unfold matmul in Hy.
  rewrite Sa, Sb, !split_last2_app in Hy. cbn [bind] in Hy.
  rewrite shape_eqb_refl, Nat.eqb_refl in Hy. cbn [andb] in Hy.
  inversion Hy; subst y; clear Hy.
  rewrite get_tabulate.
  - now rewrite split_last2_app.
  - apply in_bounds_app; [assumption|]. simpl. auto.
Qed.

Lemma softmax_last_ok (t : Tensor R) :
  shape t <> [] ->
  softmax_last t =
  Some (tabulate (shape t)
          (fun idx =>
             div (exp (get t idx))
                 (sum_n (last (shape t) 0)
                    (fun j => exp (get t (set_last idx j)))))).
Proof.
  intros H. unfold softmax_last.
  destruct (shape t) eqn:E; [congruence | reflexivity].
Qed.

Lemma get_softmax_last (t y : Tensor R) (pre bi : list nat) (n j : nat) :
  shape t = pre ++ [n] ->
  softmax_last t = Some y ->
  in_bounds pre bi -> j < n ->
  get y (bi ++ [j])
  = div (exp (get t (bi ++ [j])))
        (sum_n n (fun j' => exp (get t (bi ++ [j'])))).
Proof.
  intros Hs Hy Hb Hj. rewrite softmax_last_ok in Hy.
  2:{ rewrite Hs. destruct pre; discriminate. }
  inversion Hy; subst y; clear Hy.
  rewrite get_tabulate.
  - rewrite Hs, last_app_single. f_equal. apply sum_n_ext. intros k _.
    now rewrite set_last_app.
  - rewrite Hs. apply in_bounds_app; [assumption|]. simpl. auto.
Qed.

Lemma Linear_forward_ok (l : Linear R) (x : Tensor R) :
  shape x <> [] -> last (shape x) 0 = in_features l ->
  Linear_forward l x =
  Some (tabulate (removelast (shape x) ++ [out_features l])
          (fun idx =>
             let o := last idx 0 in
             add (sum_n (in_features l)
                    (fun i => mul (get x (set_last idx i))
                                  (get (weight l) [o; i])))
                 (get (bias l) [o]))).
Proof.
  intros H E. unfold Linear_forward. rewrite E, Nat.eqb_refl.
  destruct (shape x); [congruence | reflexivity].
Qed.

Lemma get_Linear_forward (l : Linear R) (x y : Tensor R) (pre bi : list nat)
  (o : nat) :
  shape x = pre ++ [in_features l] ->
  Linear_forward l x = Some y ->
  in_bounds pre bi -> o < out_features l ->
  get y (bi ++ [o])
  = add (sum_n (in_features l)
           (fun i => mul (get x (bi ++ [i])) (get (weight l) [o; i])))
        (get (bias l) [o]).
Proof.
  intros Hs Hy Hb Ho. rewrite Linear_forward_ok in Hy.
  2:{ rewrite Hs. destruct pre; discriminate. }
  2:{ rewrite Hs. apply last_app_single. }
  inversion Hy; subst y; clear Hy.
  rewrite get_tabulate.
  - cbv zeta. rewrite last_app_single. f_equal. apply sum_n_ext.
    intros k _. now rewrite set_last_app.
  - rewrite Hs, removelast_app_single.
    apply in_bounds_app; [assumption|]. simpl. auto.
Qed.

Lemma get_div_scalar (t : Tensor R) (c : nat) (idx : list nat) :
  wf t -> in_bounds (shape t) idx ->
  get (div_scalar t c) idx = div (get t idx) (of_int (Z.of_nat c)).
Proof. intros. unfold div_scalar. now rewrite get_tmap. Qed.

End LayerGets.

(** ** Attention, element by element *)

(** Breaks an in-bounds index of a shape of known rank into its entries. *)
Ltac split_index idx Hb :=
  cbn [app] in Hb;
  do 8 (try (destruct idx as [|? idx]; cbn [in_bounds] in Hb;
             try (exfalso; tauto)));
  repeat match type of Hb with
         | _ /\ _ => let H := fresh "Hi" in destruct Hb as [H Hb]
         end.

(** Closes an [in_bounds] goal on explicit lists. *)
Ltac bounds := simpl; repeat split; (assumption || lia).

Section AttentionFacts.
Context {R : Type} {SR : Scalar R} {TR : Transcendental R}.

(** The three slices of the fused projection hold the reference query,
    key and value entries. *)
Lemma qkv_heads_get
  (m : MultiHeadSelfAttention R) (tr : bool) (B N L nh hd : nat)
  (x : Tensor R) :
  MultiHeadSelfAttention_built m (nh * hd) tr nh -> 0 < nh ->
  has_shape x [B; N; L; nh * hd] ->
  exists q k v,
    qkv_heads m x = Some (L, hd, (q, k, v)) /\
    has_shape q [B; N; nh; L; hd] /\
    has_shape k [B; N; nh; L; hd] /\
    has_shape v [B; N; nh; L; hd] /\
    forall b n h l d,
      b < B -> n < N -> h < nh -> l < L -> d < hd ->
      get q [b; n; h; l; d] = head_entry m x hd 0 b n h l d /\
      get k [b; n; h; l; d] = head_entry m x hd 1 b n h l d /\
      get v [b; n; h; l; d] = head_entry m x hd 2 b n h l d.
Proof.
  intros Hm Hnh Hx.
  destruct (qkv_heads_shape hd Hm Hnh Hx)
    as (x1 & x2 & x3 & q & k & v & E1 & S1 & E2 & E3 & S3 & Eq & Ek & Ev
        & Eh & Sq & Sk & Sv).
  destruct Hm as (Hd & Ht & Hn & (Hqi & Hqo & _) & _).
  assert (slice : forall w t b n h l d,
            w < 3 -> select0 w x3 = Some t ->
            b < B -> n < N -> h < nh -> l < L -> d < hd ->
            get t [b; n; h; l; d] = head_entry m x hd w b n h l d).
  { intros w t b n h l d Hw Et Hb Hn' Hh Hl Hd'.
    destruct (select0_shape (k := w) S3 Hw) as (t' & Et' & _ & Hget).
    rewrite Et in Et'. inversion Et'; subst t'; clear Et'.
    rewrite Hget by bounds.
    rewrite (@get_permute _ _ _ _ _ [w; b; n; h; l; d] E3)
      by (rewrite (proj1 S3); bounds).
    cbn [gather map nth inv_perm length seq index_of Nat.eqb].
    rewrite (@get_reshape _ _ _ _ _ [b; n; l; (w * nh + h) * hd + d]
               [b; n; l; w; h; d] E2)
      by (rewrite (proj1 S1); simpl; ring).
    unfold head_entry, qkv_proj. rewrite Hn.
    apply (@get_Linear_forward _ _ (qkv m) x x1 [B; N; L] [b; n; l]).
    - rewrite Hqi. exact (proj1 Hx).
    - exact E1.
    - bounds.
    - rewrite Hqo. nia. }
  exists q, k, v. split; [exact Eh|]. split; [exact Sq|].
  split; [exact Sk|]. split; [exact Sv|].
  intros b n h l d Hb Hn' Hh Hl Hd'.
  repeat split; apply slice; auto.
Qed.

(** The scores of the standard branch, from the entries of [q] and [k]. *)
Lemma attention_scores_std (B N nh L hd : nat) (q k : Tensor R)
  (Qf Kf : nat -> nat -> nat -> nat -> nat -> R) :
  has_shape q [B; N; nh; L; hd] -> has_shape k [B; N; nh; L; hd] ->
  (forall b n h l d, b < B -> n < N -> h < nh -> l < L -> d < hd ->
     get q [b; n; h; l; d] = Qf b n h l d /\
     get k [b; n; h; l; d] = Kf b n h l d) ->
  attention_scores false L hd q k =
  Some (scores_tensor
          (fun b n h i j =>
             sum_n hd (fun d =>
               mul (div (Qf b n h i d) (of_int (Z.of_nat hd)))
                   (div (Kf b n h j d) (of_int (Z.of_nat hd)))))
          B N nh L).
Proof.
  intros Sq Sk Hqk. unfold attention_scores.
  destruct (transpose_last2_shape [B; N; nh] L hd Sk) as (kT & Et & St).
  rewrite Et. cbn [bind].
  pose proof (has_shape_tmap (fun v => div v (of_int (Z.of_nat hd))) Sq)
    as Sq'.
  pose proof (has_shape_tmap (fun v => div v (of_int (Z.of_nat hd))) St)
    as St'.
  destruct (matmul_shape [B; N; nh] L hd L Sq' St') as (s & Es & Ss).
  unfold div_scalar. rewrite Es. f_equal.
  apply tensor_ext.
  - rewrite (proj1 Ss). reflexivity.
  - apply Ss.
  - apply wf_tabulate.
  - rewrite (proj1 Ss). intros idx Hb. split_index idx Hb.
    unfold scores_tensor. rewrite get_tabulate by bounds.
    change (get s [n; n0; n1; n2; n3])
      with (get s ([n; n0; n1] ++ [n2; n3])).
    rewrite (@get_matmul _ _ _ _ _ [B; N; nh] [n; n0; n1] L hd L n2 n3
               (proj1 Sq') (proj1 St') Es) by bounds.
    apply sum_n_ext. intros d Hd.
    rewrite !get_tmap;
      try apply Sq; try apply St;
      try (rewrite (proj1 Sq); bounds); try (rewrite (proj1 St); bounds).
    rewrite (@get_transpose_last2 _ _ k kT [B; N; nh] [n; n0; n1] L hd n3 d
               (proj1 Sk) Et) by bounds.
    cbn [app].
    destruct (Hqk n n0 n1 n2 d) as [-> _]; try assumption.
    destruct (Hqk n n0 n1 n3 d) as [_ ->]; try assumption.
    reflexivity.
Qed.

(** The scores of the transposed branch. *)
Lemma attention_scores_T (B N nh L hd : nat) (q k : Tensor R)
  (Qf Kf : nat -> nat -> nat -> nat -> nat -> R) :
  has_shape q [B; N; nh; L; hd] -> has_shape k [B; N; nh; L; hd] ->
  (forall b n h l d, b < B -> n < N -> h < nh -> l < L -> d < hd ->
     get q [b; n; h; l; d] = Qf b n h l d /\
     get k [b; n; h; l; d] = Kf b n h l d) ->
  attention_scores true L hd q k =
  Some (scores_tensor
          (fun b n h d1 d2 =>
             sum_n L (fun l =>
               mul (div (Qf b n h l d1) (of_int (Z.of_nat L)))
                   (div (Kf b n h l d2) (of_int (Z.of_nat L)))))
          B N nh hd).
Proof.
  intros Sq Sk Hqk. unfold attention_scores.
  destruct (transpose_last2_shape [B; N; nh] L hd Sq) as (qT & Et & St).
  rewrite Et. cbn [bind].
  pose proof (has_shape_tmap (fun v => div v (of_int (Z.of_nat L))) St)
    as St'.
  pose proof (has_shape_tmap (fun v => div v (of_int (Z.of_nat L))) Sk)
    as Sk'.
  destruct (matmul_shape [B; N; nh] hd L hd St' Sk') as (s & Es & Ss).
  unfold div_scalar. rewrite Es. f_equal.
  apply tensor_ext.
  - rewrite (proj1 Ss). reflexivity.
  - apply Ss.
  - apply wf_tabulate.
  - rewrite (proj1 Ss). intros idx Hb. split_index idx Hb.
    unfold scores_tensor. rewrite get_tabulate by bounds.
    change (get s [n; n0; n1; n2; n3])
      with (get s ([n; n0; n1] ++ [n2; n3])).
    rewrite (@get_matmul _ _ _ _ _ [B; N; nh] [n; n0; n1] hd L hd n2 n3
               (proj1 St') (proj1 Sk') Es) by bounds.
    apply sum_n_ext. intros l Hl.
    rewrite !get_tmap;
      try apply Sk; try apply St;
      try (rewrite (proj1 Sk); bounds); try (rewrite (proj1 St); bounds).
    rewrite (@get_transpose_last2 _ _ q qT [B; N; nh] [n; n0; n1] L hd l n2
               (proj1 Sq) Et) by bounds.
    cbn [app].
    destruct (Hqk n n0 n1 l n2) as [-> _]; try assumption.
    destruct (Hqk n n0 n1 l n3) as [_ ->]; try assumption.
    reflexivity.
Qed.

(** The standard branch after the scores: softmax over the key positions,
    product with the values, heads moved next to the channels. *)
Lemma attention_heads_std (B N nh L hd : nat) (v : Tensor R)
  (score Vf : nat -> nat -> nat -> nat -> nat -> R) :
  has_shape v [B; N; nh; L; hd] ->
  (forall b n h l d, b < B -> n < N -> h < nh -> l < L -> d < hd ->
     get v [b; n; h; l; d] = Vf b n h l d) ->
  (a <- softmax_last (scores_tensor score B N nh L) ;;
   o <- matmul a v ;;
   permute [0; 1; 3; 2; 4] o) =
  Some (tabulate [B; N; L; nh; hd]
          (fun idx =>
             match idx with
             | [b; n; l; h; d] =>
                 sum_n L (fun j =>
                   mul (softmax_row L (fun j' => score b n h l j') j)
                       (Vf b n h j d))
             | _ => zero
             end)).
Proof.
  intros Sv Hv.
  pose proof (has_shape_tabulate [B; N; nh; L; L]
                (fun idx => match idx with
                            | [b; n'; h; i; j] => score b n' h i j
                            | _ => zero
                            end)) as Ss.
  fold (scores_tensor score B N nh L) in Ss.
  destruct (softmax_last_shape [B; N; nh; L] L Ss) as (a & Ea & Sa).
  rewrite Ea. cbn [bind].
  destruct (matmul_shape [B; N; nh] L L hd Sa Sv) as (o & Eo & So).
  rewrite Eo. cbn [bind].
  destruct (permute_shape [0; 1; 3; 2; 4] So eq_refl) as (o' & Eo' & So').
  rewrite Eo'. f_equal.
  apply tensor_ext.
  - rewrite (proj1 So'). reflexivity.
  - apply So'.
  - apply wf_tabulate.
  - rewrite (proj1 So'). intros idx Hb. cbn [gather map nth app] in Hb.
    split_index idx Hb.
    rewrite get_tabulate by bounds.
    rewrite (@get_permute _ _ _ _ _ [n; n0; n1; n2; n3] Eo')
      by (rewrite (proj1 So'); bounds).
    cbn [gather map nth inv_perm length seq index_of Nat.eqb].
    change (get o [n; n0; n2; n1; n3])
      with (get o ([n; n0; n2] ++ [n1; n3])).
    rewrite (@get_matmul _ _ _ _ _ [B; N; nh] [n; n0; n2] L L hd n1 n3
               (proj1 Sa) (proj1 Sv) Eo) by bounds.
    apply sum_n_ext. intros j Hj. cbn [app].
    rewrite Hv by assumption. f_equal.
    change (get a [n; n0; n2; n1; j])
      with (get a ([n; n0; n2; n1] ++ [j])).
    rewrite (@get_softmax_last _ _ _ _ a [B; N; nh; L] [n; n0; n2; n1] L j
               (proj1 Ss) Ea) by bounds.
    unfold softmax_row, scores_tensor. cbn [app].
    rewrite get_tabulate by bounds. f_equal.
    apply sum_n_ext. intros j' Hj'.
    now rewrite get_tabulate by bounds.
Qed.

(** The transposed branch after the scores: softmax over the key
    channels, product with the transposed values, transposed back. *)
Lemma attention_heads_T (B N nh L hd : nat) (v : Tensor R)
  (score Vf : nat -> nat -> nat -> nat -> nat -> R) :
  has_shape v [B; N; nh; L; hd] ->
  (forall b n h l d, b < B -> n < N -> h < nh -> l < L -> d < hd ->
     get v [b; n; h; l; d] = Vf b n h l d) ->
  (a <- softmax_last (scores_tensor score B N nh hd) ;;
   vT <- transpose_last2 v ;;
   o <- matmul a vT ;;
   permute [0; 1; 4; 2; 3] o) =
  Some (tabulate [B; N; L; nh; hd]
          (fun idx =>
             match idx with
             | [b; n; l; h; d1] =>
                 sum_n hd (fun d2 =>
                   mul (softmax_row hd (fun d2' => score b n h d1 d2') d2)
                       (Vf b n h l d2))
             | _ => zero
             end)).
Proof.
  intros Sv Hv.
  pose proof (has_shape_tabulate [B; N; nh; hd; hd]
                (fun idx => match idx with
                            | [b; n'; h; i; j] => score b n' h i j
                            | _ => zero
                            end)) as Ss.
  fold (scores_tensor score B N nh hd) in Ss.
  destruct (softmax_last_shape [B; N; nh; hd] hd Ss) as (a & Ea & Sa).
  rewrite Ea. cbn [bind].
  destruct (transpose_last2_shape [B; N; nh] L hd Sv) as (vT & Et & St).
  rewrite Et. cbn [bind].
  destruct (matmul_shape [B; N; nh] hd hd L Sa St) as (o & Eo & So).
  rewrite Eo. cbn [bind].
  destruct (permute_shape [0; 1; 4; 2; 3] So eq_refl) as (o' & Eo' & So').
  rewrite Eo'. f_equal.
  apply tensor_ext.
  - rewrite (proj1 So'). reflexivity.
  - apply So'.
  - apply wf_tabulate.
  - rewrite (proj1 So'). intros idx Hb. cbn [gather map nth app] in Hb.
    split_index idx Hb.
    rewrite get_tabulate by bounds.
    rewrite (@get_permute _ _ _ _ _ [n; n0; n1; n2; n3] Eo')
      by (rewrite (proj1 So'); bounds).
    cbn [gather map nth inv_perm length seq index_of Nat.eqb].
    change (get o [n; n0; n2; n3; n1])
      with (get o ([n; n0; n2] ++ [n3; n1])).
    rewrite (@get_matmul _ _ _ _ _ [B; N; nh] [n; n0; n2] hd hd L n3 n1
               (proj1 Sa) (proj1 St) Eo) by bounds.
    apply sum_n_ext. intros d2 Hd2.
    rewrite (@get_transpose_last2 _ _ v vT [B; N; nh] [n; n0; n2] L hd n1 d2
               (proj1 Sv) Et) by bounds.
    cbn [app]. rewrite Hv by assumption. f_equal.
    change (get a [n; n0; n2; n3; d2])
      with (get a ([n; n0; n2; n3] ++ [d2])).
    rewrite (@get_softmax_last _ _ _ _ a [B; N; nh; hd] [n; n0; n2; n3] hd d2
               (proj1 Ss) Ea) by bounds.
    unfold softmax_row, scores_tensor. cbn [app].
    rewrite get_tabulate by bounds. f_equal.
    apply sum_n_ext. intros j' Hj'.
    now rewrite get_tabulate by bounds.
Qed.

(** The forward pass in terms of the reference entries, both branches. *)
Lemma MultiHeadSelfAttention_forward_factors
  (m : MultiHeadSelfAttention R) (tr : bool) (B N L nh hd : nat)
  (x : Tensor R) :
  MultiHeadSelfAttention_built m (nh * hd) tr nh -> 0 < nh ->
  has_shape x [B; N; L; nh * hd] ->
  MultiHeadSelfAttention_scores m x =
  Some (if tr
        then scores_tensor (scores_T_factors m x L hd) B N nh hd
        else scores_tensor (scores_std_factors m x hd) B N nh L) /\
  MultiHeadSelfAttention_forward m x =
  (f <- flatten_last2
          (if tr
           then attention_T (scores_T_factors m x L hd) m x B N L hd
           else attention_std (scores_std_factors m x hd) m x B N L hd) ;;
   Linear_forward (out m) f).
Proof.
  intros Hm Hnh Hx.
  destruct (qkv_heads_get hd Hm Hnh Hx)
    as (q & k & v & Eh & Sq & Sk & Sv & Hget).
  destruct Hm as (Hd & Ht & Hn & _).
  assert (Hqk : forall b n h l d,
            b < B -> n < N -> h < nh -> l < L -> d < hd ->
            get q [b; n; h; l; d] = head_entry m x hd 0 b n h l d /\
            get k [b; n; h; l; d] = head_entry m x hd 1 b n h l d).
  { intros b n h l d Hb Hn' Hh Hl Hd'.
    destruct (Hget b n h l d) as (H0 & H1 & _); auto. }
  assert (Hv : forall b n h l d,
            b < B -> n < N -> h < nh -> l < L -> d < hd ->
            get v [b; n; h; l; d] = head_entry m x hd 2 b n h l d).
  { intros b n h l d Hb Hn' Hh Hl Hd'.
    destruct (Hget b n h l d) as (_ & _ & H2); auto. }
  unfold MultiHeadSelfAttention_scores, MultiHeadSelfAttention_forward.
  rewrite Eh, Ht. cbn [bind]. destruct tr.
  - rewrite (@attention_scores_T B N nh L hd q k (head_entry m x hd 0)
               (head_entry m x hd 1) Sq Sk Hqk).
    split; [reflexivity|]. cbn [bind].
    pose proof (@attention_heads_T B N nh L hd v
                  (scores_T_factors m x L hd) (head_entry m x hd 2)
                  Sv Hv) as Hh.
    apply bind_Some in Hh as (a & Ea & Hh).
    unfold scores_T_factors in Ea. rewrite Ea. cbn [bind].
    rewrite Hh. cbn [bind]. unfold attention_T. now rewrite Hn.
  - rewrite (@attention_scores_std B N nh L hd q k (head_entry m x hd 0)
               (head_entry m x hd 1) Sq Sk Hqk).
    split; [reflexivity|]. cbn [bind].
    pose proof (@attention_heads_std B N nh L hd v
                  (scores_std_factors m x hd) (head_entry m x hd 2)
                  Sv Hv) as Hh.
    apply bind_Some in Hh as (a & Ea & Hh).
    unfold scores_std_factors in Ea. rewrite Ea. cbn [bind].
    rewrite Hh. cbn [bind]. unfold attention_std. now rewrite Hn.
Qed.

End AttentionFacts.

(** ** Attention in exact arithmetic *)

Section AttentionLaws.
Context {R : Type} {SR : Scalar R} {TR : Transcendental R}.
Context {LAWS : ScalarLaws R}.

Lemma sum_n_div_mul (n : nat) (f g : nat -> R) (c : R) :
  sum_n n (fun k => mul (div (f k) c) (div (g k) c))
  = div (sum_n n (fun k => mul (f k) (g k))) (mul c c).
Proof.
  unfold sum_n. induction (seq 0 n) as [|k l IH]; simpl.
  - symmetry. apply zero_div.
  - now rewrite IH, div_mul_div, div_add_div.
Qed.

Lemma scores_T_factors_squared (m : MultiHeadSelfAttention R) (x : Tensor R)
  (L hd b n h d1 d2 : nat) :
  scores_T_factors m x L hd b n h d1 d2
  = scores_T_squared m x L hd b n h d1 d2.
Proof. unfold scores_T_factors, scores_T_squared. apply sum_n_div_mul. Qed.

Lemma scores_std_factors_twice (m : MultiHeadSelfAttention R) (x : Tensor R)
  (hd b n h i j : nat) :
  scores_std_factors m x hd b n h i j = scores_std_twice m x hd b n h i j.
Proof. unfold scores_std_factors, scores_std_twice. apply sum_n_div_mul. Qed.

Lemma scores_tensor_ext (s1 s2 : nat -> nat -> nat -> nat -> nat -> R)
  (B N nh n : nat) :
  (forall b n' h i j, s1 b n' h i j = s2 b n' h i j) ->
  scores_tensor s1 B N nh n = scores_tensor s2 B N nh n.
Proof.
  intros H. unfold scores_tensor. apply tabulate_ext.
  intros idx Hb. split_index idx Hb. apply H.
Qed.

Lemma softmax_row_ext (n : nat) (s1 s2 : nat -> R) (j : nat) :
  (forall k, s1 k = s2 k) -> softmax_row n s1 j = softmax_row n s2 j.
Proof.
  intros H. unfold softmax_row. rewrite H. f_equal.
  apply sum_n_ext. intros k _. now rewrite H.
Qed.

Lemma attention_T_ext (s1 s2 : nat -> nat -> nat -> nat -> nat -> R)
  (m : MultiHeadSelfAttention R) (x : Tensor R) (B N L hd : nat) :
  (forall b n h i j, s1 b n h i j = s2 b n h i j) ->
  attention_T s1 m x B N L hd = attention_T s2 m x B N L hd.
Proof.
  intros H. unfold attention_T. apply tabulate_ext.
  intros idx Hb. split_index idx Hb.
  apply sum_n_ext. intros d2 _. f_equal.
  apply softmax_row_ext. intros k. apply H.
Qed.

Lemma attention_std_ext (s1 s2 : nat -> nat -> nat -> nat -> nat -> R)
  (m : MultiHeadSelfAttention R) (x : Tensor R) (B N L hd : nat) :
  (forall b n h i j, s1 b n h i j = s2 b n h i j) ->
  attention_std s1 m x B N L hd = attention_std s2 m x B N L hd.
Proof.
  intros H. unfold attention_std. apply tabulate_ext.
  intros idx Hb. split_index idx Hb.
  apply sum_n_ext. intros j _. f_equal.
  apply softmax_row_ext. intros k. apply H.
Qed.

(** C2: with [transposed = True], on every (B, N, L, C) input with
    [C = num_heads * head_dim], the forward pass computes per head
    [softmax(Q^T . K / L^2) . V^T] (each factor of the score product being
    divided by [L]), softmax over the key-channel axis that the second
    product contracts, laid out as (B, N, L, num_heads, head_dim), then
    flattens the heads and applies the output projection. *)
Theorem MultiHeadSelfAttention_forward_transposed
  (m : MultiHeadSelfAttention R) (B N L nh hd : nat) (x : Tensor R) :
  MultiHeadSelfAttention_built m (nh * hd) true nh -> 0 < nh ->
  has_shape x [B; N; L; nh * hd] ->
  MultiHeadSelfAttention_scores m x
  = Some (scores_tensor (scores_T_squared m x L hd) B N nh hd) /\
  (forall b n h d1 d2,
     scores_T_squared m x L hd b n h d1 d2
     = sum_n L (fun l =>
         mul (div (head_entry m x hd 0 b n h l d1) (of_int (Z.of_nat L)))
             (div (head_entry m x hd 1 b n h l d2) (of_int (Z.of_nat L))))) /\
  MultiHeadSelfAttention_forward m x
  = (f <- flatten_last2
            (attention_T (scores_T_squared m x L hd) m x B N L hd) ;;
     Linear_forward (out m) f) /\
  exists y, MultiHeadSelfAttention_forward m x = Some y /\
            has_shape y [B; N; L; nh * hd].
Proof.
  intros Hm Hnh Hx.
  destruct (MultiHeadSelfAttention_forward_factors hd Hm Hnh Hx) as [Es Ef].
  split; [|split; [|split]].
  - rewrite Es. f_equal. apply scores_tensor_ext.
    intros. apply scores_T_factors_squared.
  - intros b n h d1 d2. rewrite <- scores_T_factors_squared. reflexivity.
  - rewrite Ef. f_equal. f_equal. apply attention_T_ext.
    intros. apply scores_T_factors_squared.
  - apply (MultiHeadSelfAttention_forward_shape hd Hm Hnh Hx).
Qed.

(** C1, as the code has it: with [transposed = False] the forward pass
    computes per head [softmax(Q . K^T / head_dim^2) . V]: the query and
    the key are each divided by [head_dim] before their product, so the
    scores are the query-key product divided by [head_dim] twice.  The
    softmax is over the key positions, which the product with [V]
    contracts; the heads are then flattened and the output projection is
    applied. *)
Theorem MultiHeadSelfAttention_forward_standard
  (m : MultiHeadSelfAttention R) (B N L nh hd : nat) (x : Tensor R) :
  MultiHeadSelfAttention_built m (nh * hd) false nh -> 0 < nh ->
  has_shape x [B; N; L; nh * hd] ->
  MultiHeadSelfAttention_scores m x
  = Some (scores_tensor (scores_std_twice m x hd) B N nh L) /\
  (forall b n h i j,
     scores_std_twice m x hd b n h i j
     = sum_n hd (fun d =>
         mul (div (head_entry m x hd 0 b n h i d) (of_int (Z.of_nat hd)))
             (div (head_entry m x hd 1 b n h j d) (of_int (Z.of_nat hd))))) /\
  MultiHeadSelfAttention_forward m x
  = (f <- flatten_last2
            (attention_std (scores_std_twice m x hd) m x B N L hd) ;;
     Linear_forward (out m) f) /\
  exists y, MultiHeadSelfAttention_forward m x = Some y /\
            has_shape y [B; N; L; nh * hd].
Proof.
  intros Hm Hnh Hx.
  destruct (MultiHeadSelfAttention_forward_factors hd Hm Hnh Hx) as [Es Ef].
  split; [|split; [|split]].
  - rewrite Es. f_equal. apply scores_tensor_ext.
    intros. apply scores_std_factors_twice.
  - intros b n h i j. rewrite <- scores_std_factors_twice. reflexivity.
  - rewrite Ef. f_equal. f_equal. apply attention_std_ext.
    intros. apply scores_std_factors_twice.
  - apply (MultiHeadSelfAttention_forward_shape hd Hm Hnh Hx).
Qed.

End AttentionLaws.

(** ** Exact rationals satisfy the laws *)

#[export] Instance Qc_ScalarLaws : ScalarLaws Qc.
Proof.
  split; intros; simpl; unfold Qcdiv.
  - rewrite Qcinv_mult_distr. ring.
  - ring.
  - ring.
Qed.

(** ** The standard scores are not the product divided by [head_dim] once *)

(** C1, as stated, fails: for one head of width 2, all weights 1, all
    biases 0 and the all-ones input, query and key are both [(2, 2)]; the
    forward pass hands [(2/2)*(2/2) + (2/2)*(2/2) = 2] to the softmax,
    whereas the product divided by [head_dim] once is [(2*2 + 2*2)/2 = 4]. *)
Lemma standard_scores_not_divided_once :
  MultiHeadSelfAttention_scores (ex_attention false) ex_sequence
  <> Some (scores_tensor
             (scores_std_once (ex_attention false) ex_sequence 2) 1 1 1 1).
Proof.
  intros H.
  apply (f_equal (fun o => match o with
                           | Some t => map (fun q => Qnum (this q)) (data t)
                           | None => []
                           end)) in H.
  vm_compute in H. discriminate H.
Qed.

(** ** Concrete instances

    Each theorem with hypotheses is applied once to a small concrete model
    on exact rationals, its hypotheses being discharged by evaluation. *)

(** Solves a [_built] goal on a sample object. *)
Ltac built :=
  repeat first [ reflexivity | split | constructor ].

(** Splits off the hypotheses that are already in the context. *)
Ltac hyps :=
  repeat match goal with
         | |- _ /\ _ => split; [assumption|]
         end.

Lemma window_unpartition_partition_witness :
  has_shape ex_features [1; 1; 2; 2] /\ 2 <> 0 /\
  2 mod 2 = 0 /\ 2 mod 2 = 0 /\
  (y <- window_partition ex_features 2 ;; window_unpartition y 2 2)
  = Some ex_features.
Proof.
  assert (H1 : has_shape ex_features [1; 1; 2; 2]) by (split; reflexivity).
  assert (H2 : 2 <> 0) by lia.
  assert (H3 : 2 mod 2 = 0) by reflexivity.
  split; [exact H1|]. split; [exact H2|].
  split; [exact H3|]. split; [exact H3|].
  exact (window_unpartition_partition H1 H2 H3 H3).
Defined.

Lemma spatial_unflatten_flatten_witness :
  has_shape ex_image ([1] ++ [3; 2; 2]) /\
  (y <- spatial_flatten ex_image ;; spatial_unflatten y 2 2) = Some ex_image.
Proof.
  assert (H1 : has_shape ex_image ([1] ++ [3; 2; 2])) by (split; reflexivity).
  split; [exact H1|].
  exact (proj1 (proj1 (@spatial_unflatten_flatten Qc _ [1] 3 2 2)
                  ex_image H1)).
Defined.

Lemma MultiHeadSelfAttention_forward_transposed_witness :
  MultiHeadSelfAttention_built (ex_attention true) (1 * 2) true 1 /\
  0 < 1 /\
  has_shape ex_sequence [1; 1; 1; 1 * 2] /\
  MultiHeadSelfAttention_scores (ex_attention true) ex_sequence
  = Some (scores_tensor
            (scores_T_squared (ex_attention true) ex_sequence 1 2) 1 1 1 2).
Proof.
  assert (H1 : MultiHeadSelfAttention_built (ex_attention true) (1 * 2)
                 true 1) by built.
  assert (H2 : 0 < 1) by lia.
  assert (H3 : has_shape ex_sequence [1; 1; 1; 1 * 2])
    by (split; reflexivity).
  hyps.
  exact (proj1 (@MultiHeadSelfAttention_forward_transposed Qc _ _ _
                  (ex_attention true) 1 1 1 1 2 ex_sequence H1 H2 H3)).
Defined.

Lemma MultiHeadSelfAttention_forward_standard_witness :
  MultiHeadSelfAttention_built (ex_attention false) (1 * 2) false 1 /\
  0 < 1 /\
  has_shape ex_sequence [1; 1; 1; 1 * 2] /\
  MultiHeadSelfAttention_scores (ex_attention false) ex_sequence
  = Some (scores_tensor
            (scores_std_twice (ex_attention false) ex_sequence 2) 1 1 1 1).
Proof.
  assert (H1 : MultiHeadSelfAttention_built (ex_attention false) (1 * 2)
                 false 1) by built.
  assert (H2 : 0 < 1) by lia.
  assert (H3 : has_shape ex_sequence [1; 1; 1; 1 * 2])
    by (split; reflexivity).
  hyps.
  exact (proj1 (@MultiHeadSelfAttention_forward_standard Qc _ _ _
                  (ex_attention false) 1 1 1 1 2 ex_sequence H1 H2 H3)).
Defined.


Lemma TransformerSR_residual_buffer_witness :
  In 1%Z (residual_groups ex_sr1) /\ (1 <= 1)%Z /\
  0 < length (blocks ex_sr1) /\
  sr_entry ex_sr1 ex_features 0
  = Some (dict_fromkeys [1%Z] (PInt 0), ex_features) /\
  reset_phase 0 ex_features [1%Z] (dict_fromkeys [1%Z] (PInt 0))
  = Some [(1%Z, PTensor ex_features)] /\
  (0 mod 1 = 1 - 1)%Z /\
  dict_get 1%Z [(1%Z, PTensor ex_features)] <> Some (PInt 0).
Proof.
  assert (H1 : In 1%Z (residual_groups ex_sr1)) by (left; reflexivity).
  assert (H2 : (1 <= 1)%Z) by lia.
  assert (H3 : 0 < length (blocks ex_sr1)) by (simpl; lia).
  assert (H4 : sr_entry ex_sr1 ex_features 0
               = Some (dict_fromkeys [1%Z] (PInt 0), ex_features))
    by reflexivity.
  assert (H5 : reset_phase (Z.of_nat 0) ex_features
                 (dict_keys (dict_fromkeys [1%Z]
                               (PInt 0 : PyVal (Tensor Qc))))
                 (dict_fromkeys [1%Z] (PInt 0))
               = Some [(1%Z, PTensor ex_features)]) by reflexivity.
  assert (H6 : (Z.of_nat 0 mod 1 = 1 - 1)%Z) by reflexivity.
  split; [exact H1|]. split; [exact H2|]. split; [exact H3|].
  split; [exact H4|]. split; [exact H5|]. split; [exact H6|].
  destruct (@TransformerSR_residual_buffer Qc _ _ ex_sr1 ex_features 1%Z 0
              _ _ _ H1 H2 H3 H4 H5 H6) as (d0 & xs & _ & _ & Hn).
  apply Hn.
Defined.

Lemma AttentionBlock_transposed_ignores_window_size_witness :
  ab_transposed (ex_block 1 true 2 1) = true /\
  ab_transposed (ex_block 1 true 3 1) = true /\
  AttentionBlock_built (ex_block 1 true 3 1) (1 * 1) true 3 1 /\
  0 < 1 /\
  has_shape ex_features [1; 1 * 1; 2; 2] /\
  AttentionBlock_forward (ex_block 1 true 2 1) ex_features
  = AttentionBlock_forward (ex_block 1 true 3 1) ex_features /\
  exists y, AttentionBlock_forward (ex_block 1 true 3 1) ex_features
            = Some y /\ has_shape y [1; 1 * 1; 2; 2].
Proof.
  assert (H1 : ab_transposed (ex_block 1 true 2 1) = true) by reflexivity.
  assert (H2 : ab_transposed (ex_block 1 true 3 1) = true) by reflexivity.
  assert (H3 : AttentionBlock_built (ex_block 1 true 3 1) (1 * 1) true 3 1)
    by built.
  assert (H4 : 0 < 1) by lia.
  assert (H5 : has_shape ex_features [1; 1 * 1; 2; 2])
    by (split; reflexivity).
  split; [exact H1|]. split; [exact H2|]. split; [exact H3|].
  split; [exact H4|]. split; [exact H5|]. split.
  - exact (proj1 (@AttentionBlock_transposed_ignores_window_size Qc _ _)
             (ex_block 1 true 2 1) (ex_block 1 true 3 1) ex_features
             H1 H2 eq_refl eq_refl eq_refl eq_refl eq_refl).
  - destruct (proj2 (@AttentionBlock_transposed_ignores_window_size Qc _ _)
                (ex_block 1 true 3 1) 3 1 1 1 2 2 ex_features H3 H4 H5)
      as (y & E & S & _).
    exists y. split; [exact E | exact S].
Defined.

(* ================================================================== *)
(** * Part III: further properties of the code *)
(* ================================================================== *)

(** ** Where window partitioning puts each element, and when it fails *)

Section WindowLayout.
Context {R : Type} {SR : Scalar R}.

Lemma get_window_partition (x y : Tensor R) (B C h v w : nat) :
  has_shape x [B; C; h * w; v * w] -> w <> 0 ->
  window_partition x w = Some y ->
  forall b c hy wx i j,
    b < B -> c < C -> hy < h -> wx < v -> i < w -> j < w ->
    get y [b; hy * v + wx; c; i; j]
    = get x [b; c; hy * w + i; wx * w + j].
Proof.
  intros Hx Hw Hy.
  destruct (window_partition_ok h v Hx Hw)
    as (x1 & x2 & x3 & y0 & E1 & E2 & E3 & E4 & EP & D1 & D3 & S2 & Sy).
  assert (y0 = y) by congruence. subst y0.
  intros b c hy wx i j Hb Hc Hhy Hwx Hi Hj.
  assert (Hn : hy * v + wx < h * v) by nia.
  rewrite (@get_permute _ _ _ _ _ [b; hy * v + wx; c; i; j] E4)
    by (rewrite (proj1 Sy); bounds).
  cbn [gather map nth inv_perm length seq index_of Nat.eqb].
  rewrite (@get_reshape _ _ _ _ _ [b; c; hy; wx; i; j]
             [b; c; hy * v + wx; i; j] E3)
    by (rewrite (proj1 S2); simpl; ring).
  rewrite (@get_permute _ _ _ _ _ [b; c; hy; wx; i; j] E2)
    by (rewrite (proj1 S2); bounds).
  cbn [gather map nth inv_perm length seq index_of Nat.eqb].
  apply (@get_reshape _ _ _ _ _ _ _ E1).
  rewrite (proj1 Hx). simpl. ring.
Qed.

Lemma get_window_unpartition (u y : Tensor R) (B C h v w : nat) :
  has_shape u [B; h * v; C; w; w] -> w <> 0 ->
  window_unpartition u (h * w) (v * w) = Some y ->
  forall b c hy wx i j,
    b < B -> c < C -> hy < h -> wx < v -> i < w -> j < w ->
    get y [b; c; hy * w + i; wx * w + j]
    = get u [b; hy * v + wx; c; i; j].
Proof.
  intros Hu Hw Hy. unfold window_unpartition in Hy.
  rewrite (proj1 Hu) in Hy.
  destruct (permute_shape [0; 2; 1; 3; 4] Hu eq_refl) as (x1 & E1 & S1).
  cbn [gather map nth] in S1.
  rewrite E1 in Hy. cbn [bind] in Hy.
  rewrite !(floordiv_ok _ Hw) in Hy. cbn [bind] in Hy.
  rewrite !Nat.div_mul in Hy by assumption.
  destruct (reshape_shape [B; C; h; v; w; w] S1) as (x2 & E2 & S2 & _);
    [simpl; ring|].
  rewrite E2 in Hy. cbn [bind] in Hy.
  destruct (permute_shape [0; 1; 2; 4; 3; 5] S2 eq_refl) as (x3 & E3 & S3).
  cbn [gather map nth] in S3.
  rewrite E3 in Hy. cbn [bind] in Hy.
  intros b c hy wx i j Hb Hc Hhy Hwx Hi Hj.
  assert (Hn : hy * v + wx < h * v) by nia.
  rewrite (@get_reshape _ _ _ _ _ [b; c; hy; i; wx; j]
             [b; c; hy * w + i; wx * w + j] Hy)
    by (rewrite (proj1 S3); simpl; ring).
  rewrite (@get_permute _ _ _ _ _ [b; c; hy; i; wx; j] E3)
    by (rewrite (proj1 S3); bounds).
  cbn [gather map nth inv_perm length seq index_of Nat.eqb].
  rewrite (@get_reshape _ _ _ _ _ [b; c; hy * v + wx; i; j]
             [b; c; hy; wx; i; j] E2)
    by (rewrite (proj1 S1); simpl; ring).
  rewrite (@get_permute _ _ _ _ _ [b; c; hy * v + wx; i; j] E1)
    by (rewrite (proj1 S1); bounds).
  reflexivity.
Qed.

(** X1: Window [(hy, wx)] of the map is window number [hy * (W / w) + wx]
    (row-major over windows), and position [(i, j)] inside it holds the
    element of row [hy * w + i] and column [wx * w + j]. *)
Theorem window_partition_layout (x : Tensor R) (B C h v w : nat) :
  has_shape x [B; C; h * w; v * w] -> w <> 0 ->
  exists y,
    window_partition x w = Some y /\
    has_shape y [B; h * v; C; w; w] /\
    forall b c hy wx i j,
      b < B -> c < C -> hy < h -> wx < v -> i < w -> j < w ->
      get y [b; hy * v + wx; c; i; j]
      = get x [b; c; hy * w + i; wx * w + j].
Proof.
  intros Hx Hw.
  destruct (window_partition_shape h v Hx Hw) as (y & Ey & Sy).
  exists y. split; [exact Ey|]. split; [exact Sy|].
  exact (get_window_partition Hx Hw Ey).
Qed.

End WindowLayout.

Lemma split_last_app_cases (pre : list nat) (n H W : nat) :
  split_last (pre ++ [n]) H W
  = if n =? H * W then Some (pre ++ [H; W]) else None.
Proof.
  induction pre as [|d pre IH]; [simpl; now destruct (n =? H * W)|].
  simpl app. simpl split_last. rewrite IH.
  destruct (n =? H * W); cbn [bind]; destruct pre; reflexivity.
Qed.

Lemma div_mul_lt (a w : nat) : w <> 0 -> a mod w <> 0 -> a / w * w < a.
Proof.
  intros Hw Hm. pose proof (Nat.div_mod_eq a w). lia.
Qed.

Section WindowDomain.
Context {R : Type} {SR : Scalar R}.

Lemma window_partition_zero (x : Tensor R) : window_partition x 0 = None.
Proof.
  unfold window_partition.
  destruct (shape x) as [|B [|C [|H [|W [|]]]]]; reflexivity.
Qed.

Lemma window_partition_indivisible (x : Tensor R) (B C H W w : nat) :
  shape x = [B; C; H; W] ->
  0 < B -> 0 < C -> 0 < H -> 0 < W -> w <> 0 ->
  H mod w <> 0 \/ W mod w <> 0 ->
  window_partition x w = None.
Proof.
  intros Hs HB HC HH HW Hw Hdiv. unfold window_partition. rewrite Hs.
  assert (Hw2 : w ^ 2 <> 0) by (simpl; nia).
  rewrite (floordiv_ok _ Hw2), !(floordiv_ok _ Hw). cbn [bind].
  unfold reshape. rewrite Hs.
  destruct (Nat.eqb_spec (numel [B; C; H / w; w; W / w; w])
              (numel [B; C; H; W])) as [E|_]; [|reflexivity].
  exfalso. simpl in E.
  assert (LH' : H / w * w <= H)
    by (pose proof (Nat.div_mod_eq H w); lia).
  assert (LW' : W / w * w <= W)
    by (pose proof (Nat.div_mod_eq W w); lia).
  assert (Hlt : H / w * w * (W / w * w) < H * W).
  { destruct Hdiv as [D|D]; apply div_mul_lt in D; try assumption; nia. }
  assert (E' : B * C * (H / w * w * (W / w * w)) = B * C * (H * W)) by lia.
  apply Nat.mul_cancel_l in E'; nia.
Qed.

(** X2: For a window size that is a non-negative int, [window_partition]
    raises on a non-empty map exactly when the window size is zero or does
    not divide both sides.  (Negative window sizes are outside the model
    and outside this statement.) *)
Theorem window_partition_fails_iff (x : Tensor R) (B C H W w : nat) :
  has_shape x [B; C; H; W] ->
  0 < B -> 0 < C -> 0 < H -> 0 < W ->
  (window_partition x w = None <->
   w = 0 \/ H mod w <> 0 \/ W mod w <> 0).
Proof.
  intros Hx HB HC HH HW. split.
  - intros Hn.
    destruct (Nat.eq_dec w 0) as [Hw|Hw]; [now left | right].
    destruct (Nat.eq_dec (H mod w) 0) as [DH|DH]; [|now left].
    destruct (Nat.eq_dec (W mod w) 0) as [DW|DW]; [|now right].
    exfalso.
    apply Nat.Div0.div_exact in DH, DW.
    rewrite (Nat.mul_comm w) in DH, DW. rewrite DH, DW in Hx.
    destruct (window_partition_ok _ _ Hx Hw)
      as (_ & _ & _ & y & _ & _ & _ & _ & EP & _).
    congruence.
  - intros [-> | Hdiv].
    + apply window_partition_zero.
    + destruct (Nat.eq_dec w 0) as [-> | Hw];
        [apply window_partition_zero|].
      apply window_partition_indivisible with (B := B) (C := C) (H := H)
                                              (W := W); try assumption.
      apply Hx.
Qed.

(** X3: [window_partition] undoes [window_unpartition]: the two are inverse in
    both directions. *)
Theorem window_partition_unpartition (y : Tensor R) (B C h v w : nat) :
  has_shape y [B; h * v; C; w; w] -> w <> 0 ->
  (x <- window_unpartition y (h * w) (v * w) ;; window_partition x w)
  = Some y.
Proof.
  intros Hy Hw. unfold window_unpartition. rewrite (proj1 Hy).
  destruct (permute_shape [0; 2; 1; 3; 4] Hy eq_refl) as (x1 & E1 & S1).
  cbn [gather map nth] in S1.
  assert (P1 : (t' <- permute [0; 2; 1; 3; 4] y ;;
                permute [0; 2; 1; 3; 4] t') = Some y).
  { apply permute_inverse; try reflexivity; try apply Hy;
      rewrite (proj1 Hy); reflexivity. }
  rewrite E1 in P1 |- *. cbn [bind] in P1 |- *.
  rewrite !(floordiv_ok _ Hw). cbn [bind].
  rewrite !Nat.div_mul by assumption.
  destruct (reshape_shape [B; C; h; v; w; w] S1) as (x2 & E2 & S2 & D2);
    [simpl; ring|].
  rewrite E2. cbn [bind].
  destruct (permute_shape [0; 1; 2; 4; 3; 5] S2 eq_refl) as (x3 & E3 & S3).
  cbn [gather map nth] in S3.
  assert (P2 : (t' <- permute [0; 1; 2; 4; 3; 5] x2 ;;
                permute [0; 1; 2; 4; 3; 5] t') = Some x2).
  { apply permute_inverse; try reflexivity; try apply S2;
      rewrite (proj1 S2); reflexivity. }
  rewrite E3 in P2 |- *. cbn [bind] in P2 |- *.
  destruct (reshape_shape [B; C; h * w; v * w] S3) as (x4 & E4 & S4 & D4);
    [simpl; ring|].
  rewrite E4. cbn [bind].
  unfold window_partition. rewrite (proj1 S4).
  assert (Hw2 : w ^ 2 <> 0) by (simpl; nia).
  rewrite (floordiv_ok _ Hw2), !(floordiv_ok _ Hw). cbn [bind].
  rewrite !Nat.div_mul by assumption.
  replace (h * w * (v * w) / w ^ 2) with (h * v).
  2:{ replace (h * w * (v * w)) with (h * v * w ^ 2) by (simpl; ring).
      now rewrite Nat.div_mul. }
  assert (R3 : reshape [B; C; h; w; v; w] x4 = Some x3).
  { rewrite reshape_ok by (rewrite (proj1 S4); simpl; ring).
    rewrite D4. destruct S3 as [S3 _]. destruct x3; simpl in *. now subst. }
  rewrite R3. cbn [bind]. rewrite P2. cbn [bind].
  assert (R1 : reshape [B; C; h * v; w; w] x2 = Some x1).
  { rewrite reshape_ok by (rewrite (proj1 S2); simpl; ring).
    rewrite D2. destruct S1 as [S1 _]. destruct x1; simpl in *. now subst. }
  rewrite R1. cbn [bind]. exact P1.
Qed.

(** X4: For non-negative ints [H] and [W], [spatial_unflatten] raises
    exactly when the sequence length is not [H * W].  (A size of [-1],
    which [unflatten] would infer, is outside the model and outside this
    statement.) *)
Theorem spatial_unflatten_fails_iff
  (y : Tensor R) (pre : list nat) (n C H W : nat) :
  shape y = pre ++ [n; C] ->
  (spatial_unflatten y H W = None <-> n <> H * W).
Proof.
  intros Hs. unfold spatial_unflatten.
  rewrite transpose_last2_ok by (rewrite Hs, length_app; simpl; lia).
  cbn [bind]. unfold unflatten_last. rewrite shape_tabulate, Hs.
  rewrite swap_last2_app.
  change (pre ++ [C; n]) with (pre ++ [C] ++ [n]).
  rewrite app_assoc, split_last_app_cases.
  destruct (Nat.eqb_spec n (H * W)) as [E|E]; cbn [bind]; split;
    intros H'; congruence.
Qed.

End WindowDomain.

(** ** Degenerate and repeated residual periods *)

Section DictDuplicates.
Variable V : Type.

Lemma dict_set_same (k : Z) (v : V) (d : dict V) :
  dict_get k d = Some v -> dict_set k v d = d.
Proof.
  induction d as [|[k' v'] d IH]; simpl; [discriminate|].
  destruct (Z.eqb_spec k' k) as [E|N].
  - now intros [= ->].
  - intros H. now rewrite IH.
Qed.

Lemma dict_fromkeys_values (ks : list Z) (v : V) (p : Z) (w : V) :
  dict_get p (dict_fromkeys ks v) = Some w -> w = v.
Proof.
  unfold dict_fromkeys.
  assert (G : forall ks d,
             (forall q u, dict_get q d = Some u -> u = v) ->
             forall q u,
               dict_get q (fold_left (fun d k => dict_set k v d) ks d)
               = Some u -> u = v).
  { clear ks p w. induction ks as [|k ks IH]; simpl; intros d Hd; [exact Hd|].
    apply IH. intros q u. rewrite dict_get_set.
    destruct (k =? q)%Z; [now intros [= <-] | apply Hd]. }
  apply G. intros q u. discriminate.
Qed.

(** A period that already occurs earlier in the list adds nothing to the
    dictionary. *)
Lemma dict_fromkeys_drop_duplicate (l1 l2 : list Z) (p : Z) (v : V) :
  In p l1 ->
  dict_fromkeys (l1 ++ p :: l2) v = dict_fromkeys (l1 ++ l2) v.
Proof.
  intros Hin. unfold dict_fromkeys. rewrite !fold_left_app. simpl.
  fold (dict_fromkeys l1 v). rewrite dict_set_same; [reflexivity|].
  destruct (dict_fromkeys_spec l1 v) as [_ Hk].
  destruct (dict_get_in p (dict_fromkeys l1 v) (proj2 (Hk p) Hin))
    as [w Hw].
  rewrite Hw. f_equal. now apply dict_fromkeys_values in Hw.
Qed.

End DictDuplicates.

Section LoopDegenerate.
Variables (T Blk : Type).
Variable run : Blk -> T -> option T.
Variable plus : T -> PyVal T -> option T.

Lemma reset_phase_zero (i : Z) (x : T) (steps : list Z) :
  In 0%Z steps -> forall d, reset_phase i x steps d = None.
Proof.
  induction steps as [|s steps IH]; simpl; [tauto|].
  intros [->|Hin] d; [reflexivity|].
  destruct (py_mod i s); cbn [bind]; [now apply IH | reflexivity].
Qed.

Lemma residual_loop_zero_period (groups : list Z) (b : Blk)
  (rest : list Blk) (x : T) :
  In 0%Z groups -> residual_loop run plus groups (b :: rest) x = None.
Proof.
  intros Hin. unfold residual_loop. simpl. unfold loop_body.
  rewrite reset_phase_zero; [reflexivity|].
  now apply dict_fromkeys_spec.
Qed.

Lemma closing_nil (i : Z) (steps : list Z) :
  (forall p, In p steps -> (i mod p <> p - 1)%Z) -> closing i steps = [].
Proof.
  intros H. unfold closing. induction steps as [|s steps IH]; simpl;
    [reflexivity|].
  destruct (Z.eqb_spec (i mod s) (s - 1)) as [E|_].
  - exfalso. apply (H s); [now left | exact E].
  - apply IH. intros p Hp. apply H. now right.
Qed.

(** A period that is negative or exceeds the index of every remaining
    iteration never closes. *)
Lemma never_closes (i n : nat) (p : Z) :
  (p < 0 \/ Z.of_nat (i + n) < p)%Z -> 0 < n ->
  (Z.of_nat i mod p <> p - 1)%Z.
Proof.
  intros [Hneg|Hbig] Hn.
  - pose proof (Z.mod_neg_bound (Z.of_nat i) p Hneg). lia.
  - rewrite Z.mod_small by lia. lia.
Qed.

Lemma loop_from_no_close (blocks : list Blk) :
  forall i d x,
    (forall p, In p (dict_keys d) ->
       (p < 0 \/ Z.of_nat (i + length blocks) < p)%Z) ->
    option_map snd (loop_from run plus i blocks (d, x))
    = run_all run blocks x.
Proof.
  induction blocks as [|b blocks IH]; intros i d x Hk;
    cbn [loop_from run_all]; [reflexivity|].
  assert (Hnz : Forall (fun p => p <> 0%Z) (dict_keys d)).
  { apply Forall_forall. intros p Hp. destruct (Hk p Hp); lia. }
  destruct (@loop_body_policy T Blk run plus i b d x Hnz)
    as (d' & _ & Hk' & _ & _ & Hbody).
  rewrite Hbody. rewrite closing_nil.
  2:{ intros p Hp. apply never_closes with (n := length (b :: blocks)).
      - now apply Hk.
      - simpl. lia. }
  destruct (run b x) as [y|]; cbn [bind add_stored]; [|reflexivity].
  apply IH. intros p Hp. rewrite Hk' in Hp.
  specialize (Hk p Hp). simpl in Hk. rewrite Nat.add_succ_comm. exact Hk.
Qed.

Lemma residual_loop_no_close (groups : list Z) (blocks : list Blk) (x : T) :
  (forall p, In p groups ->
     (p < 0 \/ Z.of_nat (length blocks) < p)%Z) ->
  residual_loop run plus groups blocks x = run_all run blocks x.
Proof.
  intros H. unfold residual_loop.
  rewrite <- (loop_from_no_close blocks 0
                (dict_fromkeys groups (PInt 0)) x).
  - destruct (loop_from run plus 0 blocks
                (dict_fromkeys groups (PInt 0), x)) as [[d y]|];
      reflexivity.
  - intros p Hp. apply H. now apply dict_fromkeys_spec in Hp.
Qed.

End LoopDegenerate.

(** ** A single period groups the blocks *)

Lemma succ_mod (i t : nat) (p : Z) :
  (Z.of_nat i mod p = Z.of_nat t)%Z -> (Z.of_nat (S t) < p)%Z ->
  (Z.of_nat (S i) mod p = Z.of_nat (S t))%Z.
Proof.
  intros Hm Hlt. rewrite !Nat2Z.inj_succ, <- !Z.add_1_r.
  rewrite <- Zplus_mod_idemp_l, Hm. apply Z.mod_small. lia.
Qed.

Section LoopGroups.
Variables (T Blk : Type).
Variable run : Blk -> T -> option T.
Variable plus : T -> PyVal T -> option T.

Lemma loop_from_app (l1 l2 : list Blk) :
  forall i st,
    loop_from run plus i (l1 ++ l2) st =
    (st' <- loop_from run plus i l1 st ;;
     loop_from run plus (i + length l1) l2 st').
Proof.
  induction l1 as [|b l1 IH]; intros i st; simpl.
  - now rewrite Nat.add_0_r.
  - destruct (loop_body run plus i b st) as [st1|]; simpl; [|reflexivity].
    rewrite IH. now rewrite Nat.add_succ_comm.
Qed.

(** One iteration when the dictionary has the single key [p]. *)
Lemma loop_body_single (p : Z) (v : PyVal T) (i : nat) (b : Blk) (x : T) :
  p <> 0%Z ->
  loop_body run plus i b ([(p, v)], x) =
  (let v' := if (Z.of_nat i mod p =? 0)%Z then PTensor x else v in
   y <- run b x ;;
   z <- (if (Z.of_nat i mod p =? p - 1)%Z then plus y v' else Some y) ;;
   Some ([(p, v')], z)).
Proof.
  intros Hp. unfold loop_body. cbn [dict_keys map fst reset_phase].
  rewrite (py_mod_ok _ Hp). cbn [bind].
  destruct (Z.of_nat i mod p =? 0)%Z; cbn [dict_set];
    rewrite ?Z.eqb_refl; cbn [bind dict_keys map fst close_phase];
    rewrite (py_mod_ok _ Hp); cbn [bind];
    destruct (run b x) as [y|]; cbn [bind]; try reflexivity;
    destruct (Z.of_nat i mod p =? p - 1)%Z; cbn [dict_get bind];
    rewrite ?Z.eqb_refl; cbn [bind];
    try (destruct (plus y _); reflexivity); reflexivity.
Qed.

(** Iterations strictly inside a group neither reset nor close. *)
Lemma loop_from_inside (p : Z) (v : PyVal T) (G : list Blk) :
  forall i t x,
    (Z.of_nat i mod p = Z.of_nat t)%Z -> 0 < t ->
    (Z.of_nat (t + length G) < p)%Z ->
    loop_from run plus i G ([(p, v)], x) =
    (y <- run_all run G x ;; Some ([(p, v)], y)).
Proof.
  induction G as [|b G IH]; intros i t x Hm Ht Hlen;
    cbn [loop_from run_all]; [reflexivity|].
  simpl length in Hlen.
  rewrite loop_body_single by lia. cbv zeta.
  rewrite Hm.
  destruct (Z.eqb_spec (Z.of_nat t) 0) as [E|_]; [lia|].
  destruct (Z.eqb_spec (Z.of_nat t) (p - 1)) as [E|_]; [lia|].
  destruct (run b x) as [y|]; cbn [bind]; [|reflexivity].
  apply IH with (t := S t); try lia.
  apply succ_mod; [assumption | lia].
Qed.

(** A partial group at the start of a period: the buffer is reset at its
    first iteration and never added. *)
Lemma loop_from_partial (p : Z) (v : PyVal T) (G : list Blk) (i : nat)
  (x : T) :
  (Z.of_nat i mod p = 0)%Z -> (Z.of_nat (length G) < p)%Z ->
  loop_from run plus i G ([(p, v)], x) =
  (y <- run_all run G x ;;
   Some ([(p, match G with [] => v | _ :: _ => PTensor x end)], y)).
Proof.
  intros Hm Hlen. destruct G as [|b G]; [reflexivity|].
  simpl length in Hlen. cbn [loop_from run_all].
  rewrite loop_body_single by lia. cbv zeta. rewrite Hm.
  rewrite Z.eqb_refl.
  destruct (Z.eqb_spec 0 (p - 1)) as [E|_]; [lia|].
  destruct (run b x) as [y|]; cbn [bind]; [|reflexivity].
  apply loop_from_inside with (t := 1); try lia.
  apply succ_mod with (t := 0); [assumption | lia].
Qed.

(** A full group: the input of its first block is added to the output of
    its last. *)
Lemma loop_from_group (p : Z) (v : PyVal T) (G : list Blk) (i : nat) (x : T) :
  (Z.of_nat i mod p = 0)%Z -> Z.of_nat (length G) = p -> (1 <= p)%Z ->
  loop_from run plus i G ([(p, v)], x) =
  (z <- run_group run plus G x ;; Some ([(p, PTensor x)], z)).
Proof.
  intros Hm Hlen Hp.
  destruct (exists_last (l := G)) as (G' & b & ->).
  { intros ->. simpl in Hlen. lia. }
  rewrite length_app in Hlen. simpl length in Hlen.
  rewrite loop_from_app. unfold run_group.
  assert (Hra : forall x0, run_all run (G' ++ [b]) x0
                = (y <- run_all run G' x0 ;; run b y)).
  { clear. induction G' as [|c G' IH]; intros x0; simpl.
    - now destruct (run b x0).
    - destruct (run c x0); simpl; [apply IH | reflexivity]. }
  rewrite Hra.
  rewrite loop_from_partial by lia.
  assert (Hmod : (Z.of_nat (i + length G') mod p = p - 1)%Z).
  { rewrite Nat2Z.inj_add, <- Zplus_mod_idemp_l, Hm.
    replace (p - 1)%Z with (0 + Z.of_nat (length G'))%Z by lia.
    apply Z.mod_small. lia. }
  destruct G' as [|c G'].
  - assert (p = 1%Z) by (simpl in Hlen; lia). subst p.
    cbn [run_all bind loop_from length].
    rewrite loop_body_single by lia. cbv zeta.
    rewrite !Z.mod_1_r. cbn [Z.eqb Z.sub Z.add Z.opp Z.pos_sub].
    destruct (run b x) as [y'|]; cbn [bind]; [|reflexivity].
    now destruct (plus y' (PTensor x)).
  - destruct (run_all run (c :: G') x) as [y|]; cbn [bind]; [|reflexivity].
    cbn [loop_from]. rewrite loop_body_single by lia. cbv zeta.
    rewrite Hmod, Z.eqb_refl.
    destruct (Z.eqb_spec (p - 1) 0) as [E|_].
    { simpl length in Hlen. lia. }
    destruct (run b y) as [y'|]; cbn [bind]; [|reflexivity].
    now destruct (plus y' (PTensor x)).
Qed.

Lemma loop_from_groups (p : Z) (Gs : list (list Blk)) (tail : list Blk) :
  (1 <= p)%Z ->
  Forall (fun G => Z.of_nat (length G) = p) Gs ->
  (Z.of_nat (length tail) < p)%Z ->
  forall i v x,
    (Z.of_nat i mod p = 0)%Z ->
    option_map snd (loop_from run plus i (concat Gs ++ tail) ([(p, v)], x))
    = (y <- run_groups run plus Gs x ;; run_all run tail y).
Proof.
  intros Hp HG Ht. induction HG as [|G Gs HlG _ IH]; intros i v x Hm.
  - simpl concat. simpl app. simpl run_groups. cbn [bind].
    rewrite loop_from_partial by assumption.
    now destruct (run_all run tail x).
  - simpl concat. rewrite <- app_assoc, loop_from_app.
    rewrite loop_from_group by assumption.
    simpl run_groups.
    destruct (run_group run plus G x) as [z|]; cbn [bind]; [|reflexivity].
    apply IH.
    rewrite Nat2Z.inj_add, HlG, <- Zplus_mod_idemp_l, Hm.
    simpl. apply Z_mod_same_full.
Qed.

End LoopGroups.

(** ** Residual periods in [TransformerSR.forward] *)

Section TransformerSRPeriods.
Context {R : Type} {SR : Scalar R} {TR : Transcendental R}.

(** X5: A period listed a second time changes nothing: the dictionary has one
    entry per distinct period, so its buffer is added once. *)
Theorem TransformerSR_duplicate_period
  (m : TransformerSR R) (l1 l2 : list Z) (p : Z) (x : Tensor R) :
  residual_groups m = l1 ++ p :: l2 -> In p l1 ->
  TransformerSR_forward m x
  = TransformerSR_forward (with_residual_groups m (l1 ++ l2)) x.
Proof.
  intros Hg Hin. unfold TransformerSR_forward, with_residual_groups.
  cbn [residual_groups in_conv blocks out_conv upscale_factor].
  unfold residual_loop. rewrite Hg.
  now rewrite dict_fromkeys_drop_duplicate.
Qed.

(** X6: A zero period makes the forward pass raise as soon as there is one
    block pair ([i % 0]). *)
Theorem TransformerSR_zero_period (m : TransformerSR R) (x : Tensor R) :
  In 0%Z (residual_groups m) -> blocks m <> [] ->
  TransformerSR_forward m x = None.
Proof.
  intros Hin Hb. unfold TransformerSR_forward.
  destruct (Conv2d_forward (in_conv m) (sub_half x)) as [x0|];
    cbn [bind]; [|reflexivity].
  destruct (blocks m) as [|b rest]; [congruence|].
  now rewrite residual_loop_zero_period.
Qed.

(** X7: Periods that are negative or larger than the number of block pairs
    are accepted and have no effect: the pairs run one after the other with
    no skip connection. *)
Theorem TransformerSR_periods_without_effect
  (m : TransformerSR R) (x : Tensor R) :
  (forall p, In p (residual_groups m) ->
     (p < 0 \/ Z.of_nat (length (blocks m)) < p)%Z) ->
  TransformerSR_forward m x =
  (x0 <- Conv2d_forward (in_conv m) (sub_half x) ;;
   x1 <- run_all pair_forward (blocks m) x0 ;;
   c <- Conv2d_forward (out_conv m) x1 ;;
   s <- PixelShuffle_forward (upscale_factor m) c ;;
   Some (add_half s)).
Proof.
  intros H. unfold TransformerSR_forward.
  destruct (Conv2d_forward (in_conv m) (sub_half x)) as [x0|];
    cbn [bind]; [|reflexivity].
  now rewrite residual_loop_no_close.
Qed.


End TransformerSRPeriods.

(** ** When the forward passes raise *)

Section ForwardDomain.
Context {R : Type} {SR : Scalar R} {TR : Transcendental R}.

Lemma qkv_heads_indivisible (m : MultiHeadSelfAttention R) (tr : bool)
  (B N L C nh : nat) (x : Tensor R) :
  MultiHeadSelfAttention_built m C tr nh ->
  has_shape x [B; N; L; C] ->
  0 < B -> 0 < N -> 0 < L ->
  nh = 0 \/ C mod nh <> 0 ->
  qkv_heads m x = None.
Proof.
  intros (Hd & Ht & Hn & Hqkv & Hout) Hx HB HN HL Hdiv.
  unfold qkv_heads. rewrite (proj1 Hx), Hn.
  destruct (Nat.eq_dec nh 0) as [->|Hnh]; [reflexivity|].
  destruct Hdiv as [|Hdiv]; [contradiction|].
  rewrite floordiv_ok by assumption. cbn [bind].
  destruct (Linear_forward_shape [B; N; L] Hqkv Hx) as (x1 & E1 & S1).
  rewrite E1. cbn [bind]. unfold reshape. rewrite (proj1 S1).
  destruct (Nat.eqb_spec (numel [B; N; L; 3; nh; C / nh])
              (numel ([B; N; L] ++ [C * 3]))) as [E|_]; [|reflexivity].
  exfalso. simpl in E.
  pose proof (Nat.div_mod_eq C nh) as D.
  assert (Hlt : nh * (C / nh) < C) by lia.
  assert (E' : B * N * L * (3 * (nh * (C / nh))) = B * N * L * (3 * C))
    by lia.
  apply Nat.mul_cancel_l in E'; nia.
Qed.

(** X9: For a module built by [__init__] with [dim = C] and a [num_heads]
    that is a non-negative int, the attention forward pass raises on a
    non-empty (B, N, L, C) input exactly when [num_heads] is zero or does
    not divide [C].  (Negative head counts are outside the model and
    outside this statement.) *)
Theorem MultiHeadSelfAttention_forward_fails_iff
  (m : MultiHeadSelfAttention R) (tr : bool) (B N L C nh : nat)
  (x : Tensor R) :
  MultiHeadSelfAttention_built m C tr nh ->
  has_shape x [B; N; L; C] ->
  0 < B -> 0 < N -> 0 < L -> 0 < C ->
  (MultiHeadSelfAttention_forward m x = None <->
   nh = 0 \/ C mod nh <> 0).
Proof.
  intros Hm Hx HB HN HL HC. split.
  - intros Hnone.
    destruct (Nat.eq_dec nh 0) as [Hnh|Hnh]; [now left | right].
    intros Hdiv. apply Nat.Div0.div_exact in Hdiv.
    rewrite Hdiv in Hm, Hx.
    destruct (MultiHeadSelfAttention_forward_shape (C / nh) Hm
                ltac:(lia) Hx) as (y & E & _).
    congruence.
  - intros Hdiv. unfold MultiHeadSelfAttention_forward.
    now rewrite (qkv_heads_indivisible Hm Hx HB HN HL Hdiv).
Qed.

Lemma AttentionBlock_forward_indivisible (b : AttentionBlock R)
  (B C H W : nat) (x : Tensor R) :
  ab_transposed b = false ->
  has_shape x [B; C; H; W] ->
  0 < B -> 0 < C -> 0 < H -> 0 < W ->
  window_size b = 0 \/ H mod window_size b <> 0 \/ W mod window_size b <> 0 ->
  AttentionBlock_forward b x = None.
Proof.
  intros Ht Hx HB HC HH HW Hdiv. unfold AttentionBlock_forward.
  rewrite (proj1 Hx), Ht.
  destruct (Nat.eq_dec (window_size b) 0) as [E|Hw].
  - now rewrite E, window_partition_zero.
  - destruct Hdiv as [Hz|Hdiv]; [contradiction|].
    rewrite window_partition_indivisible
      with (B := B) (C := C) (H := H) (W := W);
      try assumption; [reflexivity | apply Hx].
Qed.

End ForwardDomain.

Lemma residual_loop_first_block_fails (T Blk : Type)
  (run : Blk -> T -> option T) (plus : T -> PyVal T -> option T)
  (groups : list Z) (b : Blk) (rest : list Blk) (x : T) :
  run b x = None -> residual_loop run plus groups (b :: rest) x = None.
Proof.
  intros Hb. unfold residual_loop. cbn [loop_from]. unfold loop_body.
  destruct (reset_phase _ _ _ _) as [d'|]; cbn [bind]; [|reflexivity].
  now rewrite Hb.
Qed.

Section NetworkDomain.
Context {R : Type} {SR : Scalar R} {TR : Transcendental R}.

(** X10: For a windowed block built by [__init__] with a window size that
    is a non-negative int and a positive [dim = num_heads * head_dim], the
    forward pass raises on a non-empty (B, dim, H, W) map exactly when the
    window size is zero or does not divide both sides.  (Negative window
    sizes are outside the model and outside this statement.) *)
Theorem AttentionBlock_forward_windowed_fails_iff
  (b : AttentionBlock R) (ws nh hd B H W : nat) (x : Tensor R) :
  AttentionBlock_built b (nh * hd) false ws nh ->
  0 < nh -> 0 < hd ->
  has_shape x [B; nh * hd; H; W] ->
  0 < B -> 0 < H -> 0 < W ->
  (AttentionBlock_forward b x = None <->
   ws = 0 \/ H mod ws <> 0 \/ W mod ws <> 0).
Proof.
  intros Hb Hnh Hhd Hx HB HH HW. split.
  - intros Hnone.
    destruct (Nat.eq_dec ws 0) as [Hws|Hws]; [now left | right].
    destruct (Nat.eq_dec (H mod ws) 0) as [DH|DH]; [|now left].
    destruct (Nat.eq_dec (W mod ws) 0) as [DW|DW]; [|now right].
    exfalso.
    apply Nat.Div0.div_exact in DH, DW.
    rewrite (Nat.mul_comm ws) in DH, DW. rewrite DH, DW in Hx.
    destruct (AttentionBlock_forward_windowed hd _ _ Hb Hnh Hws Hx)
      as (_ & _ & _ & _ & y & _ & _ & _ & _ & _ & _ & _ & E & _).
    congruence.
  - intros Hdiv. destruct Hb as (Hw & Ht & _).
    apply AttentionBlock_forward_indivisible
      with (B := B) (C := nh * hd) (H := H) (W := W);
      try assumption; [nia | now rewrite Hw].
Qed.

(** X11: With at least one block pair, [TransformerSR.forward] raises on every
    non-empty image whose sides are not both multiples of the window
    size. *)
Theorem TransformerSR_forward_rejects
  (m : TransformerSR R) (factor : nat) (groups : list Z)
  (num_blocks nh hd ws cin cout B H W : nat) (x : Tensor R) :
  TransformerSR_built m factor groups num_blocks (nh * hd) ws nh cin cout ->
  0 < num_blocks -> 0 < nh -> 0 < hd ->
  has_shape x [B; cin; H; W] ->
  0 < B -> 0 < H -> 0 < W ->
  ws = 0 \/ H mod ws <> 0 \/ W mod ws <> 0 ->
  TransformerSR_forward m x = None.
Proof.
  intros (Hg & Hin & Hlen & Hbl & Hout & Hf) Hnb Hnh Hhd Hx HB HH HW Hdiv.
  assert (Hx' : has_shape (sub_half x) [B; cin; H; W])
    by (apply has_shape_tmap; exact Hx).
  destruct (Conv2d_forward_shape Hin Hx') as (x0 & E0 & S0); try lia.
  rewrite !conv_out_size_same in S0 by assumption.
  unfold TransformerSR_forward. rewrite E0. cbn [bind].
  destruct (blocks m) as [|p rest] eqn:Eb; [simpl in Hlen; lia|].
  inversion Hbl as [|? ? [H1 _] _]; subst.
  rewrite residual_loop_first_block_fails; [reflexivity|].
  unfold pair_forward.
  destruct H1 as (Hw & Ht & _).
  rewrite AttentionBlock_forward_indivisible
    with (B := B) (C := nh * hd) (H := H) (W := W);
    try assumption; [reflexivity | nia | now rewrite Hw].
Qed.

End NetworkDomain.

(** ** The classifier's constructor *)

Lemma init_stages_short (dims : list nat) (ws nh : nat) :
  0 < length dims ->
  forall groups i acc,
    i <= length dims -> length dims < i + length groups ->
    init_stages i groups dims ws nh acc = None.
Proof.
  intros Hd. induction groups as [|g groups IH]; intros i acc Hi Hlen;
    simpl in Hlen; [lia|].
  cbn [init_stages].
  destruct (Nat.eq_dec i (length dims)) as [E|N].
  - destruct (Nat.ltb_spec 0 i) as [_|Hz]; [|lia].
    rewrite (nth_error_nth' dims 0 (n := i - 1)) by lia. cbn [bind].
    assert (Hn : nth_error dims i = None) by (apply nth_error_None; lia).
    now rewrite Hn.
  - assert (Hlt : i < length dims) by lia.
    destruct (Nat.ltb_spec 0 i) as [Hpos|Hz].
    + rewrite (nth_error_nth' dims 0 (n := i - 1)) by lia.
      rewrite (nth_error_nth' dims 0 (n := i)) by lia. cbn [bind].
      rewrite append_pairs_spec by lia. cbn [bind].
      apply IH; lia.
    + cbn [bind]. rewrite append_pairs_spec by lia. cbn [bind].
      apply IH; lia.
Qed.

Lemma Classifier_init_short (groups dims : list nat) (ws nh nc cin : nat) :
  dims = [] \/ length dims < length groups ->
  Classifier_init groups dims ws nh nc cin = None.
Proof.
  intros [->|Hlt]; [reflexivity|].
  destruct dims as [|d dims]; [reflexivity|].
  unfold Classifier_init. cbn [nth_error bind].
  rewrite init_stages_short; [reflexivity | simpl; lia | lia | lia].
Qed.

(** X12: For positive channel counts ([dims], [in_channels],
    [num_classes]) and group counts that are non-negative ints,
    [Classifier.__init__] raises exactly when [dims] is empty or shorter
    than [groups].  (Negative or zero sizes, which the layer constructors
    may reject, are outside this statement.) *)
Theorem Classifier_init_fails_iff (groups dims : list nat)
  (ws nh nc cin : nat) :
  Forall (fun d => 0 < d) dims -> 0 < cin -> 0 < nc ->
  (Classifier_init groups dims ws nh nc cin = None <->
   dims = [] \/ length dims < length groups).
Proof.
  intros _ _ _.
  split; [|apply Classifier_init_short].
  intros Hnone.
  destruct dims as [|d dims]; [now left | right].
  destruct (Nat.lt_ge_cases (length (d :: dims)) (length groups))
    as [Hlt|Hge]; [exact Hlt|].
  rewrite Classifier_init_layout in Hnone; [discriminate | simpl; lia |].
  exact Hge.
Qed.

Lemma length_pairs (A : Type) (a b : A) (g : nat) :
  length (concat (repeat [a; b] g)) = 2 * g.
Proof. induction g as [|g IH]; simpl; [reflexivity | rewrite IH; lia]. Qed.

Lemma length_stages (dims : list nat) (ws nh : nat) (groups : list nat) :
  forall i,
    length (concat (map (fun ig => stage_specs dims ws nh (fst ig) (snd ig))
                      (combine (seq i (length groups)) groups)))
    = (if 0 <? i then length groups else length groups - 1)
      + 2 * list_sum groups.
Proof.
  induction groups as [|g groups IH]; intros i.
  - simpl. now destruct (0 <? i).
  - change (list_sum (g :: groups)) with (g + list_sum groups).
    cbn [length seq combine map concat fst snd].
    rewrite length_app, IH. unfold stage_specs.
    rewrite length_app, length_pairs.
    destruct (Nat.ltb_spec 0 i); destruct (Nat.ltb_spec 0 (S i));
      simpl length; lia.
Qed.

(** X13: For group counts that are non-negative ints, a classifier that
    was constructed without error has
    [3 + len(groups) + 2 * sum(groups)] entries in [self.blocks] (one more
    when [groups] is empty): the input convolution, one downsampling
    convolution per stage after the first, two blocks per block pair, and
    the three closing layers.  (A negative count, for which [range] is
    empty, is outside the model and outside this statement.) *)
Theorem Classifier_blocks_length {R : Type} (m : Classifier R)
  (groups dims : list nat) (ws nh nc cin : nat) :
  Classifier_built m groups dims ws nh nc cin ->
  length (cls_blocks m)
  = 4 + (length groups - 1) + 2 * list_sum groups.
Proof.
  intros (specs & Hinit & Hb).
  rewrite <- (Forall2_length Hb).
  assert (Hok : ~ (dims = [] \/ length dims < length groups)).
  { intros H. apply Classifier_init_short with (ws := ws) (nh := nh) (nc := nc)
                                      (cin := cin) in H.
    rewrite H in Hinit. discriminate. }
  rewrite Classifier_init_layout in Hinit.
  - inversion Hinit; subst specs. unfold Classifier_layout.
    rewrite !length_app, length_stages. simpl. lia.
  - destruct dims; [exfalso; apply Hok; now left | simpl; lia].
  - destruct (Nat.lt_ge_cases (length dims) (length groups));
      [exfalso; apply Hok; now right | assumption].
Qed.

(** ** Attention acts on each window separately *)

Section AttentionLocality.
Context {R : Type} {SR : Scalar R} {TR : Transcendental R}.

Lemma get_flatten_last2 (t y : Tensor R) (pre bi : list nat)
  (a b i j : nat) :
  shape t = pre ++ [a; b] ->
  flatten_last2 t = Some y ->
  length bi = length pre ->
  get y (bi ++ [i * b + j]) = get t (bi ++ [i; j]).
Proof.
  intros Hs Hy Hl. unfold flatten_last2 in Hy.
  rewrite Hs, merge_last2_app in Hy. cbn [bind] in Hy.
  inversion Hy; subst y; clear Hy. unfold get. cbn [shape data].
  rewrite Hs, !ravel_app by assumption. f_equal. simpl. ring.
Qed.

Lemma softmax_row_ext_lt (n : nat) (s1 s2 : nat -> R) (j : nat) :
  j < n -> (forall k, k < n -> s1 k = s2 k) ->
  softmax_row n s1 j = softmax_row n s2 j.
Proof.
  intros Hj H. unfold softmax_row. rewrite (H j Hj). f_equal.
  apply sum_n_ext. intros k Hk. now rewrite H.
Qed.

Lemma head_entry_local (m : MultiHeadSelfAttention R) (x x' : Tensor R)
  (hd L C b n : nat) :
  in_features (qkv m) = C ->
  (forall l c, l < L -> c < C -> get x [b; n; l; c] = get x' [b; n; l; c]) ->
  forall w h l d, l < L ->
    head_entry m x hd w b n h l d = head_entry m x' hd w b n h l d.
Proof.
  intros Hin Hx w h l d Hl. unfold head_entry, qkv_proj. f_equal.
  apply sum_n_ext. intros c Hc. rewrite Hx; [reflexivity | assumption|].
  now rewrite <- Hin.
Qed.

(** The heads computed for window [(b, n)] read the input only inside that
    window. *)
Lemma attention_heads_local (m : MultiHeadSelfAttention R) (tr : bool)
  (x x' : Tensor R) (B N L nh hd b n : nat) :
  in_features (qkv m) = nh * hd -> num_heads m = nh ->
  b < B -> n < N ->
  (forall l c, l < L -> c < nh * hd ->
     get x [b; n; l; c] = get x' [b; n; l; c]) ->
  forall l h d, l < L -> h < nh -> d < hd ->
    get (if tr
         then attention_T (scores_T_factors m x L hd) m x B N L hd
         else attention_std (scores_std_factors m x hd) m x B N L hd)
        [b; n; l; h; d]
    = get (if tr
           then attention_T (scores_T_factors m x' L hd) m x' B N L hd
           else attention_std (scores_std_factors m x' hd) m x' B N L hd)
          [b; n; l; h; d].
Proof.
  intros Hin Hn Hb Hn' Hx l h d Hl Hh Hd.
  pose proof (@head_entry_local m x x' hd L (nh * hd) b n Hin Hx) as HE.
  destruct tr; unfold attention_T, attention_std; rewrite Hn;
    rewrite !get_tabulate by bounds.
  - apply sum_n_ext. intros d2 Hd2. rewrite (HE 2 h l d2 Hl). f_equal.
    apply softmax_row_ext_lt; [assumption|].
    intros d2' _. unfold scores_T_factors.
    apply sum_n_ext. intros l' Hl'.
    now rewrite (HE 0 h l' d Hl'), (HE 1 h l' d2' Hl').
  - apply sum_n_ext. intros j Hj. rewrite (HE 2 h j d Hj). f_equal.
    apply softmax_row_ext_lt; [assumption|].
    intros j' Hj'. unfold scores_std_factors.
    apply sum_n_ext. intros d' _.
    now rewrite (HE 0 h l d' Hl), (HE 1 h j' d' Hj').
Qed.

(** The rows of the output at window [(b, n)] are a function of the rows
    of the input at window [(b, n)]. *)
Lemma attention_rows_agree
  (m : MultiHeadSelfAttention R) (tr : bool) (B N L nh hd b n : nat)
  (x x' y y' : Tensor R) :
  MultiHeadSelfAttention_built m (nh * hd) tr nh -> 0 < nh ->
  has_shape x [B; N; L; nh * hd] -> has_shape x' [B; N; L; nh * hd] ->
  b < B -> n < N ->
  (forall l c, l < L -> c < nh * hd ->
     get x [b; n; l; c] = get x' [b; n; l; c]) ->
  MultiHeadSelfAttention_forward m x = Some y ->
  MultiHeadSelfAttention_forward m x' = Some y' ->
  forall l c, l < L -> c < nh * hd ->
    get y [b; n; l; c] = get y' [b; n; l; c].
Proof.
  intros Hm Hnh Hx Hx' Hb Hn Hagree Ey Ey' l c Hl Hc.
  destruct (MultiHeadSelfAttention_forward_factors hd Hm Hnh Hx) as [_ Ef].
  destruct (MultiHeadSelfAttention_forward_factors hd Hm Hnh Hx') as [_ Ef'].
  destruct Hm as (Hd & Ht & Hnm & (Hqi & _) & (Hoi & Hoo & _)).
  rewrite Ey in Ef. rewrite Ey' in Ef'.
  symmetry in Ef, Ef'.
  apply bind_Some in Ef as (f & Ff & Lf).
  apply bind_Some in Ef' as (f' & Ff' & Lf').
  set (A := if tr then _ else _) in Ff.
  set (A' := if tr then _ else _) in Ff'.
  assert (SA : shape A = [B; N; L] ++ [nh; hd]).
  { subst A. destruct tr; unfold attention_T, attention_std;
      now rewrite shape_tabulate, Hnm. }
  assert (SA' : shape A' = [B; N; L] ++ [nh; hd]).
  { subst A'. destruct tr; unfold attention_T, attention_std;
      now rewrite shape_tabulate, Hnm. }
  assert (Sf : shape f = [B; N; L] ++ [in_features (out m)]).
  { unfold flatten_last2 in Ff. rewrite SA, merge_last2_app in Ff.
    cbn [bind] in Ff. inversion Ff. now rewrite Hoi. }
  assert (Sf' : shape f' = [B; N; L] ++ [in_features (out m)]).
  { unfold flatten_last2 in Ff'. rewrite SA', merge_last2_app in Ff'.
    cbn [bind] in Ff'. inversion Ff'. now rewrite Hoi. }
  change (get y [b; n; l; c]) with (get y ([b; n; l] ++ [c])).
  change (get y' [b; n; l; c]) with (get y' ([b; n; l] ++ [c])).
  rewrite (@get_Linear_forward _ _ (out m) f y [B; N; L] [b; n; l] c Sf Lf)
    by (rewrite ?Hoo; bounds).
  rewrite (@get_Linear_forward _ _ (out m) f' y' [B; N; L] [b; n; l] c
             Sf' Lf') by (rewrite ?Hoo; bounds).
  f_equal. apply sum_n_ext. intros i Hi. f_equal. rewrite Hoi in Hi.
  assert (Hhd : 0 < hd) by nia.
  assert (Ei : i = i / hd * hd + i mod hd)
    by (pose proof (Nat.div_mod_eq i hd); lia).
  assert (Hq : i / hd < nh).
  { apply Nat.Div0.div_lt_upper_bound. lia. }
  assert (Hr : i mod hd < hd) by (apply Nat.mod_upper_bound; lia).
  rewrite Ei.
  rewrite (@get_flatten_last2 A f [B; N; L] [b; n; l] nh hd _ _ SA Ff)
    by reflexivity.
  rewrite (@get_flatten_last2 A' f' [B; N; L] [b; n; l] nh hd _ _ SA' Ff')
    by reflexivity.
  cbn [app]. subst A A'.
  apply attention_heads_local with (nh := nh); assumption.
Qed.

(** X14: Attention is computed for each batch entry and each window on its own:
    if two inputs agree on window [n] of batch entry [b], so do the
    outputs of the forward pass, whatever the inputs hold elsewhere. *)
Theorem MultiHeadSelfAttention_forward_local
  (m : MultiHeadSelfAttention R) (tr : bool) (B N L nh hd b n : nat)
  (x x' : Tensor R) :
  MultiHeadSelfAttention_built m (nh * hd) tr nh -> 0 < nh ->
  has_shape x [B; N; L; nh * hd] -> has_shape x' [B; N; L; nh * hd] ->
  b < B -> n < N ->
  (forall l c, l < L -> c < nh * hd ->
     get x [b; n; l; c] = get x' [b; n; l; c]) ->
  exists y y',
    MultiHeadSelfAttention_forward m x = Some y /\
    MultiHeadSelfAttention_forward m x' = Some y' /\
    forall l c, l < L -> c < nh * hd ->
      get y [b; n; l; c] = get y' [b; n; l; c].
Proof.
  intros Hm Hnh Hx Hx' Hb Hn Hagree.
  destruct (MultiHeadSelfAttention_forward_shape hd Hm Hnh Hx)
    as (y & Ey & _).
  destruct (MultiHeadSelfAttention_forward_shape hd Hm Hnh Hx')
    as (y' & Ey' & _).
  exists y, y'. split; [exact Ey|]. split; [exact Ey'|].
  apply (@attention_rows_agree m tr B N L nh hd b n x x' y y');
    assumption.
Qed.

End AttentionLocality.

(** ** What an attention block reads *)

Section BlockLocality.
Context {R : Type} {SR : Scalar R} {TR : Transcendental R}.

Lemma nth_zip_with (g : R -> R -> R) (l1 l2 : list R) (k : nat) (d : R) :
  k < length l1 -> k < length l2 ->
  nth k (zip_with g l1 l2) d = g (nth k l1 d) (nth k l2 d).
Proof.
  revert l2 k. induction l1 as [|a l1 IH]; intros [|b l2] [|k] H1 H2;
    simpl in *; try lia; [reflexivity|].
  apply IH; lia.
Qed.

Lemma get_tensor_add (a b y : Tensor R) (s idx : list nat) :
  has_shape a s -> has_shape b s -> tensor_add a b = Some y ->
  in_bounds s idx -> get y idx = add (get a idx) (get b idx).
Proof.
  intros [Sa Wa] [Sb Wb] Hy Hi. unfold tensor_add in Hy.
  rewrite Sa, Sb, shape_eqb_refl in Hy. inversion Hy; subst y; clear Hy.
  unfold get. cbn [shape data]. rewrite Sa, Sb.
  pose proof (ravel_lt _ _ Hi) as Hlt.
  apply nth_zip_with; [rewrite Wa, Sa | rewrite Wb, Sb]; exact Hlt.
Qed.

Lemma LayerNorm_forward_ok (l : LayerNorm R) (x : Tensor R) :
  shape x <> [] -> last (shape x) 0 = normalized_shape l ->
  LayerNorm_forward l x =
  Some (tabulate (shape x)
          (fun idx =>
             let n := normalized_shape l in
             let c := last idx 0 in
             let mean :=
               div (sum_n n (fun j => get x (set_last idx j)))
                   (of_int (Z.of_nat n)) in
             let var :=
               div (sum_n n (fun j =>
                      let e := sub (get x (set_last idx j)) mean in
                      mul e e))
                   (of_int (Z.of_nat n)) in
             add (mul (div (sub (get x idx) mean) (sqrt (add var ln_eps)))
                      (get (ln_weight l) [c]))
                 (get (ln_bias l) [c]))).
Proof.
  intros H E. unfold LayerNorm_forward. cbv zeta.
  rewrite E, Nat.eqb_refl.
  destruct (shape x); [congruence | reflexivity].
Qed.

(** Layer normalisation works row by row. *)
Lemma LayerNorm_forward_row (l : LayerNorm R) (x x' y y' : Tensor R)
  (pre bi : list nat) :
  shape x = pre ++ [normalized_shape l] ->
  shape x' = pre ++ [normalized_shape l] ->
  LayerNorm_forward l x = Some y -> LayerNorm_forward l x' = Some y' ->
  in_bounds pre bi ->
  (forall c, c < normalized_shape l ->
     get x (bi ++ [c]) = get x' (bi ++ [c])) ->
  forall c, c < normalized_shape l ->
    get y (bi ++ [c]) = get y' (bi ++ [c]).
Proof.
  intros Hs Hs' Hy Hy' Hb Hx c Hc.
  rewrite LayerNorm_forward_ok in Hy, Hy';
    try (rewrite ?Hs, ?Hs'; apply last_app_single);
    try (rewrite ?Hs, ?Hs'; destruct pre; discriminate).
  inversion Hy; subst y; clear Hy. inversion Hy'; subst y'; clear Hy'.
  assert (Hi : in_bounds (pre ++ [normalized_shape l]) (bi ++ [c])).
  { apply in_bounds_app; [assumption|]. simpl. auto. }
  rewrite !get_tabulate by (rewrite ?Hs, ?Hs'; exact Hi).
  cbv zeta.
  assert (G : forall j, j < normalized_shape l ->
              get x (set_last (bi ++ [c]) j)
              = get x' (set_last (bi ++ [c]) j)).
  { intros j Hj. rewrite set_last_app. now apply Hx. }
  assert (M : sum_n (normalized_shape l)
                (fun j => get x (set_last (bi ++ [c]) j))
              = sum_n (normalized_shape l)
                  (fun j => get x' (set_last (bi ++ [c]) j)))
    by (apply sum_n_ext; exact G).
  rewrite (Hx c Hc), M. do 6 f_equal.
  apply sum_n_ext. intros j Hj. now rewrite (G j Hj).
Qed.

(** A linear layer works row by row. *)
Lemma Linear_forward_row (l : Linear R) (x x' y y' : Tensor R)
  (pre bi : list nat) :
  shape x = pre ++ [in_features l] -> shape x' = pre ++ [in_features l] ->
  Linear_forward l x = Some y -> Linear_forward l x' = Some y' ->
  in_bounds pre bi ->
  (forall c, c < in_features l -> get x (bi ++ [c]) = get x' (bi ++ [c])) ->
  forall o, o < out_features l -> get y (bi ++ [o]) = get y' (bi ++ [o]).
Proof.
  intros Hs Hs' Hy Hy' Hb Hx o Ho.
  rewrite (@get_Linear_forward _ _ l x y pre bi o Hs Hy Hb Ho).
  rewrite (@get_Linear_forward _ _ l x' y' pre bi o Hs' Hy' Hb Ho).
  f_equal. apply sum_n_ext. intros i Hi. now rewrite (Hx i Hi).
Qed.

(** Every step of [block_core], with the shape of what it returns. *)
Lemma block_core_steps (b : AttentionBlock R) (tr : bool)
  (ws nh hd B N L : nat) (x y : Tensor R) :
  AttentionBlock_built b (nh * hd) tr ws nh -> 0 < nh ->
  has_shape x [B; N; L; nh * hd] ->
  block_core b x = Some y ->
  exists n1 a s1 n2 h f,
    LayerNorm_forward (norm1 b) x = Some n1 /\
    has_shape n1 [B; N; L; nh * hd] /\
    MultiHeadSelfAttention_forward (window_attention b) n1 = Some a /\
    has_shape a [B; N; L; nh * hd] /\
    tensor_add x a = Some s1 /\
    has_shape s1 [B; N; L; nh * hd] /\
    LayerNorm_forward (norm2 b) s1 = Some n2 /\
    has_shape n2 [B; N; L; nh * hd] /\
    Linear_forward (mlp_fc1 b) n2 = Some h /\
    has_shape h [B; N; L; nh * hd * 4] /\
    Linear_forward (mlp_fc2 b) (gelu h) = Some f /\
    has_shape f [B; N; L; nh * hd] /\
    tensor_add s1 f = Some y.
Proof.
  intros (_ & _ & Hatt & Hfc1 & Hfc2 & Hn1 & Hn2) Hnh Hx Hy.
  destruct (LayerNorm_forward_shape [B; N; L] Hn1 Hx) as (n1 & E1 & S1).
  destruct (MultiHeadSelfAttention_forward_shape hd Hatt Hnh S1)
    as (a & E2 & S2).
  destruct (tensor_add_shape Hx S2) as (s1 & E3 & S3).
  destruct (LayerNorm_forward_shape [B; N; L] Hn2 S3) as (n2 & E4 & S4).
  destruct (Linear_forward_shape [B; N; L] Hfc1 S4) as (h & E5 & S5).
  pose proof (has_shape_tmap gelu_fn S5) as S5'.
  destruct (Linear_forward_shape [B; N; L] Hfc2 S5') as (f & E6 & S6).
  change (tmap gelu_fn h) with (gelu h) in E6.
  unfold block_core, mlp_forward in Hy.
  rewrite E1 in Hy. cbn [bind] in Hy. rewrite E2 in Hy. cbn [bind] in Hy.
  rewrite E3 in Hy. cbn [bind] in Hy. rewrite E4 in Hy. cbn [bind] in Hy.
  rewrite E5 in Hy. cbn [bind] in Hy. rewrite E6 in Hy. cbn [bind] in Hy.
  exists n1, a, s1, n2, h, f.
  repeat match goal with |- _ /\ _ => split end; assumption.
Qed.

(** The two residual sub-layers keep windows apart: the output rows of
    window [(i, n)] are a function of the input rows of that window. *)
Lemma block_core_local (b : AttentionBlock R) (tr : bool)
  (ws nh hd B N L i n : nat) (x x' y y' : Tensor R) :
  AttentionBlock_built b (nh * hd) tr ws nh -> 0 < nh ->
  has_shape x [B; N; L; nh * hd] -> has_shape x' [B; N; L; nh * hd] ->
  i < B -> n < N ->
  (forall l c, l < L -> c < nh * hd ->
     get x [i; n; l; c] = get x' [i; n; l; c]) ->
  block_core b x = Some y -> block_core b x' = Some y' ->
  forall l c, l < L -> c < nh * hd ->
    get y [i; n; l; c] = get y' [i; n; l; c].
Proof.
  intros Hb Hnh Hx Hx' Hi Hn A0 Hy Hy'.
  destruct (block_core_steps hd Hb Hnh Hx Hy)
    as (n1 & a & s1 & n2 & h & f & E1 & S1 & E2 & S2 & E3 & S3 & E4 & S4
        & E5 & S5 & E6 & S6 & E7).
  destruct (block_core_steps hd Hb Hnh Hx' Hy')
    as (n1' & a' & s1' & n2' & h' & f' & E1' & S1' & E2' & S2' & E3' & S3'
        & E4' & S4' & E5' & S5' & E6' & S6' & E7').
  destruct Hb as (_ & _ & Hatt & Hfc1 & Hfc2 & Hn1 & Hn2).
  destruct Hn1 as (Dn1 & _). destruct Hn2 as (Dn2 & _).
  destruct Hfc1 as (I1 & O1 & _). destruct Hfc2 as (I2 & O2 & _).
  assert (A1 : forall l c, l < L -> c < nh * hd ->
               get n1 [i; n; l; c] = get n1' [i; n; l; c]).
  { intros l c Hl Hc.
    apply (@LayerNorm_forward_row (norm1 b) x x' n1 n1' [B; N; L] [i; n; l]);
      rewrite ?Dn1; try assumption; try apply Hx; try apply Hx'; [bounds|].
    intros c' Hc'. now apply A0. }
  assert (A2 : forall l c, l < L -> c < nh * hd ->
               get a [i; n; l; c] = get a' [i; n; l; c]).
  { apply (@attention_rows_agree _ _ _ (window_attention b) tr B N L nh hd
             i n n1 n1' a a'); assumption. }
  assert (A3 : forall l c, l < L -> c < nh * hd ->
               get s1 [i; n; l; c] = get s1' [i; n; l; c]).
  { intros l c Hl Hc.
    rewrite (@get_tensor_add x a s1 [B; N; L; nh * hd] [i; n; l; c]
               Hx S2 E3) by bounds.
    rewrite (@get_tensor_add x' a' s1' [B; N; L; nh * hd] [i; n; l; c]
               Hx' S2' E3') by bounds.
    now rewrite A0, A2. }
  assert (A4 : forall l c, l < L -> c < nh * hd ->
               get n2 [i; n; l; c] = get n2' [i; n; l; c]).
  { intros l c Hl Hc.
    apply (@LayerNorm_forward_row (norm2 b) s1 s1' n2 n2' [B; N; L]
             [i; n; l]);
      rewrite ?Dn2; try assumption; try apply S3; try apply S3'; [bounds|].
    intros c' Hc'. now apply A3. }
  assert (A5 : forall l c, l < L -> c < nh * hd * 4 ->
               get h [i; n; l; c] = get h' [i; n; l; c]).
  { intros l c Hl Hc.
    apply (@Linear_forward_row (mlp_fc1 b) n2 n2' h h' [B; N; L] [i; n; l]);
      rewrite ?I1, ?O1; try assumption; try apply S4; try apply S4';
      [bounds|].
    intros c' Hc'. now apply A4. }
  assert (A6 : forall l c, l < L -> c < nh * hd * 4 ->
               get (gelu h) [i; n; l; c] = get (gelu h') [i; n; l; c]).
  { intros l c Hl Hc. unfold gelu.
    rewrite !get_tmap; try apply S5; try apply S5';
      try (rewrite ?(proj1 S5), ?(proj1 S5'); bounds).
    now rewrite A5. }
  assert (A7 : forall l c, l < L -> c < nh * hd ->
               get f [i; n; l; c] = get f' [i; n; l; c]).
  { intros l c Hl Hc.
    apply (@Linear_forward_row (mlp_fc2 b) (gelu h) (gelu h') f f'
             [B; N; L] [i; n; l]);
      rewrite ?I2, ?O2; try assumption;
      try (unfold gelu, tmap; cbn [shape]; apply S5);
      try (unfold gelu, tmap; cbn [shape]; apply S5'); [bounds|].
    intros c' Hc'. now apply A6. }
  intros l c Hl Hc.
  rewrite (@get_tensor_add s1 f y [B; N; L; nh * hd] [i; n; l; c]
             S3 S6 E7) by bounds.
  rewrite (@get_tensor_add s1' f' y' [B; N; L; nh * hd] [i; n; l; c]
             S3' S6' E7') by bounds.
  now rewrite A3, A7.
Qed.

End BlockLocality.

Section BlockWindows.
Context {R : Type} {SR : Scalar R} {TR : Transcendental R}.

Lemma get_spatial_flatten (x y : Tensor R) (pre ipre : list nat)
  (C H W c h w : nat) :
  has_shape x (pre ++ [C; H; W]) -> spatial_flatten x = Some y ->
  in_bounds pre ipre -> c < C -> h < H -> w < W ->
  get y (ipre ++ [h * W + w; c]) = get x (ipre ++ [c; h; w]).
Proof.
  intros Hx Hy Hi Hc Hh Hw.
  destruct (spatial_flatten_ok _ _ _ _ Hx)
    as (x1 & y0 & _ & _ & E & _ & _ & G).
  assert (y0 = y) by congruence. subst y0. now apply G.
Qed.

Lemma get_spatial_unflatten (y u : Tensor R) (pre ipre : list nat)
  (C H W c h w : nat) :
  has_shape y (pre ++ [H * W; C]) -> spatial_unflatten y H W = Some u ->
  in_bounds pre ipre -> c < C -> h < H -> w < W ->
  get u (ipre ++ [c; h; w]) = get y (ipre ++ [h * W + w; c]).
Proof.
  intros Hy Hu Hi Hc Hh Hw.
  destruct (spatial_unflatten_shape _ _ _ _ Hy) as (u0 & E & Su).
  assert (u0 = u) by congruence. subst u0.
  pose proof (flatten_after_unflatten _ _ _ _ Hy) as F.
  rewrite E in F. cbn [bind] in F.
  symmetry.
  exact (@get_spatial_flatten u y pre ipre C H W c h w Su F Hi Hc Hh Hw).
Qed.

Lemma get_unsqueeze1 (x y : Tensor R) (B C H W b c h w : nat) :
  shape x = [B; C; H; W] -> unsqueeze1 x = Some y ->
  get y [b; 0; c; h; w] = get x [b; c; h; w].
Proof.
  intros Hs Hy. unfold unsqueeze1 in Hy. rewrite Hs in Hy.
  inversion Hy; subst y; clear Hy. unfold get. cbn [shape data].
  rewrite Hs. f_equal. simpl. ring.
Qed.

Lemma get_squeeze1 (u y : Tensor R) (B C H W b c h w : nat) :
  shape u = [B; 1; C; H; W] -> squeeze1 u = Some y ->
  get y [b; c; h; w] = get u [b; 0; c; h; w].
Proof.
  intros Hs Hy. unfold squeeze1 in Hy. rewrite Hs in Hy.
  inversion Hy; subst y; clear Hy. unfold get. cbn [shape data].
  rewrite Hs. f_equal. simpl. ring.
Qed.

Lemma AttentionBlock_window_agree (b : AttentionBlock R)
  (ws nh hd B h v i hy wx : nat) (x x' y y' : Tensor R) :
  AttentionBlock_built b (nh * hd) false ws nh -> 0 < nh -> ws <> 0 ->
  has_shape x [B; nh * hd; h * ws; v * ws] ->
  has_shape x' [B; nh * hd; h * ws; v * ws] ->
  i < B -> hy < h -> wx < v ->
  (forall c p q, c < nh * hd -> p < ws -> q < ws ->
     get x [i; c; hy * ws + p; wx * ws + q]
     = get x' [i; c; hy * ws + p; wx * ws + q]) ->
  AttentionBlock_forward b x = Some y ->
  AttentionBlock_forward b x' = Some y' ->
  forall c p q, c < nh * hd -> p < ws -> q < ws ->
    get y [i; c; hy * ws + p; wx * ws + q]
    = get y' [i; c; hy * ws + p; wx * ws + q].
Proof.
  intros Hb Hnh Hws Hx Hx' Hi Hhy Hwx A F F'.
  destruct (AttentionBlock_forward_windowed hd h v Hb Hnh Hws Hx)
    as (win & seq & s2 & u & y0 & E1 & S1 & E2 & S2 & E3 & E4 & E5 & EF & Sy).
  destruct (AttentionBlock_forward_windowed hd h v Hb Hnh Hws Hx')
    as (win' & seq' & s2' & u' & y0' & E1' & S1' & E2' & S2' & E3' & E4'
        & E5' & EF' & Sy').
  assert (y0 = y) by congruence. assert (y0' = y') by congruence.
  subst y0 y0'.
  assert (Hn : hy * v + wx < h * v) by nia.
  assert (S3 : has_shape s2 [B; h * v; ws * ws; nh * hd]).
  { destruct (block_core_ok hd Hb Hnh S2)
      as (? & ? & ? & ? & ? & ? & s & _ & _ & _ & _ & _ & _ & _ & _ & E & S).
    congruence. }
  assert (S3' : has_shape s2' [B; h * v; ws * ws; nh * hd]).
  { destruct (block_core_ok hd Hb Hnh S2')
      as (? & ? & ? & ? & ? & ? & s & _ & _ & _ & _ & _ & _ & _ & _ & E & S).
    congruence. }
  assert (S4 : has_shape u [B; h * v; nh * hd; ws; ws]).
  { destruct (spatial_unflatten_shape [B; h * v] _ _ _ S3) as (? & E & S).
    cbn [app] in S. congruence. }
  assert (S4' : has_shape u' [B; h * v; nh * hd; ws; ws]).
  { destruct (spatial_unflatten_shape [B; h * v] _ _ _ S3') as (? & E & S).
    cbn [app] in S. congruence. }
  assert (Aseq : forall l c, l < ws * ws -> c < nh * hd ->
             get seq [i; hy * v + wx; l; c]
             = get seq' [i; hy * v + wx; l; c]).
  { intros l c Hl Hc.
    assert (El : l = l / ws * ws + l mod ws)
      by (pose proof (Nat.div_mod_eq l ws); lia).
    assert (Hq : l / ws < ws)
      by (apply Nat.Div0.div_lt_upper_bound; lia).
    assert (Hr : l mod ws < ws) by (apply Nat.mod_upper_bound; lia).
    rewrite El.
    change (get seq [i; hy * v + wx; l / ws * ws + l mod ws; c])
      with (get seq ([i; hy * v + wx] ++ [l / ws * ws + l mod ws; c])).
    change (get seq' [i; hy * v + wx; l / ws * ws + l mod ws; c])
      with (get seq' ([i; hy * v + wx] ++ [l / ws * ws + l mod ws; c])).
    rewrite (@get_spatial_flatten win seq [B; h * v] [i; hy * v + wx]
               (nh * hd) ws ws c (l / ws) (l mod ws) S1 E2)
      by bounds.
    rewrite (@get_spatial_flatten win' seq' [B; h * v] [i; hy * v + wx]
               (nh * hd) ws ws c (l / ws) (l mod ws) S1' E2')
      by bounds.
    cbn [app].
    rewrite (get_window_partition Hx Hws E1) by assumption.
    rewrite (get_window_partition Hx' Hws E1') by assumption.
    now apply A. }
  pose proof (@block_core_local _ _ _ b false ws nh hd B (h * v) (ws * ws)
                i (hy * v + wx) seq seq' s2 s2' Hb Hnh S2 S2' Hi Hn Aseq
                E3 E3') as As2.
  intros c p q Hc Hp Hq.
  rewrite (get_window_unpartition S4 Hws E5) by assumption.
  rewrite (get_window_unpartition S4' Hws E5') by assumption.
  change (get u [i; hy * v + wx; c; p; q])
    with (get u ([i; hy * v + wx] ++ [c; p; q])).
  change (get u' [i; hy * v + wx; c; p; q])
    with (get u' ([i; hy * v + wx] ++ [c; p; q])).
  rewrite (@get_spatial_unflatten s2 u [B; h * v] [i; hy * v + wx]
             (nh * hd) ws ws c p q S3 E4) by bounds.
  rewrite (@get_spatial_unflatten s2' u' [B; h * v] [i; hy * v + wx]
             (nh * hd) ws ws c p q S3' E4') by bounds.
  cbn [app]. apply As2; [nia | assumption].
Qed.

(** X15: A windowed block never looks across a window border: what it returns
    inside window [(hy, wx)] of batch entry [i] is a function of what the
    input holds inside that window. *)
Theorem AttentionBlock_forward_window_local (b : AttentionBlock R)
  (ws nh hd B h v i hy wx : nat) (x x' : Tensor R) :
  AttentionBlock_built b (nh * hd) false ws nh -> 0 < nh -> ws <> 0 ->
  has_shape x [B; nh * hd; h * ws; v * ws] ->
  has_shape x' [B; nh * hd; h * ws; v * ws] ->
  i < B -> hy < h -> wx < v ->
  (forall c p q, c < nh * hd -> p < ws -> q < ws ->
     get x [i; c; hy * ws + p; wx * ws + q]
     = get x' [i; c; hy * ws + p; wx * ws + q]) ->
  exists y y',
    AttentionBlock_forward b x = Some y /\
    AttentionBlock_forward b x' = Some y' /\
    forall c p q, c < nh * hd -> p < ws -> q < ws ->
      get y [i; c; hy * ws + p; wx * ws + q]
      = get y' [i; c; hy * ws + p; wx * ws + q].
Proof.
  intros Hb Hnh Hws Hx Hx' Hi Hhy Hwx A.
  destruct (AttentionBlock_forward_windowed hd h v Hb Hnh Hws Hx)
    as (_ & _ & _ & _ & y & _ & _ & _ & _ & _ & _ & _ & EF & _).
  destruct (AttentionBlock_forward_windowed hd h v Hb Hnh Hws Hx')
    as (_ & _ & _ & _ & y' & _ & _ & _ & _ & _ & _ & _ & EF' & _).
  exists y, y'. split; [exact EF|]. split; [exact EF'|].
  apply (@AttentionBlock_window_agree b ws nh hd B h v i hy wx x x' y y');
    assumption.
Qed.

Lemma AttentionBlock_transposed_agree (b : AttentionBlock R)
  (ws nh hd B H W i : nat) (x x' y y' : Tensor R) :
  AttentionBlock_built b (nh * hd) true ws nh -> 0 < nh ->
  has_shape x [B; nh * hd; H; W] -> has_shape x' [B; nh * hd; H; W] ->
  i < B ->
  (forall c p q, c < nh * hd -> p < H -> q < W ->
     get x [i; c; p; q] = get x' [i; c; p; q]) ->
  AttentionBlock_forward b x = Some y ->
  AttentionBlock_forward b x' = Some y' ->
  forall c p q, c < nh * hd -> p < H -> q < W ->
    get y [i; c; p; q] = get y' [i; c; p; q].
Proof.
  intros Hb Hnh Hx Hx' Hi A F F'.
  destruct (AttentionBlock_forward_transposed hd Hb Hnh Hx)
    as (win & seq & s2 & u & y0 & E1 & S1 & E2 & S2 & E3 & E4 & E5 & EF & Sy).
  destruct (AttentionBlock_forward_transposed hd Hb Hnh Hx')
    as (win' & seq' & s2' & u' & y0' & E1' & S1' & E2' & S2' & E3' & E4'
        & E5' & EF' & Sy').
  assert (y0 = y) by congruence. assert (y0' = y') by congruence.
  subst y0 y0'.
  assert (S3 : has_shape s2 [B; 1; H * W; nh * hd]).
  { destruct (block_core_ok hd Hb Hnh S2)
      as (? & ? & ? & ? & ? & ? & s & _ & _ & _ & _ & _ & _ & _ & _ & E & S).
    congruence. }
  assert (S3' : has_shape s2' [B; 1; H * W; nh * hd]).
  { destruct (block_core_ok hd Hb Hnh S2')
      as (? & ? & ? & ? & ? & ? & s & _ & _ & _ & _ & _ & _ & _ & _ & E & S).
    congruence. }
  assert (S4 : has_shape u [B; 1; nh * hd; H; W]).
  { destruct (spatial_unflatten_shape [B; 1] _ _ _ S3) as (? & E & S).
    cbn [app] in S. congruence. }
  assert (S4' : has_shape u' [B; 1; nh * hd; H; W]).
  { destruct (spatial_unflatten_shape [B; 1] _ _ _ S3') as (? & E & S).
    cbn [app] in S. congruence. }
  assert (Aseq : forall l c, l < H * W -> c < nh * hd ->
             get seq [i; 0; l; c] = get seq' [i; 0; l; c]).
  { intros l c Hl Hc.
    assert (HW : 0 < W) by nia.
    assert (El : l = l / W * W + l mod W)
      by (pose proof (Nat.div_mod_eq l W); lia).
    assert (Hq : l / W < H)
      by (apply Nat.Div0.div_lt_upper_bound; lia).
    assert (Hr : l mod W < W) by (apply Nat.mod_upper_bound; lia).
    rewrite El.
    change (get seq [i; 0; l / W * W + l mod W; c])
      with (get seq ([i; 0] ++ [l / W * W + l mod W; c])).
    change (get seq' [i; 0; l / W * W + l mod W; c])
      with (get seq' ([i; 0] ++ [l / W * W + l mod W; c])).
    rewrite (@get_spatial_flatten win seq [B; 1] [i; 0]
               (nh * hd) H W c (l / W) (l mod W) S1 E2) by bounds.
    rewrite (@get_spatial_flatten win' seq' [B; 1] [i; 0]
               (nh * hd) H W c (l / W) (l mod W) S1' E2') by bounds.
    cbn [app].
    rewrite (@get_unsqueeze1 x win B (nh * hd) H W i c (l / W) (l mod W)
               (proj1 Hx) E1).
    rewrite (@get_unsqueeze1 x' win' B (nh * hd) H W i c (l / W) (l mod W)
               (proj1 Hx') E1').
    now apply A. }
  pose proof (@block_core_local _ _ _ b true ws nh hd B 1 (H * W)
                i 0 seq seq' s2 s2' Hb Hnh S2 S2' Hi Nat.lt_0_1 Aseq
                E3 E3') as As2.
  intros c p q Hc Hp Hq.
  rewrite (@get_squeeze1 u y B (nh * hd) H W i c p q (proj1 S4) E5).
  rewrite (@get_squeeze1 u' y' B (nh * hd) H W i c p q (proj1 S4') E5').
  change (get u [i; 0; c; p; q]) with (get u ([i; 0] ++ [c; p; q])).
  change (get u' [i; 0; c; p; q]) with (get u' ([i; 0] ++ [c; p; q])).
  rewrite (@get_spatial_unflatten s2 u [B; 1] [i; 0]
             (nh * hd) H W c p q S3 E4) by bounds.
  rewrite (@get_spatial_unflatten s2' u' [B; 1] [i; 0]
             (nh * hd) H W c p q S3' E4') by bounds.
  cbn [app]. apply As2; [nia | assumption].
Qed.

(** X16: A transposed block mixes positions of one image, never two images:
    what it returns for batch entry [i] is a function of batch entry [i]
    of the input. *)
Theorem AttentionBlock_forward_transposed_batch_local (b : AttentionBlock R)
  (ws nh hd B H W i : nat) (x x' : Tensor R) :
  AttentionBlock_built b (nh * hd) true ws nh -> 0 < nh ->
  has_shape x [B; nh * hd; H; W] -> has_shape x' [B; nh * hd; H; W] ->
  i < B ->
  (forall c p q, c < nh * hd -> p < H -> q < W ->
     get x [i; c; p; q] = get x' [i; c; p; q]) ->
  exists y y',
    AttentionBlock_forward b x = Some y /\
    AttentionBlock_forward b x' = Some y' /\
    forall c p q, c < nh * hd -> p < H -> q < W ->
      get y [i; c; p; q] = get y' [i; c; p; q].
Proof.
  intros Hb Hnh Hx Hx' Hi A.
  destruct (AttentionBlock_forward_transposed hd Hb Hnh Hx)
    as (_ & _ & _ & _ & y & _ & _ & _ & _ & _ & _ & _ & EF & _).
  destruct (AttentionBlock_forward_transposed hd Hb Hnh Hx')
    as (_ & _ & _ & _ & y' & _ & _ & _ & _ & _ & _ & _ & EF' & _).
  exists y, y'. split; [exact EF|]. split; [exact EF'|].
  apply (@AttentionBlock_transposed_agree b ws nh hd B H W i x x' y y');
    assumption.
Qed.

End BlockWindows.

(** ** Batch entries never meet *)

Section LoopRelation.
Variables (T Blk : Type).
Variable run : Blk -> T -> option T.
Variable plus : T -> PyVal T -> option T.
Variable Rel : T -> T -> Prop.
Hypothesis plus_rel :
  forall x x' v v' y y',
    Rel x x' -> val_rel Rel v v' ->
    plus x v = Some y -> plus x' v' = Some y' -> Rel y y'.

Lemma dict_rel_set (k : Z) (v v' : PyVal T) (d d' : dict (PyVal T)) :
  val_rel Rel v v' -> dict_rel Rel d d' ->
  dict_rel Rel (dict_set k v d) (dict_set k v' d').
Proof.
  intros Hv Hd.
  induction Hd as [|[k1 v1] [k2 v2] d d' [Hk Hv12] Hd IH]; simpl.
  - constructor; [split; [reflexivity | exact Hv] | constructor].
  - simpl in Hk. subst k2. destruct (k1 =? k)%Z.
    + constructor; [split; [reflexivity | exact Hv] | exact Hd].
    + constructor; [split; [reflexivity | exact Hv12] | exact IH].
Qed.

Lemma dict_rel_get (k : Z) (d d' : dict (PyVal T)) (v v' : PyVal T) :
  dict_rel Rel d d' ->
  dict_get k d = Some v -> dict_get k d' = Some v' -> val_rel Rel v v'.
Proof.
  intros Hd.
  induction Hd as [|[k1 v1] [k2 v2] d d' [Hk Hv12] Hd IH]; simpl;
    [discriminate|].
  simpl in Hk. subst k2. destruct (k1 =? k)%Z; [|exact IH].
  intros [= <-] [= <-]. exact Hv12.
Qed.

Lemma dict_rel_keys (d d' : dict (PyVal T)) :
  dict_rel Rel d d' -> dict_keys d = dict_keys d'.
Proof.
  intros Hd. induction Hd as [|e e' d d' [Hk _] Hd IH]; [reflexivity|].
  simpl. now rewrite Hk, IH.
Qed.

Lemma dict_rel_fromkeys (ks : list Z) (n : Z) :
  dict_rel Rel (dict_fromkeys ks (PInt n)) (dict_fromkeys ks (PInt n)).
Proof.
  unfold dict_fromkeys.
  assert (G : forall d d' : dict (PyVal T), dict_rel Rel d d' ->
            dict_rel Rel
              (fold_left (fun d k => dict_set k (PInt n) d) ks d)
              (fold_left (fun d k => dict_set k (PInt n) d) ks d')).
  { induction ks as [|k ks IH]; intros d d' Hd; [exact Hd|].
    simpl. apply IH. apply dict_rel_set; [reflexivity | exact Hd]. }
  apply G. constructor.
Qed.

Lemma reset_phase_rel (i : Z) (x x' : T) (steps : list Z) :
  Rel x x' ->
  forall d d' d1 d1',
    dict_rel Rel d d' ->
    reset_phase i x steps d = Some d1 ->
    reset_phase i x' steps d' = Some d1' ->
    dict_rel Rel d1 d1'.
Proof.
  intros Hx. induction steps as [|p steps IH]; intros d d' d1 d1' Hd E E';
    simpl in E, E'.
  - congruence.
  - destruct (py_mod i p) as [m|]; cbn [bind] in E, E'; [|discriminate].
    destruct (m =? 0)%Z.
    + eapply IH; [|exact E|exact E']. apply dict_rel_set; assumption.
    + eapply IH; [|exact E|exact E']. assumption.
Qed.

Lemma close_phase_rel (i : Z) (steps : list Z) (d d' : dict (PyVal T)) :
  dict_rel Rel d d' ->
  forall x x' y y',
    Rel x x' ->
    close_phase plus i steps d x = Some y ->
    close_phase plus i steps d' x' = Some y' ->
    Rel y y'.
Proof.
  intros Hd. induction steps as [|p steps IH]; intros x x' y y' Hx E E';
    simpl in E, E'.
  - congruence.
  - destruct (py_mod i p) as [m|]; cbn [bind] in E, E'; [|discriminate].
    destruct (m =? p - 1)%Z; [|eapply IH; eassumption].
    apply bind_Some in E as (v & Ev & E).
    apply bind_Some in E as (z & Ez & E).
    apply bind_Some in E' as (v' & Ev' & E').
    apply bind_Some in E' as (z' & Ez' & E').
    eapply IH; [|exact E|exact E'].
    eapply plus_rel; [exact Hx| |exact Ez|exact Ez'].
    eapply dict_rel_get; eassumption.
Qed.

Lemma loop_from_rel (blocks : list Blk) :
  Forall (fun b => forall x x' y y',
            Rel x x' -> run b x = Some y -> run b x' = Some y' -> Rel y y')
    blocks ->
  forall i d d' x x' d1 d1' y y',
    dict_rel Rel d d' -> Rel x x' ->
    loop_from run plus i blocks (d, x) = Some (d1, y) ->
    loop_from run plus i blocks (d', x') = Some (d1', y') ->
    Rel y y'.
Proof.
  induction 1 as [|b blocks Hb Hbs IH];
    intros i d d' x x' d1 d1' y y' Hd Hx E E'; cbn [loop_from] in E, E'.
  - congruence.
  - apply bind_Some in E as ([d2 z] & B1 & E).
    apply bind_Some in E' as ([d2' z'] & B1' & E').
    unfold loop_body in B1, B1'.
    apply bind_Some in B1 as (r & Er & B1).
    apply bind_Some in B1 as (w & Ew & B1).
    apply bind_Some in B1 as (c & Ec & B1).
    apply bind_Some in B1' as (r' & Er' & B1').
    apply bind_Some in B1' as (w' & Ew' & B1').
    apply bind_Some in B1' as (c' & Ec' & B1').
    inversion B1; subst d2 z; clear B1.
    inversion B1'; subst d2' z'; clear B1'.
    rewrite <- (dict_rel_keys Hd) in Er'.
    pose proof (reset_phase_rel _ _ Hx Hd Er Er') as Hr.
    rewrite <- (dict_rel_keys Hr) in Ec'.
    pose proof (Hb _ _ _ _ Hx Ew Ew') as Hw.
    pose proof (close_phase_rel _ _ Hr Hw Ec Ec') as Hc.
    exact (IH _ _ _ _ _ _ _ _ _ Hr Hc E E').
Qed.

Lemma residual_loop_rel (groups : list Z) (blocks : list Blk)
  (x x' y y' : T) :
  Forall (fun b => forall x x' y y',
            Rel x x' -> run b x = Some y -> run b x' = Some y' -> Rel y y')
    blocks ->
  Rel x x' ->
  residual_loop run plus groups blocks x = Some y ->
  residual_loop run plus groups blocks x' = Some y' ->
  Rel y y'.
Proof.
  intros Hb Hx E E'. unfold residual_loop in E, E'.
  apply bind_Some in E as ([d1 z] & L & E).
  apply bind_Some in E' as ([d1' z'] & L' & E').
  inversion E; subst z; clear E. inversion E'; subst z'; clear E'.
  exact (loop_from_rel Hb _ (dict_rel_fromkeys groups 0) Hx L L').
Qed.

End LoopRelation.

Section BatchIndependence.
Context {R : Type} {SR : Scalar R} {TR : Transcendental R}.

Lemma same_entry_4d (i B C H W : nat) (x x' : Tensor R) :
  has_shape x [B; C; H; W] -> has_shape x' [B; C; H; W] ->
  (forall c p q, c < C -> p < H -> q < W ->
     get x [i; c; p; q] = get x' [i; c; p; q]) ->
  same_entry i B [C; H; W] x x'.
Proof.
  intros Hx Hx' A. split; [exact Hx|]. split; [exact Hx'|].
  intros idx Hb. split_index idx Hb. apply A; assumption.
Qed.

Lemma same_entry_get (i B C H W : nat) (x x' : Tensor R) :
  same_entry i B [C; H; W] x x' ->
  forall c p q, c < C -> p < H -> q < W ->
    get x [i; c; p; q] = get x' [i; c; p; q].
Proof.
  intros (_ & _ & A) c p q Hc Hp Hq. apply (A [c; p; q]). bounds.
Qed.

Lemma same_entry_tmap (g : R -> R) (i B : nat) (S : list nat)
  (x x' : Tensor R) :
  i < B -> same_entry i B S x x' ->
  same_entry i B S (tmap g x) (tmap g x').
Proof.
  intros Hi (Hx & Hx' & A).
  split; [now apply has_shape_tmap|]. split; [now apply has_shape_tmap|].
  intros idx Hb.
  assert (H1 : in_bounds (shape x) (i :: idx))
    by (rewrite (proj1 Hx); simpl; auto).
  assert (H2 : in_bounds (shape x') (i :: idx))
    by (rewrite (proj1 Hx'); simpl; auto).
  rewrite (@get_tmap _ _ g x (i :: idx) (proj2 Hx) H1).
  rewrite (@get_tmap _ _ g x' (i :: idx) (proj2 Hx') H2).
  now rewrite A.
Qed.

Lemma same_entry_tensor_add (i B : nat) (S : list nat)
  (a a' b b' y y' : Tensor R) :
  i < B -> same_entry i B S a a' -> same_entry i B S b b' ->
  tensor_add a b = Some y -> tensor_add a' b' = Some y' ->
  same_entry i B S y y'.
Proof.
  intros Hi (Ha & Ha' & A) (Hb & Hb' & A') E E'.
  destruct (tensor_add_shape Ha Hb) as (y0 & E0 & Sy).
  assert (y0 = y) by congruence. subst y0.
  destruct (tensor_add_shape Ha' Hb') as (y0 & E0' & Sy').
  assert (y0 = y') by congruence. subst y0.
  split; [exact Sy|]. split; [exact Sy'|].
  intros idx Hin.
  assert (H1 : in_bounds (B :: S) (i :: idx)) by (simpl; auto).
  rewrite (@get_tensor_add _ _ a b y (B :: S) (i :: idx) Ha Hb E H1).
  rewrite (@get_tensor_add _ _ a' b' y' (B :: S) (i :: idx) Ha' Hb' E' H1).
  now rewrite A, A'.
Qed.

Lemma plus_value_same_entry (i B : nat) (S : list nat) :
  i < B ->
  forall (x x' : Tensor R) (v v' : PyVal (Tensor R)) (y y' : Tensor R),
    same_entry i B S x x' -> val_rel (same_entry i B S) v v' ->
    plus_value x v = Some y -> plus_value x' v' = Some y' ->
    same_entry i B S y y'.
Proof.
  intros Hi x x' [n|t] [n'|t'] y y' Hx Hv E E'; simpl in Hv;
    try contradiction; simpl in E, E'.
  - subst n'. inversion E; subst y. inversion E'; subst y'.
    unfold add_int. now apply same_entry_tmap.
  - exact (same_entry_tensor_add Hi Hx Hv E E').
Qed.

(** A convolution reads, for batch entry [i], batch entry [i] only. *)
Lemma Conv2d_same_entry (c : Conv2d R) (cin cout k s p i B H W : nat)
  (x x' y y' : Tensor R) :
  Conv2d_built c cin cout k s p ->
  0 < s -> k <= H + 2 * p -> k <= W + 2 * p -> i < B ->
  same_entry i B [cin; H; W] x x' ->
  Conv2d_forward c x = Some y -> Conv2d_forward c x' = Some y' ->
  same_entry i B [cout; conv_out_size H k s p; conv_out_size W k s p] y y'.
Proof.
  intros Hc Hs Hk1 Hk2 Hi (Hx & Hx' & A) E E'.
  destruct (Conv2d_forward_shape Hc Hx Hs Hk1 Hk2) as (y0 & E0 & Sy).
  assert (y0 = y) by congruence. subst y0. clear E0.
  destruct (Conv2d_forward_shape Hc Hx' Hs Hk1 Hk2) as (y0 & E0 & Sy').
  assert (y0 = y') by congruence. subst y0. clear E0.
  split; [exact Sy|]. split; [exact Sy'|].
  intros idx Hin.
  unfold Conv2d_forward in E, E'. cbv zeta in E, E'.
  rewrite (proj1 Hx) in E. rewrite (proj1 Hx') in E'.
  destruct Hc as (Ci & Co & Ck & Cs & Cp & _).
  rewrite Ci, Co, Ck, Cs, Cp in E, E'.
  match type of E with
  | (if ?cond then _ else _) = _ => destruct cond; [|discriminate]
  end.
  inversion E; subst y; clear E. inversion E'; subst y'; clear E'.
  split_index idx Hin.
  rewrite !get_tabulate by bounds.
  f_equal. apply sum_n_ext. intros ch Hch.
  apply sum_n_ext. intros ky Hky. apply sum_n_ext. intros kx Hkx.
  f_equal. unfold padded_get.
  destruct (_ && _) eqn:Cnd; [|reflexivity].
  rewrite !Bool.andb_true_iff, !Nat.leb_le, !Nat.ltb_lt in Cnd.
  match goal with |- get x (_ :: ?l) = _ => apply (A l) end.
  simpl. repeat split; lia.
Qed.

(** An attention block of either kind keeps batch entries apart. *)
Lemma AttentionBlock_same_entry (b : AttentionBlock R) (tr : bool)
  (ws nh hd B h v i : nat) (x x' y y' : Tensor R) :
  AttentionBlock_built b (nh * hd) tr ws nh -> 0 < nh -> ws <> 0 ->
  i < B ->
  same_entry i B [nh * hd; h * ws; v * ws] x x' ->
  AttentionBlock_forward b x = Some y ->
  AttentionBlock_forward b x' = Some y' ->
  same_entry i B [nh * hd; h * ws; v * ws] y y'.
Proof.
  intros Hb Hnh Hws Hi Hxx E E'.
  pose proof (same_entry_get Hxx) as A. destruct Hxx as (Hx & Hx' & _).
  destruct tr.
  - destruct (AttentionBlock_forward_transposed hd Hb Hnh Hx)
      as (_ & _ & _ & _ & y0 & _ & _ & _ & _ & _ & _ & _ & EF & Sy).
    assert (y0 = y) by congruence. subst y0.
    destruct (AttentionBlock_forward_transposed hd Hb Hnh Hx')
      as (_ & _ & _ & _ & y0 & _ & _ & _ & _ & _ & _ & _ & EF' & Sy').
    assert (y0 = y') by congruence. subst y0.
    apply same_entry_4d; try assumption.
    apply (@AttentionBlock_transposed_agree _ _ _ b ws nh hd B (h * ws)
             (v * ws) i x x' y y'); assumption.
  - destruct (AttentionBlock_forward_windowed hd h v Hb Hnh Hws Hx)
      as (_ & _ & _ & _ & y0 & _ & _ & _ & _ & _ & _ & _ & EF & Sy).
    assert (y0 = y) by congruence. subst y0.
    destruct (AttentionBlock_forward_windowed hd h v Hb Hnh Hws Hx')
      as (_ & _ & _ & _ & y0 & _ & _ & _ & _ & _ & _ & _ & EF' & Sy').
    assert (y0 = y') by congruence. subst y0.
    apply same_entry_4d; try assumption.
    intros c p q Hc Hp Hq.
    assert (Ep : p = p / ws * ws + p mod ws)
      by (pose proof (Nat.div_mod_eq p ws); lia).
    assert (Eq : q = q / ws * ws + q mod ws)
      by (pose proof (Nat.div_mod_eq q ws); lia).
    assert (Hp1 : p / ws < h)
      by (apply Nat.Div0.div_lt_upper_bound; lia).
    assert (Hq1 : q / ws < v)
      by (apply Nat.Div0.div_lt_upper_bound; lia).
    assert (Hp2 : p mod ws < ws) by (apply Nat.mod_upper_bound; lia).
    assert (Hq2 : q mod ws < ws) by (apply Nat.mod_upper_bound; lia).
    rewrite Ep, Eq.
    apply (@AttentionBlock_window_agree _ _ _ b ws nh hd B h v i
             (p / ws) (q / ws) x x' y y'); try assumption.
    intros c' p' q' Hc' Hp' Hq'. apply A; [assumption | nia | nia].
Qed.

Lemma pair_forward_same_entry (p : AttentionBlock R * AttentionBlock R)
  (ws nh hd B h v i : nat) (x x' y y' : Tensor R) :
  AttentionBlock_built (fst p) (nh * hd) false ws nh ->
  AttentionBlock_built (snd p) (nh * hd) true ws nh ->
  0 < nh -> ws <> 0 -> i < B ->
  same_entry i B [nh * hd; h * ws; v * ws] x x' ->
  pair_forward p x = Some y -> pair_forward p x' = Some y' ->
  same_entry i B [nh * hd; h * ws; v * ws] y y'.
Proof.
  intros H1 H2 Hnh Hws Hi Hxx E E'. unfold pair_forward in E, E'.
  apply bind_Some in E as (z & Ez & E).
  apply bind_Some in E' as (z' & Ez' & E').
  pose proof (@AttentionBlock_same_entry (fst p) false ws nh hd B h v i
                x x' z z' H1 Hnh Hws Hi Hxx Ez Ez') as Hz.
  exact (@AttentionBlock_same_entry (snd p) true ws nh hd B h v i
           z z' y y' H2 Hnh Hws Hi Hz E E').
Qed.

Lemma PixelShuffle_same_entry (r i B C H W : nat) (x x' y y' : Tensor R) :
  0 < r -> i < B ->
  same_entry i B [r ^ 2 * C; H; W] x x' ->
  PixelShuffle_forward r x = Some y -> PixelShuffle_forward r x' = Some y' ->
  same_entry i B [C; H * r; W * r] y y'.
Proof.
  intros Hr Hi Hxx E E'.
  pose proof (same_entry_get Hxx) as A. destruct Hxx as (Hx & Hx' & _).
  destruct (PixelShuffle_forward_shape C Hr Hx) as (y0 & E0 & Sy).
  assert (y0 = y) by congruence. subst y0.
  destruct (PixelShuffle_forward_shape C Hr Hx') as (y0 & E0' & Sy').
  assert (y0 = y') by congruence. subst y0.
  apply same_entry_4d; try assumption.
  intros c p q Hc Hp Hq.
  assert (Ep : p = p / r * r + p mod r)
    by (pose proof (Nat.div_mod_eq p r); lia).
  assert (Eq : q = q / r * r + q mod r)
    by (pose proof (Nat.div_mod_eq q r); lia).
  assert (Hp1 : p / r < H) by (apply Nat.Div0.div_lt_upper_bound; lia).
  assert (Hq1 : q / r < W) by (apply Nat.Div0.div_lt_upper_bound; lia).
  assert (Hp2 : p mod r < r) by (apply Nat.mod_upper_bound; lia).
  assert (Hq2 : q mod r < r) by (apply Nat.mod_upper_bound; lia).
  rewrite Ep, Eq.
  rewrite (@PixelShuffle_forward_get _ _ r B C H W x y i c (p / r) (q / r)
             (p mod r) (q mod r) Hx E) by assumption.
  rewrite (@PixelShuffle_forward_get _ _ r B C H W x' y' i c (p / r) (q / r)
             (p mod r) (q mod r) Hx' E') by assumption.
  apply A; try assumption.
  assert (p mod r * r + q mod r < r * r) by nia.
  assert (c * (r * r) + r * r <= C * (r * r)) by nia.
  simpl. lia.
Qed.


End BatchIndependence.

(** ** The classifier's stages *)

Section ClassifierRuns.
Context {R : Type} {SR : Scalar R} {TR : Transcendental R}.

Lemma Classifier_built_layout (m : Classifier R) (groups dims : list nat)
  (ws nh nc cin : nat) :
  Classifier_built m groups dims ws nh nc cin ->
  Forall2 Layer_built (Classifier_layout groups dims ws nh nc cin)
    (cls_blocks m).
Proof.
  intros (specs & Hinit & Hb).
  assert (Hok : ~ (dims = [] \/ length dims < length groups)).
  { intros H.
    apply Classifier_init_short with (ws := ws) (nh := nh) (nc := nc)
                                     (cin := cin) in H.
    rewrite H in Hinit. discriminate. }
  rewrite Classifier_init_layout in Hinit.
  - inversion Hinit; subst specs. exact Hb.
  - destruct dims; [exfalso; apply Hok; now left | simpl; lia].
  - destruct (Nat.lt_ge_cases (length dims) (length groups));
      [exfalso; apply Hok; now right | assumption].
Qed.

Lemma combine_seq_in (groups : list nat) :
  forall s i g,
    nth_error groups i = Some g ->
    In (s + i, g) (combine (seq s (length groups)) groups).
Proof.
  induction groups as [|a groups IH]; intros s [|i] g Hn; simpl in Hn;
    try discriminate.
  - inversion Hn; subst. left. f_equal. lia.
  - right. replace (s + S i) with (S s + i) by lia. now apply IH.
Qed.

Lemma layout_block_in (groups dims : list nat) (ws nh nc cin i g : nat) :
  nth_error groups i = Some g -> 0 < g ->
  In (SAttentionBlock (nth i dims 0) false (ws / 2 ^ i) nh)
     (Classifier_layout groups dims ws nh nc cin).
Proof.
  intros Hn Hg. unfold Classifier_layout.
  apply in_or_app. right. apply in_or_app. left.
  apply in_concat. exists (stage_specs dims ws nh i g). split.
  - apply in_map_iff. exists (i, g). split; [reflexivity|].
    exact (@combine_seq_in groups 0 i g Hn).
  - unfold stage_specs. apply in_or_app. right.
    destruct g as [|g]; [lia|]. simpl. now left.
Qed.

Lemma AttentionBlock_forward_zero_window (b : AttentionBlock R)
  (x : Tensor R) :
  ab_transposed b = false -> window_size b = 0 ->
  AttentionBlock_forward b x = None.
Proof.
  intros Ht Hw. unfold AttentionBlock_forward. rewrite Ht, Hw.
  destruct (shape x) as [|B [|C [|H [|W [|]]]]]; try reflexivity.
  now rewrite window_partition_zero.
Qed.

Lemma run_layers_dead (pre rest : list (Layer R)) (l : Layer R) :
  (forall z, Layer_forward l z = None) ->
  forall x, run_layers (pre ++ l :: rest) x = None.
Proof.
  intros Hl. induction pre as [|a pre IH]; intros x; simpl.
  - now rewrite Hl.
  - destruct (Layer_forward a x); cbn [bind]; [apply IH | reflexivity].
Qed.

(** X18: Stage [i] works with windows of size [window_size // 2 ** i].  Once
    that quotient is zero a stage that holds at least one block pair
    cannot run: the classifier raises on every input. *)
Theorem Classifier_forward_window_exhausted (m : Classifier R)
  (groups dims : list nat) (ws nh nc cin i g : nat) (x : Tensor R) :
  Classifier_built m groups dims ws nh nc cin ->
  nth_error groups i = Some g -> 0 < g -> ws < 2 ^ i ->
  Classifier_forward m x = None.
Proof.
  intros Hm Hn Hg Hws.
  pose proof (Classifier_built_layout Hm) as HF.
  pose proof (@layout_block_in groups dims ws nh nc cin i g Hn Hg) as Hin.
  rewrite (Nat.div_small _ _ Hws) in Hin.
  apply in_split in Hin as (s1 & s2 & Es). rewrite Es in HF.
  apply Forall2_app_inv_l in HF as (l1 & l2' & H1 & H2 & El).
  inversion H2 as [|sp l s2' l2 Hl H2' E1 E2]; subst.
  destruct l as [|b| | |]; try contradiction. simpl in Hl.
  destruct Hl as (Hw & Ht & _).
  unfold Classifier_forward. rewrite El. apply run_layers_dead.
  intros z. simpl. now apply AttentionBlock_forward_zero_window.
Qed.

End ClassifierRuns.

(** ** The shape of what the classifier returns *)

Section OutputShapes.
Context {R : Type} {SR : Scalar R} {TR : Transcendental R}.

Lemma tensor_add_keeps_shape (a b y : Tensor R) :
  tensor_add a b = Some y -> shape y = shape a.
Proof.
  unfold tensor_add. destruct (shape_eqb _ _); [|discriminate].
  now intros [= <-].
Qed.

Lemma block_core_keeps_shape (b : AttentionBlock R) (x y : Tensor R) :
  block_core b x = Some y -> shape y = shape x.
Proof.
  unfold block_core. intros E.
  apply bind_Some in E as (n1 & _ & E).
  apply bind_Some in E as (a & _ & E).
  apply bind_Some in E as (x1 & E1 & E).
  apply bind_Some in E as (n2 & _ & E).
  apply bind_Some in E as (f & _ & E).
  apply tensor_add_keeps_shape in E, E1. congruence.
Qed.

Lemma reshape_gives_shape (s : list nat) (t y : Tensor R) :
  reshape s t = Some y -> shape y = s.
Proof.
  unfold reshape. destruct (_ =? _); [|discriminate]. now intros [= <-].
Qed.

Lemma permute_gives_shape (p : list nat) (t y : Tensor R) :
  permute p t = Some y -> shape y = gather (shape t) p.
Proof.
  unfold permute. destruct (is_perm _ _); [|discriminate].
  intros [= <-]. apply shape_tabulate.
Qed.

Lemma transpose_last2_gives_shape (t y : Tensor R) :
  transpose_last2 t = Some y -> shape y = swap_last2 (shape t).
Proof.
  unfold transpose_last2. destruct (_ <=? _); [|discriminate].
  intros [= <-]. apply shape_tabulate.
Qed.

Lemma spatial_flatten_gives_shape (x y : Tensor R) (B N C H W : nat) :
  shape x = [B; N; C; H; W] -> spatial_flatten x = Some y ->
  shape y = [B; N; H * W; C].
Proof.
  intros Hs E. unfold spatial_flatten, flatten_last2 in E.
  rewrite Hs in E. cbn [merge_last2 bind] in E.
  apply transpose_last2_gives_shape in E. rewrite E. reflexivity.
Qed.

Lemma spatial_unflatten_gives_shape (s u : Tensor R) (B N L C H W : nat) :
  shape s = [B; N; L; C] -> spatial_unflatten s H W = Some u ->
  shape u = [B; N; C; H; W].
Proof.
  intros Hs E. unfold spatial_unflatten in E.
  apply bind_Some in E as (t & Et & Eu).
  apply transpose_last2_gives_shape in Et. rewrite Hs in Et.
  cbn [swap_last2] in Et.
  unfold unflatten_last in Eu. rewrite Et in Eu.
  cbn [split_last bind] in Eu.
  destruct (L =? H * W); cbn [bind] in Eu; [|discriminate].
  now inversion Eu.
Qed.

Lemma window_partition_gives_shape (x y : Tensor R) (B C H W w : nat) :
  shape x = [B; C; H; W] -> window_partition x w = Some y ->
  exists N, shape y = [B; N; C; w; w].
Proof.
  intros Hs E. unfold window_partition in E. rewrite Hs in E.
  apply bind_Some in E as (nw & _ & E).
  apply bind_Some in E as (Hw & _ & E).
  apply bind_Some in E as (Ww & _ & E).
  apply bind_Some in E as (x1 & _ & E).
  apply bind_Some in E as (x2 & _ & E).
  apply bind_Some in E as (x3 & E3 & E).
  apply reshape_gives_shape in E3. apply permute_gives_shape in E.
  rewrite E3 in E. exists nw. exact E.
Qed.

Lemma window_unpartition_gives_shape (u y : Tensor R)
  (B N C w w' H W : nat) :
  shape u = [B; N; C; w; w'] -> window_unpartition u H W = Some y ->
  shape y = [B; C; H; W].
Proof.
  intros Hs E. unfold window_unpartition in E. rewrite Hs in E.
  apply bind_Some in E as (x1 & _ & E).
  apply bind_Some in E as (Hw & _ & E).
  apply bind_Some in E as (Ww & _ & E).
  apply bind_Some in E as (x2 & _ & E).
  apply bind_Some in E as (x3 & _ & E).
  now apply reshape_gives_shape in E.
Qed.

(** A block hands back a tensor of the shape it was given. *)
Lemma AttentionBlock_forward_keeps_shape (b : AttentionBlock R)
  (x y : Tensor R) (B C H W : nat) :
  shape x = [B; C; H; W] -> AttentionBlock_forward b x = Some y ->
  shape y = [B; C; H; W].
Proof.
  intros Hs E. unfold AttentionBlock_forward in E. rewrite Hs in E.
  apply bind_Some in E as (win & Ew & E).
  apply bind_Some in E as (seq & Es & E).
  apply bind_Some in E as (s2 & Ec & E).
  apply block_core_keeps_shape in Ec.
  destruct (ab_transposed b).
  - unfold unsqueeze1 in Ew. rewrite Hs in Ew.
    inversion Ew; subst win; clear Ew.
    pose proof (@spatial_flatten_gives_shape
                  (mkTensor [B; 1; C; H; W] (data x)) seq B 1 C H W
                  eq_refl Es) as Ss.
    rewrite Ss in Ec.
    apply bind_Some in E as (u & Eu & E).
    pose proof (@spatial_unflatten_gives_shape s2 u B 1 (H * W) C H W Ec Eu)
      as Su.
    unfold squeeze1 in E. rewrite Su in E. now inversion E.
  - destruct (@window_partition_gives_shape x win B C H W (window_size b)
                Hs Ew) as (N & Sw).
    pose proof (@spatial_flatten_gives_shape win seq B N C (window_size b)
                  (window_size b) Sw Es) as Ss.
    rewrite Ss in Ec.
    apply bind_Some in E as (u & Eu & E).
    pose proof (@spatial_unflatten_gives_shape s2 u B N
                  (window_size b * window_size b) C (window_size b)
                  (window_size b) Ec Eu) as Su.
    exact (@window_unpartition_gives_shape u y B N C (window_size b)
             (window_size b) H W Su E).
Qed.

Lemma Conv2d_forward_gives_shape (c : Conv2d R) (x y : Tensor R)
  (B C H W : nat) :
  shape x = [B; C; H; W] -> Conv2d_forward c x = Some y ->
  exists C' H' W', shape y = [B; C'; H'; W'].
Proof.
  intros Hs E. unfold Conv2d_forward in E. rewrite Hs in E. cbv zeta in E.
  match type of E with
  | (if ?cond then _ else _) = _ => destruct cond; [|discriminate]
  end.
  inversion E. rewrite shape_tabulate. eauto.
Qed.

Lemma run_layers_app (l1 l2 : list (Layer R)) :
  forall x,
    run_layers (l1 ++ l2) x = (y <- run_layers l1 x ;; run_layers l2 y).
Proof.
  induction l1 as [|a l1 IH]; intros x; simpl; [reflexivity|].
  destruct (Layer_forward a x); cbn [bind]; [apply IH | reflexivity].
Qed.

(** Convolutions and blocks keep the batch size and the rank. *)
Lemma run_stage_layers_batch (specs : list LayerSpec)
  (ls : list (Layer R)) :
  Forall2 Layer_built specs ls ->
  Forall (fun s => match s with
                   | SConv2d _ _ _ _ _ | SAttentionBlock _ _ _ _ => True
                   | _ => False
                   end) specs ->
  forall (x z : Tensor R) (B C H W : nat),
    shape x = [B; C; H; W] -> run_layers ls x = Some z ->
    exists C' H' W', shape z = [B; C'; H'; W'].
Proof.
  induction 1 as [|s l specs ls Hl Hrest IH]; intros Hst x z B C H W Hs E.
  - simpl in E. inversion E; subst z. eauto.
  - inversion Hst as [|? ? Hs1 Hst']; subst.
    cbn [run_layers] in E. apply bind_Some in E as (y & Ey & E).
    destruct s; try contradiction; destruct l; try contradiction;
      simpl in Ey.
    + destruct (@Conv2d_forward_gives_shape c x y B C H W Hs Ey)
        as (C1 & H1 & W1 & Sy).
      exact (IH Hst' y z B C1 H1 W1 Sy E).
    + pose proof (@AttentionBlock_forward_keeps_shape b x y B C H W Hs Ey)
        as Sy.
      exact (IH Hst' y z B C H W Sy E).
Qed.

Lemma stage_specs_kinds (dims : list nat) (ws nh i g : nat) :
  Forall (fun s => match s with
                   | SConv2d _ _ _ _ _ | SAttentionBlock _ _ _ _ => True
                   | _ => False
                   end) (stage_specs dims ws nh i g).
Proof.
  unfold stage_specs. apply Forall_app. split.
  - destruct (0 <? i); repeat constructor.
  - induction g as [|g IH]; simpl; repeat constructor. exact IH.
Qed.

Lemma stages_kinds (dims : list nat) (ws nh : nat) (groups : list nat) :
  forall i,
    Forall (fun s => match s with
                     | SConv2d _ _ _ _ _ | SAttentionBlock _ _ _ _ => True
                     | _ => False
                     end)
      (concat (map (fun ig => stage_specs dims ws nh (fst ig) (snd ig))
                 (combine (seq i (length groups)) groups))).
Proof.
  induction groups as [|g groups IH]; intros i; simpl; [constructor|].
  apply Forall_app. split; [apply stage_specs_kinds | apply IH].
Qed.

(** X19: Whatever the configuration, a classifier that returns at all returns
    one row of [num_classes] logits per image of the batch. *)
Theorem Classifier_forward_output_shape (m : Classifier R)
  (groups dims : list nat) (ws nh nc cin B C H W : nat) (x y : Tensor R) :
  Classifier_built m groups dims ws nh nc cin ->
  shape x = [B; C; H; W] ->
  Classifier_forward m x = Some y ->
  shape y = [B; nc].
Proof.
  intros Hm Hs E.
  pose proof (Classifier_built_layout Hm) as HF.
  unfold Classifier_layout in HF. rewrite app_assoc in HF.
  apply Forall2_app_inv_l in HF as (pre & suf & Hpre & Hsuf & El).
  inversion Hsuf as [|s1 l1 ss1 ls1 B1 Hsuf1]; subst.
  inversion Hsuf1 as [|s2 l2 ss2 ls2 B2 Hsuf2]; subst.
  inversion Hsuf2 as [|s3 l3 ss3 ls3 B3 Hsuf3]; subst.
  inversion Hsuf3; subst.
  destruct l1; try contradiction. destruct l2; try contradiction.
  destruct l3 as [| | | |lin]; try contradiction.
  simpl in B3. destruct B3 as (_ & Ho & _).
  unfold Classifier_forward in E. rewrite El, run_layers_app in E.
  apply bind_Some in E as (z & Ez & E).
  assert (Hs' : shape (sub_half x) = [B; C; H; W]) by exact Hs.
  assert (Hk : Forall (fun s => match s with
                        | SConv2d _ _ _ _ _ | SAttentionBlock _ _ _ _ => True
                        | _ => False
                        end)
                 ([SConv2d cin (nth 0 dims 0) 3 1 1] ++
                  concat (map (fun ig => stage_specs dims ws nh
                                           (fst ig) (snd ig))
                            (combine (seq 0 (length groups)) groups)))).
  { apply Forall_app. split; [repeat constructor | apply stages_kinds]. }
  destruct (@run_stage_layers_batch _ pre Hpre Hk (sub_half x) z B C H W
              Hs' Ez) as (C' & H' & W' & Sz).
  cbn [run_layers Layer_forward] in E.
  apply bind_Some in E as (p & Ep & E).
  apply bind_Some in E as (f & Ef & E).
  apply bind_Some in E as (o & Eo & E).
  inversion E; subst o; clear E.
  unfold AdaptiveAvgPool2d_1 in Ep. rewrite Sz in Ep.
  inversion Ep; subst p; clear Ep.
  unfold Flatten_forward in Ef. rewrite shape_tabulate in Ef.
  inversion Ef; subst f; clear Ef.
  unfold Linear_forward in Eo. cbn [shape] in Eo.
  destruct (_ =? _); [|discriminate].
  inversion Eo. rewrite shape_tabulate. cbn [removelast app].
  now rewrite Ho.
Qed.

End OutputShapes.

(** ** The domains of the other reshaping utilities *)

Section UtilityDomains.
Context {R : Type} {SR : Scalar R}.

Lemma window_unpartition_mismatch (y : Tensor R) (B n C w H W : nat) :
  has_shape y [B; n; C; w; w] -> 0 < B -> 0 < C -> 0 < w ->
  H / w * (W / w) <> n ->
  window_unpartition y H W = None.
Proof.
  intros Hy HB HC Hw Hn. unfold window_unpartition. rewrite (proj1 Hy).
  destruct (permute_shape [0; 2; 1; 3; 4] Hy eq_refl) as (x1 & E1 & S1).
  cbn [gather map nth] in S1.
  assert (Hw0 : w <> 0) by lia.
  rewrite E1. cbn [bind]. rewrite !(floordiv_ok _ Hw0). cbn [bind].
  unfold reshape. rewrite (proj1 S1).
  destruct (Nat.eqb_spec (numel [B; C; H / w; W / w; w; w])
              (numel [B; C; n; w; w])) as [E|_]; [|reflexivity].
  exfalso. apply Hn. simpl in E.
  set (a := H / w) in *. set (c := W / w) in *.
  assert (K : B * C * w * w * (a * c) = B * C * w * w * n) by nia.
  apply Nat.mul_cancel_l in K; [exact K | nia].
Qed.

Lemma window_unpartition_indivisible (y : Tensor R) (B C w H W : nat) :
  has_shape y [B; H / w * (W / w); C; w; w] ->
  0 < B -> 0 < C -> 0 < w -> 0 < H / w * (W / w) ->
  H mod w <> 0 \/ W mod w <> 0 ->
  window_unpartition y H W = None.
Proof.
  intros Hy HB HC Hw Hn Hdiv. unfold window_unpartition.
  rewrite (proj1 Hy).
  destruct (permute_shape [0; 2; 1; 3; 4] Hy eq_refl) as (x1 & E1 & S1).
  cbn [gather map nth] in S1.
  assert (Hw0 : w <> 0) by lia.
  rewrite E1. cbn [bind]. rewrite !(floordiv_ok _ Hw0). cbn [bind].
  destruct (reshape_shape [B; C; H / w; W / w; w; w] S1)
    as (x2 & E2 & S2 & _); [simpl; ring|].
  rewrite E2. cbn [bind].
  destruct (permute_shape [0; 1; 2; 4; 3; 5] S2 eq_refl) as (x3 & E3 & S3).
  cbn [gather map nth] in S3.
  rewrite E3. cbn [bind].
  unfold reshape. rewrite (proj1 S3).
  destruct (Nat.eqb_spec (numel [B; C; H; W])
              (numel [B; C; H / w; w; W / w; w])) as [E|_]; [|reflexivity].
  exfalso. simpl in E.
  assert (LH : H / w * w <= H) by (pose proof (Nat.div_mod_eq H w); lia).
  assert (LW : W / w * w <= W) by (pose proof (Nat.div_mod_eq W w); lia).
  assert (PH : 0 < H / w * w) by nia.
  assert (PW : 0 < W / w * w) by nia.
  assert (Hlt : H / w * w * (W / w * w) < H * W).
  { destruct Hdiv as [D|D]; apply div_mul_lt in D; try assumption; nia. }
  set (a := H / w) in *. set (c := W / w) in *.
  assert (K : B * C * (a * w * (c * w)) = B * C * (H * W)) by nia.
  apply Nat.mul_cancel_l in K; nia.
Qed.

(** X20: For non-negative ints [H] and [W], [window_unpartition] raises on
    non-empty windows exactly when the number of windows is not
    [(H // w) * (W // w)] or the window size does not divide both sides of
    the map.  (A size of [-1], which [reshape] would infer, is outside the
    model and outside this statement.) *)
Theorem window_unpartition_fails_iff (y : Tensor R) (B n C w H W : nat) :
  has_shape y [B; n; C; w; w] ->
  0 < B -> 0 < n -> 0 < C -> 0 < w ->
  (window_unpartition y H W = None <->
   H / w * (W / w) <> n \/ H mod w <> 0 \/ W mod w <> 0).
Proof.
  intros Hy HB Hn HC Hw. assert (Hw0 : w <> 0) by lia. split.
  - intros Hnone.
    destruct (Nat.eq_dec (H / w * (W / w)) n) as [En|Nn]; [right | now left].
    destruct (Nat.eq_dec (H mod w) 0) as [DH|DH]; [|now left].
    destruct (Nat.eq_dec (W mod w) 0) as [DW|DW]; [|now right].
    exfalso.
    apply Nat.Div0.div_exact in DH, DW.
    rewrite (Nat.mul_comm w) in DH, DW.
    rewrite <- En in Hy.
    destruct (window_unpartition_shape _ _ Hy Hw0) as (x & Ex & _).
    rewrite <- DH, <- DW in Ex. congruence.
  - intros [Nn | Hdiv].
    + now apply window_unpartition_mismatch with (B := B) (n := n) (C := C)
                                                  (w := w).
    + destruct (Nat.eq_dec (H / w * (W / w)) n) as [En|Nn].
      * subst n.
        now apply window_unpartition_indivisible with (B := B) (C := C)
                                                      (w := w).
      * now apply window_unpartition_mismatch with (B := B) (n := n)
                                                   (C := C) (w := w).
Qed.

Lemma merge_last2_None (s : list nat) :
  merge_last2 s = None <-> length s < 2.
Proof.
  induction s as [|a s IH]; [split; [simpl; lia | reflexivity]|].
  destruct s as [|b s]; [split; [simpl; lia | reflexivity]|].
  destruct s as [|c s]; [split; [discriminate | simpl; lia]|].
  change (merge_last2 (a :: b :: c :: s))
    with (bind (merge_last2 (b :: c :: s)) (fun s'' => Some (a :: s''))).
  destruct (merge_last2 (b :: c :: s)); cbn [bind].
  - split; [discriminate | simpl; lia].
  - destruct IH as [IH _]. specialize (IH eq_refl). simpl in IH. lia.
Qed.

Lemma merge_last2_length (s s' : list nat) :
  merge_last2 s = Some s' -> S (length s') = length s.
Proof.
  revert s'. induction s as [|a s IH]; intros s' E; [discriminate|].
  destruct s as [|b s]; [discriminate|].
  destruct s as [|c s]; [now inversion E|].
  change (merge_last2 (a :: b :: c :: s))
    with (bind (merge_last2 (b :: c :: s)) (fun s'' => Some (a :: s'')))
    in E.
  destruct (merge_last2 (b :: c :: s)) as [t|]; cbn [bind] in E;
    [|discriminate].
  inversion E; subst s'. simpl. f_equal. exact (IH t eq_refl).
Qed.

(** X21: [spatial_flatten] needs the three axes (C, H, W): it raises exactly
    on tensors of rank below three. *)
Theorem spatial_flatten_fails_iff (x : Tensor R) :
  spatial_flatten x = None <-> length (shape x) < 3.
Proof.
  unfold spatial_flatten, flatten_last2.
  destruct (merge_last2 (shape x)) as [s|] eqn:M; cbn [bind].
  - apply merge_last2_length in M.
    unfold transpose_last2. cbn [shape].
    destruct (Nat.leb_spec 2 (length s)); split; intros H0;
      try discriminate; try reflexivity; lia.
  - apply merge_last2_None in M. split; [lia | reflexivity].
Qed.

End UtilityDomains.

(** ** Concrete instances of the further properties *)

Lemma window_partition_layout_witness :
  has_shape ex_features [1; 1; 1 * 2; 1 * 2] /\ 2 <> 0 /\
  exists y, window_partition ex_features 2 = Some y /\
            get y [0; 0 * 1 + 0; 0; 1; 0]
            = get ex_features [0; 0; 0 * 2 + 1; 0 * 2 + 0].
Proof.
  assert (H1 : has_shape ex_features [1; 1; 1 * 2; 1 * 2])
    by (split; reflexivity).
  assert (H2 : 2 <> 0) by lia.
  split; [exact H1|]. split; [exact H2|].
  destruct (@window_partition_layout Qc _ ex_features 1 1 1 1 2 H1 H2)
    as (y & E & _ & Hget).
  exists y. split; [exact E|].
  apply Hget; lia.
Defined.

Lemma window_partition_unpartition_witness :
  has_shape ex_windows [1; 1 * 1; 1; 2; 2] /\ 2 <> 0 /\
  (x <- window_unpartition ex_windows (1 * 2) (1 * 2) ;;
   window_partition x 2) = Some ex_windows.
Proof.
  assert (H1 : has_shape ex_windows [1; 1 * 1; 1; 2; 2])
    by (split; reflexivity).
  assert (H2 : 2 <> 0) by lia.
  split; [exact H1|]. split; [exact H2|].
  exact (@window_partition_unpartition Qc _ ex_windows 1 1 1 1 2 H1 H2).
Defined.

Lemma window_partition_fails_iff_witness :
  has_shape ex_features [1; 1; 2; 2] /\ 0 < 1 /\ 0 < 2 /\
  window_partition ex_features 3 = None.
Proof.
  assert (H1 : has_shape ex_features [1; 1; 2; 2]) by (split; reflexivity).
  assert (H2 : 0 < 1) by lia.
  assert (H3 : 0 < 2) by lia.
  split; [exact H1|]. split; [exact H2|]. split; [exact H3|].
  apply (proj2 (@window_partition_fails_iff Qc _ ex_features 1 1 2 2 3
                  H1 H2 H2 H3 H3)).
  right. left. discriminate.
Defined.

Lemma spatial_unflatten_fails_iff_witness :
  shape ex_sequence = [1; 1] ++ [1; 2] /\
  spatial_unflatten ex_sequence 2 2 = None.
Proof.
  assert (H1 : shape ex_sequence = [1; 1] ++ [1; 2]) by reflexivity.
  split; [exact H1|].
  apply (proj2 (@spatial_unflatten_fails_iff Qc _ ex_sequence
                  [1; 1] 1 2 2 2 H1)).
  discriminate.
Defined.

Lemma MultiHeadSelfAttention_forward_fails_iff_witness :
  MultiHeadSelfAttention_built ex_attention3 3 false 2 /\
  has_shape ex_sequence3 [1; 1; 1; 3] /\ 0 < 1 /\ 0 < 3 /\
  MultiHeadSelfAttention_forward ex_attention3 ex_sequence3 = None.
Proof.
  assert (H1 : MultiHeadSelfAttention_built ex_attention3 3 false 2)
    by built.
  assert (H2 : has_shape ex_sequence3 [1; 1; 1; 3]) by (split; reflexivity).
  assert (H3 : 0 < 1) by lia.
  assert (H4 : 0 < 3) by lia.
  split; [exact H1|]. split; [exact H2|]. split; [exact H3|].
  split; [exact H4|].
  apply (proj2 (@MultiHeadSelfAttention_forward_fails_iff Qc _ _
                  ex_attention3 false 1 1 1 3 2 ex_sequence3
                  H1 H2 H3 H3 H3 H4)).
  right. discriminate.
Defined.

Lemma MultiHeadSelfAttention_forward_local_witness :
  MultiHeadSelfAttention_built (ex_attention true) (1 * 2) true 1 /\
  0 < 1 /\
  has_shape ex_two_sequences [1; 2; 1; 1 * 2] /\
  has_shape ex_two_sequences_alt [1; 2; 1; 1 * 2] /\
  0 < 2 /\
  (forall l c, l < 1 -> c < 1 * 2 ->
     get ex_two_sequences [0; 0; l; c]
     = get ex_two_sequences_alt [0; 0; l; c]) /\
  exists y y',
    MultiHeadSelfAttention_forward (ex_attention true) ex_two_sequences
    = Some y /\
    MultiHeadSelfAttention_forward (ex_attention true) ex_two_sequences_alt
    = Some y' /\
    forall l c, l < 1 -> c < 1 * 2 ->
      get y [0; 0; l; c] = get y' [0; 0; l; c].
Proof.
  assert (H1 : MultiHeadSelfAttention_built (ex_attention true) (1 * 2)
                 true 1) by built.
  assert (H2 : 0 < 1) by lia.
  assert (H3 : has_shape ex_two_sequences [1; 2; 1; 1 * 2])
    by (split; reflexivity).
  assert (H4 : has_shape ex_two_sequences_alt [1; 2; 1; 1 * 2])
    by (split; reflexivity).
  assert (H5 : 0 < 2) by lia.
  assert (H6 : forall l c, l < 1 -> c < 1 * 2 ->
             get ex_two_sequences [0; 0; l; c]
             = get ex_two_sequences_alt [0; 0; l; c]).
  { intros [|l] [|[|c]] Hl Hc; try lia; reflexivity. }
  split; [exact H1|]. split; [exact H2|]. split; [exact H3|].
  split; [exact H4|]. split; [exact H5|]. split; [exact H6|].
  exact (@MultiHeadSelfAttention_forward_local Qc _ _
           (ex_attention true) true 1 2 1 1 2 0 0
           ex_two_sequences ex_two_sequences_alt H1 H2 H3 H4 H2 H5 H6).
Defined.

Lemma AttentionBlock_forward_windowed_fails_iff_witness :
  AttentionBlock_built (ex_block 1 false 3 1) (1 * 1) false 3 1 /\
  0 < 1 /\ has_shape ex_features [1; 1 * 1; 2; 2] /\ 0 < 2 /\
  AttentionBlock_forward (ex_block 1 false 3 1) ex_features = None.
Proof.
  assert (H1 : AttentionBlock_built (ex_block 1 false 3 1) (1 * 1)
                 false 3 1) by built.
  assert (H2 : 0 < 1) by lia.
  assert (H3 : has_shape ex_features [1; 1 * 1; 2; 2])
    by (split; reflexivity).
  assert (H4 : 0 < 2) by lia.
  split; [exact H1|]. split; [exact H2|]. split; [exact H3|].
  split; [exact H4|].
  apply (proj2 (@AttentionBlock_forward_windowed_fails_iff Qc _ _
                  (ex_block 1 false 3 1) 3 1 1 1 2 2 ex_features
                  H1 H2 H2 H3 H2 H4 H4)).
  right. left. discriminate.
Defined.

Lemma TransformerSR_duplicate_period_witness :
  residual_groups (with_residual_groups ex_sr [2; 2]%Z)
  = [2%Z] ++ 2%Z :: [] /\
  In 2%Z [2%Z] /\
  TransformerSR_forward (with_residual_groups ex_sr [2; 2]%Z) ex_image
  = TransformerSR_forward
      (with_residual_groups (with_residual_groups ex_sr [2; 2]%Z)
         ([2%Z] ++ [])) ex_image.
Proof.
  assert (H1 : residual_groups (with_residual_groups ex_sr [2; 2]%Z)
               = [2%Z] ++ 2%Z :: []) by reflexivity.
  assert (H2 : In 2%Z [2%Z]) by (left; reflexivity).
  split; [exact H1|]. split; [exact H2|].
  exact (@TransformerSR_duplicate_period Qc _ _
           (with_residual_groups ex_sr [2; 2]%Z) [2%Z] [] 2%Z ex_image
           H1 H2).
Defined.

Lemma TransformerSR_zero_period_witness :
  In 0%Z (residual_groups (with_residual_groups ex_sr [0%Z])) /\
  blocks (with_residual_groups ex_sr [0%Z]) <> [] /\
  TransformerSR_forward (with_residual_groups ex_sr [0%Z]) ex_image = None.
Proof.
  assert (H1 : In 0%Z (residual_groups (with_residual_groups ex_sr [0%Z])))
    by (left; reflexivity).
  assert (H2 : blocks (with_residual_groups ex_sr [0%Z]) <> [])
    by discriminate.
  split; [exact H1|]. split; [exact H2|].
  exact (@TransformerSR_zero_period Qc _ _
           (with_residual_groups ex_sr [0%Z]) ex_image H1 H2).
Defined.

Lemma TransformerSR_periods_without_effect_witness :
  (forall p, In p (residual_groups (with_residual_groups ex_sr [5; -1]%Z)) ->
     (p < 0 \/
      Z.of_nat (length (blocks (with_residual_groups ex_sr [5; -1]%Z))) < p)%Z)
  /\
  TransformerSR_forward (with_residual_groups ex_sr [5; -1]%Z) ex_image =
  (x0 <- Conv2d_forward (in_conv ex_sr) (sub_half ex_image) ;;
   x1 <- run_all pair_forward (blocks ex_sr) x0 ;;
   c <- Conv2d_forward (out_conv ex_sr) x1 ;;
   s <- PixelShuffle_forward (upscale_factor ex_sr) c ;;
   Some (add_half s)).
Proof.
  assert (H1 : forall p,
             In p (residual_groups (with_residual_groups ex_sr [5; -1]%Z)) ->
             (p < 0 \/
              Z.of_nat (length (blocks (with_residual_groups ex_sr
                                          [5; -1]%Z))) < p)%Z).
  { intros p [<-|[<-|[]]]; [right | left]; reflexivity. }
  split; [exact H1|].
  exact (@TransformerSR_periods_without_effect Qc _ _
           (with_residual_groups ex_sr [5; -1]%Z) ex_image H1).
Defined.


Lemma Classifier_init_fails_iff_witness :
  Forall (fun d => 0 < d) [16] /\ 0 < 3 /\ 0 < 10 /\
  length [16] < length [1; 1] /\
  Classifier_init [1; 1] [16] 8 8 10 3 = None.
Proof.
  assert (H0 : Forall (fun d => 0 < d) [16])
    by (constructor; [lia | constructor]).
  assert (H2 : 0 < 3) by lia.
  assert (H3 : 0 < 10) by lia.
  assert (H1 : length [16] < length [1; 1]) by (simpl; lia).
  split; [exact H0|]. split; [exact H2|]. split; [exact H3|].
  split; [exact H1|].
  exact (proj2 (@Classifier_init_fails_iff [1; 1] [16] 8 8 10 3 H0 H2 H3)
           (or_intror H1)).
Defined.

Lemma Classifier_blocks_length_witness :
  Classifier_built ex_classifier [1; 1] [16; 32] 8 8 10 3 /\
  length (cls_blocks ex_classifier)
  = 4 + (length [1; 1] - 1) + 2 * list_sum [1; 1].
Proof.
  assert (H1 : Classifier_built ex_classifier [1; 1] [16; 32] 8 8 10 3).
  { eexists. split; [reflexivity|]. built. }
  split; [exact H1|].
  exact (@Classifier_blocks_length Qc ex_classifier [1; 1] [16; 32]
           8 8 10 3 H1).
Defined.

Lemma TransformerSR_forward_rejects_witness :
  TransformerSR_built ex_sr 2 [2%Z] 4 (1 * 1) 2 1 3 3 /\
  0 < 4 /\ 0 < 1 /\ has_shape ex_image3 [1; 3; 3; 3] /\ 0 < 3 /\
  3 mod 2 <> 0 /\
  TransformerSR_forward ex_sr ex_image3 = None.
Proof.
  assert (H1 : TransformerSR_built ex_sr 2 [2%Z] 4 (1 * 1) 2 1 3 3)
    by built.
  assert (H2 : 0 < 4) by lia.
  assert (H3 : 0 < 1) by lia.
  assert (H4 : has_shape ex_image3 [1; 3; 3; 3]) by (split; reflexivity).
  assert (H5 : 0 < 3) by lia.
  assert (H6 : 3 mod 2 <> 0) by discriminate.
  split; [exact H1|]. split; [exact H2|]. split; [exact H3|].
  split; [exact H4|]. split; [exact H5|]. split; [exact H6|].
  exact (@TransformerSR_forward_rejects Qc _ _ ex_sr 2 [2%Z] 4 1 1 2 3 3
           1 3 3 ex_image3 H1 H2 H3 H3 H4 H3 H5 H5
           (or_intror (or_introl H6))).
Defined.

Lemma AttentionBlock_forward_window_local_witness :
  AttentionBlock_built (ex_block 1 false 2 1) (1 * 1) false 2 1 /\
  0 < 1 /\ 2 <> 0 /\
  has_shape ex_two_windows [1; 1 * 1; 1 * 2; 2 * 2] /\
  has_shape ex_two_windows_alt [1; 1 * 1; 1 * 2; 2 * 2] /\
  0 < 2 /\
  (forall c p q, c < 1 * 1 -> p < 2 -> q < 2 ->
     get ex_two_windows [0; c; 0 * 2 + p; 0 * 2 + q]
     = get ex_two_windows_alt [0; c; 0 * 2 + p; 0 * 2 + q]) /\
  exists y y',
    AttentionBlock_forward (ex_block 1 false 2 1) ex_two_windows = Some y /\
    AttentionBlock_forward (ex_block 1 false 2 1) ex_two_windows_alt
    = Some y' /\
    forall c p q, c < 1 * 1 -> p < 2 -> q < 2 ->
      get y [0; c; 0 * 2 + p; 0 * 2 + q]
      = get y' [0; c; 0 * 2 + p; 0 * 2 + q].
Proof.
  assert (H1 : AttentionBlock_built (ex_block 1 false 2 1) (1 * 1)
                 false 2 1) by built.
  assert (H2 : 0 < 1) by lia.
  assert (H3 : 2 <> 0) by lia.
  assert (H4 : has_shape ex_two_windows [1; 1 * 1; 1 * 2; 2 * 2])
    by (split; reflexivity).
  assert (H5 : has_shape ex_two_windows_alt [1; 1 * 1; 1 * 2; 2 * 2])
    by (split; reflexivity).
  assert (H6 : 0 < 2) by lia.
  assert (H7 : forall c p q, c < 1 * 1 -> p < 2 -> q < 2 ->
             get ex_two_windows [0; c; 0 * 2 + p; 0 * 2 + q]
             = get ex_two_windows_alt [0; c; 0 * 2 + p; 0 * 2 + q]).
  { intros [|c] [|[|p]] [|[|q]] Hc Hp Hq; try lia; reflexivity. }
  split; [exact H1|]. split; [exact H2|]. split; [exact H3|].
  split; [exact H4|]. split; [exact H5|]. split; [exact H6|].
  split; [exact H7|].
  exact (@AttentionBlock_forward_window_local Qc _ _
           (ex_block 1 false 2 1) 2 1 1 1 1 2 0 0 0
           ex_two_windows ex_two_windows_alt H1 H2 H3 H4 H5 H2 H2 H6 H7).
Defined.

Lemma AttentionBlock_forward_transposed_batch_local_witness :
  AttentionBlock_built (ex_block 1 true 2 1) (1 * 1) true 2 1 /\
  0 < 1 /\
  has_shape ex_two_images [2; 1 * 1; 2; 2] /\
  has_shape ex_two_images_alt [2; 1 * 1; 2; 2] /\
  0 < 2 /\
  (forall c p q, c < 1 * 1 -> p < 2 -> q < 2 ->
     get ex_two_images [0; c; p; q] = get ex_two_images_alt [0; c; p; q]) /\
  exists y y',
    AttentionBlock_forward (ex_block 1 true 2 1) ex_two_images = Some y /\
    AttentionBlock_forward (ex_block 1 true 2 1) ex_two_images_alt
    = Some y' /\
    forall c p q, c < 1 * 1 -> p < 2 -> q < 2 ->
      get y [0; c; p; q] = get y' [0; c; p; q].
Proof.
  assert (H1 : AttentionBlock_built (ex_block 1 true 2 1) (1 * 1)
                 true 2 1) by built.
  assert (H2 : 0 < 1) by lia.
  assert (H3 : has_shape ex_two_images [2; 1 * 1; 2; 2])
    by (split; reflexivity).
  assert (H4 : has_shape ex_two_images_alt [2; 1 * 1; 2; 2])
    by (split; reflexivity).
  assert (H5 : 0 < 2) by lia.
  assert (H6 : forall c p q, c < 1 * 1 -> p < 2 -> q < 2 ->
             get ex_two_images [0; c; p; q]
             = get ex_two_images_alt [0; c; p; q]).
  { intros [|c] [|[|p]] [|[|q]] Hc Hp Hq; try lia; reflexivity. }
  split; [exact H1|]. split; [exact H2|]. split; [exact H3|].
  split; [exact H4|]. split; [exact H5|]. split; [exact H6|].
  exact (@AttentionBlock_forward_transposed_batch_local Qc _ _
           (ex_block 1 true 2 1) 2 1 1 2 2 2 0
           ex_two_images ex_two_images_alt H1 H2 H3 H4 H5 H6).
Defined.


Lemma Classifier_forward_window_exhausted_witness :
  Classifier_built ex_classifier_thin [1; 1] [1; 1] 1 1 2 3 /\
  nth_error [1; 1] 1 = Some 1 /\ 0 < 1 /\ 1 < 2 ^ 1 /\
  Classifier_forward ex_classifier_thin ex_image = None.
Proof.
  assert (H1 : Classifier_built ex_classifier_thin [1; 1] [1; 1] 1 1 2 3).
  { eexists. split; [reflexivity|]. built. }
  assert (H2 : nth_error [1; 1] 1 = Some 1) by reflexivity.
  assert (H3 : 0 < 1) by lia.
  assert (H4 : 1 < 2 ^ 1) by (simpl; lia).
  split; [exact H1|]. split; [exact H2|]. split; [exact H3|].
  split; [exact H4|].
  exact (@Classifier_forward_window_exhausted Qc _ _ ex_classifier_thin
           [1; 1] [1; 1] 1 1 2 3 1 1 ex_image H1 H2 H3 H4).
Defined.

Lemma Classifier_forward_output_shape_witness :
  Classifier_built ex_classifier_small [1] [1] 2 1 2 3 /\
  shape ex_image = [1; 3; 2; 2] /\
  exists y,
    Classifier_forward ex_classifier_small ex_image = Some y /\
    shape y = [1; 2].
Proof.
  assert (H1 : Classifier_built ex_classifier_small [1] [1] 2 1 2 3).
  { eexists. split; [reflexivity|]. built. }
  assert (H2 : shape ex_image = [1; 3; 2; 2]) by reflexivity.
  split; [exact H1|]. split; [exact H2|].
  destruct (Classifier_forward ex_classifier_small ex_image) as [y|] eqn:E.
  - exists y. split; [reflexivity|].
    exact (@Classifier_forward_output_shape Qc _ _ ex_classifier_small
             [1] [1] 2 1 2 3 1 3 2 2 ex_image y H1 H2 E).
  - vm_compute in E. discriminate E.
Defined.

Lemma window_unpartition_fails_iff_witness :
  has_shape ex_windows [1; 1 * 1; 1; 2; 2] /\ 0 < 1 /\ 0 < 1 * 1 /\ 0 < 2 /\
  window_unpartition ex_windows 2 4 = None.
Proof.
  assert (H1 : has_shape ex_windows [1; 1 * 1; 1; 2; 2])
    by (split; reflexivity).
  assert (H2 : 0 < 1) by lia.
  assert (H3 : 0 < 1 * 1) by (simpl; lia).
  assert (H4 : 0 < 2) by lia.
  split; [exact H1|]. split; [exact H2|]. split; [exact H3|].
  split; [exact H4|].
  apply (proj2 (@window_unpartition_fails_iff Qc _ ex_windows 1 (1 * 1) 1 2
                  2 4 H1 H2 H3 H2 H4)).
  left. discriminate.
Defined.

Lemma spatial_flatten_fails_iff_witness :
  length (shape ex_matrix) < 3 /\ spatial_flatten ex_matrix = None.
Proof.
  assert (H1 : length (shape ex_matrix) < 3) by (simpl; lia).
  split; [exact H1|].
  exact (proj2 (@spatial_flatten_fails_iff Qc _ ex_matrix) H1).
Defined.

(* ================================================================== *)
(** * Part IV: the block, the network and the classifier, step by step *)
(* ================================================================== *)

(** ** Element laws of the layers *)

Section LayerLaws.
Context {R : Type} {SR : Scalar R} {TR : Transcendental R}.

Lemma get_LayerNorm_forward (l : LayerNorm R) (x y : Tensor R)
  (pre bi : list nat) (c : nat) :
  shape x = pre ++ [normalized_shape l] ->
  LayerNorm_forward l x = Some y ->
  in_bounds pre bi -> c < normalized_shape l ->
  get y (bi ++ [c]) = layer_norm_entry l (fun j => get x (bi ++ [j])) c.
Proof.
  intros Hs Hy Hb Hc.
  rewrite LayerNorm_forward_ok in Hy;
    try (rewrite Hs; apply last_app_single);
    try (rewrite Hs; destruct pre; discriminate).
  inversion Hy; subst y; clear Hy.
  assert (Hi : in_bounds (pre ++ [normalized_shape l]) (bi ++ [c])).
  { apply in_bounds_app; [assumption|]. simpl. auto. }
  rewrite get_tabulate by (rewrite Hs; exact Hi).
  cbv zeta. unfold layer_norm_entry. cbv zeta.
  rewrite last_app_single.
  assert (G : forall j, get x (set_last (bi ++ [c]) j) = get x (bi ++ [j]))
    by (intros j; now rewrite set_last_app).
  assert (M : sum_n (normalized_shape l)
                (fun j => get x (set_last (bi ++ [c]) j))
              = sum_n (normalized_shape l) (fun j => get x (bi ++ [j])))
    by (apply sum_n_ext; intros j _; apply G).
  rewrite M. do 6 f_equal.
  apply sum_n_ext. intros j _. now rewrite (G j).
Qed.

Lemma get_Conv2d_forward (cv : Conv2d R) (x y : Tensor R)
  (B C H W b o i j : nat) :
  has_shape x [B; C; H; W] -> Conv2d_forward cv x = Some y ->
  b < B -> o < out_channels cv ->
  i < conv_out_size H (kernel_size cv) (stride cv) (padding cv) ->
  j < conv_out_size W (kernel_size cv) (stride cv) (padding cv) ->
  get y [b; o; i; j] = conv_entry cv x H W b o i j.
Proof.
  intros Hx E Hb Ho Hi Hj.
  unfold Conv2d_forward in E. cbv zeta in E. rewrite (proj1 Hx) in E.
  destruct (_ && _) eqn:Cnd in E; [|discriminate].
  inversion E; subst y; clear E.
  rewrite get_tabulate by bounds.
  rewrite !Bool.andb_true_iff in Cnd.
  destruct Cnd as (((EC & _) & _) & _). apply Nat.eqb_eq in EC.
  unfold conv_entry, padded_get. cbv zeta. now rewrite EC.
Qed.

Lemma get_AdaptiveAvgPool2d_1 (x p : Tensor R) (B C H W b c : nat) :
  has_shape x [B; C; H; W] -> AdaptiveAvgPool2d_1 x = Some p ->
  b < B -> c < C ->
  get p [b; c; 0; 0] = pool_entry x H W b c.
Proof.
  intros Hx E Hb Hc. unfold AdaptiveAvgPool2d_1 in E.
  rewrite (proj1 Hx) in E. inversion E; subst p; clear E.
  rewrite get_tabulate by bounds. reflexivity.
Qed.

Lemma get_Flatten_forward (p f : Tensor R) (B C b c : nat) :
  has_shape p [B; C; 1; 1] -> Flatten_forward p = Some f ->
  get f [b; c] = get p [b; c; 0; 0].
Proof.
  intros Hp E. unfold Flatten_forward in E. rewrite (proj1 Hp) in E.
  inversion E; subst f; clear E. unfold get. cbn [shape data].
  rewrite (proj1 Hp). f_equal. simpl. ring.
Qed.

Lemma get_Linear_entry (l : Linear R) (x y : Tensor R) (pre bi : list nat)
  (o : nat) :
  shape x = pre ++ [in_features l] ->
  Linear_forward l x = Some y ->
  in_bounds pre bi -> o < out_features l ->
  get y (bi ++ [o]) = linear_entry l (fun i => get x (bi ++ [i])) o.
Proof.
  intros Hs Hy Hb Ho. unfold linear_entry.
  exact (@get_Linear_forward _ _ l x y pre bi o Hs Hy Hb Ho).
Qed.

End LayerLaws.

(** ** The attention block, element by element *)

Section BlockSpec.
Context {R : Type} {SR : Scalar R} {TR : Transcendental R}.

(** The two residual sub-layers on a (B, N, L, C) sequence: every step
    returns, and every entry of every intermediate result is the one the
    layer's formula gives. *)
Lemma block_core_laws (b : AttentionBlock R) (tr : bool)
  (ws nh hd B N L : nat) (x : Tensor R) :
  AttentionBlock_built b (nh * hd) tr ws nh -> 0 < nh ->
  has_shape x [B; N; L; nh * hd] ->
  exists n1 a s1 n2 h f s2,
    LayerNorm_forward (norm1 b) x = Some n1 /\
    MultiHeadSelfAttention_forward (window_attention b) n1 = Some a /\
    tensor_add x a = Some s1 /\
    LayerNorm_forward (norm2 b) s1 = Some n2 /\
    Linear_forward (mlp_fc1 b) n2 = Some h /\
    has_shape h [B; N; L; nh * hd * 4] /\
    Linear_forward (mlp_fc2 b) (gelu h) = Some f /\
    tensor_add s1 f = Some s2 /\
    block_core b x = Some s2 /\
    has_shape s2 [B; N; L; nh * hd] /\
    (forall bi c, in_bounds [B; N; L] bi -> c < nh * hd ->
       get n1 (bi ++ [c])
       = layer_norm_entry (norm1 b) (fun j => get x (bi ++ [j])) c /\
       get s1 (bi ++ [c]) = add (get x (bi ++ [c])) (get a (bi ++ [c])) /\
       get n2 (bi ++ [c])
       = layer_norm_entry (norm2 b) (fun j => get s1 (bi ++ [j])) c /\
       get f (bi ++ [c])
       = linear_entry (mlp_fc2 b) (fun i => get (gelu h) (bi ++ [i])) c /\
       get s2 (bi ++ [c]) = add (get s1 (bi ++ [c])) (get f (bi ++ [c]))) /\
    (forall bi o, in_bounds [B; N; L] bi -> o < nh * hd * 4 ->
       get h (bi ++ [o])
       = linear_entry (mlp_fc1 b) (fun i => get n2 (bi ++ [i])) o /\
       get (gelu h) (bi ++ [o]) = gelu_fn (get h (bi ++ [o]))).
Proof.
  intros Hb Hnh Hx.
  destruct (block_core_ok hd Hb Hnh Hx)
    as (n1 & a & s1 & n2 & h & f & s2 & F1 & F2 & F3 & F4 & F5 & S5
        & F6 & F7 & F8 & S8).
  destruct (block_core_steps hd Hb Hnh Hx F8)
    as (n1' & a' & s1' & n2' & h' & f' & E1 & S1 & E2 & S2 & E3 & S3
        & E4 & S4 & E5 & _ & E6 & S6 & E7).
  assert (n1' = n1) by congruence. subst n1'.
  assert (a' = a) by congruence. subst a'.
  assert (s1' = s1) by congruence. subst s1'.
  assert (n2' = n2) by congruence. subst n2'.
  assert (h' = h) by congruence. subst h'.
  assert (f' = f) by congruence. subst f'.
  exists n1, a, s1, n2, h, f, s2.
  do 10 (split; [assumption|]).
  destruct Hb as (_ & _ & _ & Hfc1 & Hfc2 & Hn1 & Hn2).
  destruct Hn1 as (Dn1 & _). destruct Hn2 as (Dn2 & _).
  destruct Hfc1 as (I1 & O1 & _). destruct Hfc2 as (I2 & O2 & _).
  split.
  - intros bi c Hbi Hc.
    assert (Hidx : in_bounds [B; N; L; nh * hd] (bi ++ [c])).
    { change [B; N; L; nh * hd] with ([B; N; L] ++ [nh * hd]).
      apply in_bounds_app; [assumption|]. simpl. auto. }
    split; [|split; [|split; [|split]]].
    + apply get_LayerNorm_forward with (pre := [B; N; L]);
        rewrite ?Dn1; try assumption. apply Hx.
    + exact (@get_tensor_add _ _ x a s1 [B; N; L; nh * hd] (bi ++ [c])
               Hx S2 F3 Hidx).
    + apply get_LayerNorm_forward with (pre := [B; N; L]);
        rewrite ?Dn2; try assumption. apply S3.
    + apply get_Linear_entry with (pre := [B; N; L]);
        rewrite ?I2, ?O2; try assumption.
      unfold gelu, tmap. cbn [shape]. apply S5.
    + exact (@get_tensor_add _ _ s1 f s2 [B; N; L; nh * hd] (bi ++ [c])
               S3 S6 F7 Hidx).
  - intros bi o Hbi Ho.
    assert (Hidx : in_bounds [B; N; L; nh * hd * 4] (bi ++ [o])).
    { change [B; N; L; nh * hd * 4] with ([B; N; L] ++ [nh * hd * 4]).
      apply in_bounds_app; [assumption|]. simpl. auto. }
    split.
    + apply get_Linear_entry with (pre := [B; N; L]);
        rewrite ?I1, ?O1; try assumption. apply S4.
    + unfold gelu. apply get_tmap; [apply S5|].
      rewrite (proj1 S5). exact Hidx.
Qed.

(** C6: on a (B, C, H, W) input (with H and W multiples of the window size
    in the windowed mode) [AttentionBlock.forward] partitions into windows
    or keeps the whole map as one window, flattens to a sequence, computes
    [x + attention(norm1(x))] and then [x + mlp(norm2(x))], the MLP being
    two linear layers around GELU with a hidden width of four times the
    channel count, and returns a tensor of shape (B, C, H, W).  Every step
    is pinned element by element: the two sums are element-wise sums, the
    norms, the linear layers and the activation follow their formulas, the
    sequence entry [(window, position, channel)] is the input pixel of
    that window and position, and the output pixel is the entry of the
    second sum at the same window and position.  The block is a function
    of its parameters and its input alone. *)
Theorem AttentionBlock_forward_spec (b : AttentionBlock R) (tr : bool)
  (ws nh hd B H W : nat) (x : Tensor R) :
  AttentionBlock_built b (nh * hd) tr ws nh -> 0 < nh ->
  has_shape x [B; nh * hd; H; W] ->
  (tr = false -> ws <> 0 /\ H mod ws = 0 /\ W mod ws = 0) ->
  exists win seq n1 a s1 n2 h f s2 y,
    (if tr then unsqueeze1 x else window_partition x ws) = Some win /\
    has_shape win (if tr then [B; 1; nh * hd; H; W]
                   else [B; (H / ws) * (W / ws); nh * hd; ws; ws]) /\
    spatial_flatten win = Some seq /\
    has_shape seq (if tr then [B; 1; H * W; nh * hd]
                   else [B; (H / ws) * (W / ws); ws * ws; nh * hd]) /\
    LayerNorm_forward (norm1 b) seq = Some n1 /\
    MultiHeadSelfAttention_forward (window_attention b) n1 = Some a /\
    tensor_add seq a = Some s1 /\
    LayerNorm_forward (norm2 b) s1 = Some n2 /\
    Linear_forward (mlp_fc1 b) n2 = Some h /\
    last (shape h) 0 = nh * hd * 4 /\
    Linear_forward (mlp_fc2 b) (gelu h) = Some f /\
    tensor_add s1 f = Some s2 /\
    (if tr then u <- spatial_unflatten s2 H W ;; squeeze1 u
     else u <- spatial_unflatten s2 ws ws ;; window_unpartition u H W)
    = Some y /\
    AttentionBlock_forward b x = Some y /\
    has_shape y [B; nh * hd; H; W] /\
    (forall bi c,
       in_bounds (if tr then [B; 1; H * W]
                  else [B; (H / ws) * (W / ws); ws * ws]) bi ->
       c < nh * hd ->
       get n1 (bi ++ [c])
       = layer_norm_entry (norm1 b) (fun j => get seq (bi ++ [j])) c /\
       get s1 (bi ++ [c]) = add (get seq (bi ++ [c])) (get a (bi ++ [c])) /\
       get n2 (bi ++ [c])
       = layer_norm_entry (norm2 b) (fun j => get s1 (bi ++ [j])) c /\
       get f (bi ++ [c])
       = linear_entry (mlp_fc2 b) (fun i => get (gelu h) (bi ++ [i])) c /\
       get s2 (bi ++ [c]) = add (get s1 (bi ++ [c])) (get f (bi ++ [c]))) /\
    (forall bi o,
       in_bounds (if tr then [B; 1; H * W]
                  else [B; (H / ws) * (W / ws); ws * ws]) bi ->
       o < nh * hd * 4 ->
       get h (bi ++ [o])
       = linear_entry (mlp_fc1 b) (fun i => get n2 (bi ++ [i])) o /\
       get (gelu h) (bi ++ [o]) = gelu_fn (get h (bi ++ [o]))) /\
    (tr = true ->
     forall i c p q, i < B -> c < nh * hd -> p < H -> q < W ->
       get seq [i; 0; p * W + q; c] = get x [i; c; p; q] /\
       get y [i; c; p; q] = get s2 [i; 0; p * W + q; c]) /\
    (tr = false ->
     forall i c hy wx p q,
       i < B -> c < nh * hd -> hy < H / ws -> wx < W / ws ->
       p < ws -> q < ws ->
       get seq [i; hy * (W / ws) + wx; p * ws + q; c]
       = get x [i; c; hy * ws + p; wx * ws + q] /\
       get y [i; c; hy * ws + p; wx * ws + q]
       = get s2 [i; hy * (W / ws) + wx; p * ws + q; c]).
Proof.
  intros Hb Hnh Hx Hdiv. destruct tr.
  - destruct (AttentionBlock_forward_transposed hd Hb Hnh Hx)
      as (win & seq & s2 & u & y & E1 & S1 & E2 & S2 & E3 & E4 & E5 & E6
          & S6).
    destruct (block_core_laws hd Hb Hnh S2)
      as (n1 & a & s1 & n2 & h & f & s2' & F1 & F2 & F3 & F4 & F5 & S5
          & F6 & F7 & F8 & S8 & L1 & L2).
    assert (s2' = s2) by congruence. subst s2'.
    assert (S4 : has_shape u [B; 1; nh * hd; H; W]).
    { destruct (spatial_unflatten_shape [B; 1] _ _ _ S8) as (? & E & S).
      cbn [app] in S. congruence. }
    exists win, seq, n1, a, s1, n2, h, f, s2, y.
    split; [exact E1|]. split; [exact S1|]. split; [exact E2|].
    split; [exact S2|]. split; [exact F1|]. split; [exact F2|].
    split; [exact F3|]. split; [exact F4|]. split; [exact F5|].
    split; [now rewrite (proj1 S5)|]. split; [exact F6|].
    split; [exact F7|]. split; [rewrite E4; exact E5|].
    split; [exact E6|]. split; [exact S6|].
    split; [exact L1|]. split; [exact L2|].
    split; [|intros; discriminate].
    intros _ i c p q Hi Hc Hp Hq. split.
    + change (get seq [i; 0; p * W + q; c])
        with (get seq ([i; 0] ++ [p * W + q; c])).
      rewrite (@get_spatial_flatten _ _ win seq [B; 1] [i; 0]
                 (nh * hd) H W c p q S1 E2) by bounds.
      cbn [app].
      exact (@get_unsqueeze1 _ _ x win B (nh * hd) H W i c p q
               (proj1 Hx) E1).
    + rewrite (@get_squeeze1 _ _ u y B (nh * hd) H W i c p q (proj1 S4) E5).
      change (get u [i; 0; c; p; q]) with (get u ([i; 0] ++ [c; p; q])).
      rewrite (@get_spatial_unflatten _ _ s2 u [B; 1] [i; 0]
                 (nh * hd) H W c p q S8 E4) by bounds.
      reflexivity.
  - destruct (Hdiv eq_refl) as (Hws & HH & HW).
    apply Nat.Div0.div_exact in HH, HW.
    remember (H / ws) as hh eqn:Eh. remember (W / ws) as vv eqn:Ev.
    clear Eh Ev. rewrite (Nat.mul_comm ws hh) in HH.
    rewrite (Nat.mul_comm ws vv) in HW. subst H W.
    destruct (AttentionBlock_forward_windowed hd hh vv Hb Hnh Hws Hx)
      as (win & seq & s2 & u & y & E1 & S1 & E2 & S2 & E3 & E4 & E5 & E6
          & S6).
    destruct (block_core_laws hd Hb Hnh S2)
      as (n1 & a & s1 & n2 & h & f & s2' & F1 & F2 & F3 & F4 & F5 & S5
          & F6 & F7 & F8 & S8 & L1 & L2).
    assert (s2' = s2) by congruence. subst s2'.
    assert (S4 : has_shape u [B; hh * vv; nh * hd; ws; ws]).
    { destruct (spatial_unflatten_shape [B; hh * vv] _ _ _ S8)
        as (? & E & S).
      cbn [app] in S. congruence. }
    exists win, seq, n1, a, s1, n2, h, f, s2, y.
    split; [exact E1|]. split; [exact S1|]. split; [exact E2|].
    split; [exact S2|]. split; [exact F1|]. split; [exact F2|].
    split; [exact F3|]. split; [exact F4|]. split; [exact F5|].
    split; [now rewrite (proj1 S5)|]. split; [exact F6|].
    split; [exact F7|]. split; [rewrite E4; exact E5|].
    split; [exact E6|]. split; [exact S6|].
    split; [exact L1|]. split; [exact L2|].
    split; [intros; discriminate|].
    intros _ i c hy wx p q Hi Hc Hhy Hwx Hp Hq.
    assert (Hn : hy * vv + wx < hh * vv) by nia.
    assert (Hl : p * ws + q < ws * ws) by nia.
    split.
    + change (get seq [i; hy * vv + wx; p * ws + q; c])
        with (get seq ([i; hy * vv + wx] ++ [p * ws + q; c])).
      rewrite (@get_spatial_flatten _ _ win seq [B; hh * vv]
                 [i; hy * vv + wx] (nh * hd) ws ws c p q S1 E2) by bounds.
      cbn [app].
      exact (@get_window_partition _ _ x win B (nh * hd) hh vv ws Hx Hws E1
               i c hy wx p q Hi Hc Hhy Hwx Hp Hq).
    + rewrite (@get_window_unpartition _ _ u y B (nh * hd) hh vv ws S4 Hws
                 E5 i c hy wx p q Hi Hc Hhy Hwx Hp Hq).
      change (get u [i; hy * vv + wx; c; p; q])
        with (get u ([i; hy * vv + wx] ++ [c; p; q])).
      rewrite (@get_spatial_unflatten _ _ s2 u [B; hh * vv]
                 [i; hy * vv + wx] (nh * hd) ws ws c p q S8 E4) by bounds.
      reflexivity.
Qed.

End BlockSpec.

(** ** The super-resolution network, step by step *)

Section NetworkSpec.
Context {R : Type} {SR : Scalar R} {TR : Transcendental R}.

(** C5: on a (B, in_channels, H, W) input with H and W positive multiples
    of the window size, [TransformerSR.forward] subtracts 0.5 from every
    element, convolves to the working width, runs the block pairs,
    convolves to [factor^2 * out_channels] channels, pixel-shuffles them
    into [factor x factor] spatial tiles and adds 0.5 to every element; the
    result has shape (B, out_channels, H * factor, W * factor).  All
    channel counts are positive.  The claim's case is B = 1 and
    in_channels = out_channels = 3. *)
Theorem TransformerSR_forward_shape (m : TransformerSR R)
  (factor : nat) (groups : list Z) (num_blocks nh hd ws cin cout : nat)
  (B H W : nat) (x : Tensor R) :
  TransformerSR_built m factor groups num_blocks (nh * hd) ws nh cin cout ->
  0 < nh -> 0 < hd -> 0 < cin -> 0 < cout -> 0 < factor -> ws <> 0 ->
  Forall (fun p => p <> 0%Z) groups ->
  has_shape x [B; cin; H; W] ->
  0 < H -> 0 < W -> H mod ws = 0 -> W mod ws = 0 ->
  exists x0 x1 c y,
    Conv2d_forward (in_conv m) (sub_half x) = Some x0 /\
    has_shape x0 [B; nh * hd; H; W] /\
    residual_loop pair_forward plus_value (residual_groups m) (blocks m) x0
    = Some x1 /\
    has_shape x1 [B; nh * hd; H; W] /\
    Conv2d_forward (out_conv m) x1 = Some c /\
    has_shape c [B; factor ^ 2 * cout; H; W] /\
    PixelShuffle_forward factor c = Some y /\
    (forall b o h w i j,
       b < B -> o < cout -> h < H -> w < W -> i < factor -> j < factor ->
       get y [b; o; h * factor + i; w * factor + j]
       = get c [b; o * (factor * factor) + i * factor + j; h; w]) /\
    TransformerSR_forward m x = Some (add_half y) /\
    has_shape (add_half y) [B; cout; H * factor; W * factor] /\
    (forall idx, in_bounds [B; cin; H; W] idx ->
       get (sub_half x) idx = sub (get x idx) half) /\
    (forall b o i j, b < B -> o < nh * hd -> i < H -> j < W ->
       get x0 [b; o; i; j] = conv_entry (in_conv m) (sub_half x) H W b o i j)
    /\
    (forall b o i j, b < B -> o < factor ^ 2 * cout -> i < H -> j < W ->
       get c [b; o; i; j] = conv_entry (out_conv m) x1 H W b o i j) /\
    (forall idx, in_bounds [B; cout; H * factor; W * factor] idx ->
       get (add_half y) idx = add (get y idx) half).
Proof.
  intros (Hg & Hin & _ & Hbl & Hout & Hf) Hnh Hhd Hcin Hcout Hfac Hws Hnz
    Hx HH HW DH DW.
  assert (Hx' : has_shape (sub_half x) [B; cin; H; W])
    by (apply has_shape_tmap; exact Hx).
  destruct (Conv2d_forward_shape Hin Hx') as (x0 & E0 & S0); try lia.
  rewrite !conv_out_size_same in S0 by assumption.
  assert (Hloop : exists x1,
            residual_loop pair_forward plus_value (residual_groups m)
              (blocks m) x0 = Some x1 /\ has_shape x1 [B; nh * hd; H; W]).
  { apply Nat.Div0.div_exact in DH, DW.
    rewrite (Nat.mul_comm ws) in DH, DW.
    rewrite DH, DW in S0 |- *.
    apply residual_loop_preserves
      with (P := fun t =>
                   has_shape t [B; nh * hd; H / ws * ws; W / ws * ws]).
    - intros t v. apply plus_value_shape.
    - rewrite Forall_forall in *. intros p Hp t Ht.
      destruct (Hbl p Hp) as [H1 H2].
      now apply pair_forward_shape.
    - now rewrite Hg.
    - exact S0. }
  destruct Hloop as (x1 & E1 & S1).
  destruct (Conv2d_forward_shape Hout S1) as (c & E2 & S2); try lia.
  rewrite !conv_out_size_same in S2 by assumption.
  destruct (PixelShuffle_forward_shape cout Hfac S2) as (y & E3 & S3).
  assert (S4 : has_shape (add_half y) [B; cout; H * factor; W * factor])
    by (apply has_shape_tmap; exact S3).
  destruct Hin as (_ & Oin & Kin & Sin & Pin & _).
  destruct Hout as (_ & Oout & Kout & Sout & Pout & _).
  exists x0, x1, c, y.
  split; [exact E0|]. split; [exact S0|]. split; [exact E1|].
  split; [exact S1|]. split; [exact E2|]. split; [exact S2|].
  split; [exact E3|].
  split.
  { intros. now apply PixelShuffle_forward_get with (B := B) (C := cout)
                                                     (H := H) (W := W). }
  split.
  { unfold TransformerSR_forward. rewrite E0. cbn [bind].
    rewrite E1. cbn [bind]. rewrite E2. cbn [bind]. rewrite Hf, E3.
    reflexivity. }
  split; [exact S4|].
  split.
  { intros idx Hidx. rewrite <- (proj1 Hx) in Hidx.
    exact (@get_tmap _ _ (fun v => sub v half) x idx (proj2 Hx) Hidx). }
  split.
  { intros b o i j Hb Ho Hi Hj.
    apply (@get_Conv2d_forward _ _ (in_conv m) (sub_half x) x0 B cin H W
             b o i j Hx' E0 Hb);
      rewrite ?Oin, ?Kin, ?Sin, ?Pin, ?conv_out_size_same; assumption. }
  split.
  { intros b o i j Hb Ho Hi Hj.
    apply (@get_Conv2d_forward _ _ (out_conv m) x1 c B (nh * hd) H W
             b o i j S1 E2 Hb);
      rewrite ?Oout, ?Kout, ?Sout, ?Pout, ?conv_out_size_same; assumption. }
  intros idx Hidx. rewrite <- (proj1 S3) in Hidx.
  exact (@get_tmap _ _ (fun v => add v half) y idx (proj2 S3) Hidx).
Qed.

End NetworkSpec.

(** ** The classifier, stage by stage *)

Section ClassifierSpec.
Context {R : Type} {SR : Scalar R} {TR : Transcendental R}.

Lemma pairs_of_specs (d w nh g : nat) :
  forall ls : list (Layer R),
    Forall2 Layer_built
      (concat (repeat [SAttentionBlock d false w nh;
                       SAttentionBlock d true w nh] g)) ls ->
    exists ps : list (AttentionBlock R * AttentionBlock R),
      ls = concat (map (fun p => [LAttentionBlock (fst p);
                                  LAttentionBlock (snd p)]) ps) /\
      length ps = g /\
      Forall (fun p => AttentionBlock_built (fst p) d false w nh /\
                       AttentionBlock_built (snd p) d true w nh) ps.
Proof.
  induction g as [|g IH]; intros ls HF; simpl in HF.
  - inversion HF; subst. exists []. repeat split. constructor.
  - inversion HF as [|s1 l1 ss1 ls1 B1 HF1]; subst.
    inversion HF1 as [|s2 l2 ss2 ls2 B2 HF2]; subst.
    destruct l1 as [|b1| | |]; try contradiction.
    destruct l2 as [|b2| | |]; try contradiction.
    destruct (IH _ HF2) as (ps & -> & Hl & Hps).
    exists ((b1, b2) :: ps). simpl. split; [reflexivity|].
    split; [now rewrite Hl|]. constructor; [split; assumption | exact Hps].
Qed.

Lemma stage_of_specs (dims : list nat) (ws nh i g : nat)
  (ls : list (Layer R)) :
  Forall2 Layer_built (stage_specs dims ws nh i g) ls ->
  exists st : Stage,
    ls = stage_layers st /\ Stage_built dims ws nh i g st.
Proof.
  unfold stage_specs. intros HF.
  apply Forall2_app_inv_l in HF as (l1 & l2 & H1 & H2 & ->).
  destruct (pairs_of_specs _ _ _ _ H2) as (ps & -> & Hl & Hps).
  destruct (Nat.ltb_spec 0 i) as [Hpos|Hz].
  - inversion H1 as [|s l ss ls' Bc Hnil]; subst.
    inversion Hnil; subst.
    destruct l as [c| | | |]; try contradiction.
    exists (Some c, ps). split; [reflexivity|].
    unfold Stage_built. cbn [fst snd].
    split; [split; [exact Hpos | exact Bc]|].
    split; [first [exact Hl | reflexivity] | exact Hps].
  - inversion H1; subst.
    exists (None, ps). split; [reflexivity|].
    unfold Stage_built. cbn [fst snd].
    split; [lia|]. split; [first [exact Hl | reflexivity] | exact Hps].
Qed.

Lemma stages_of_specs (dims : list nat) (ws nh : nat) (groups : list nat) :
  forall (s : nat) (ls : list (Layer R)),
    Forall2 Layer_built
      (concat (map (fun ig => stage_specs dims ws nh (fst ig) (snd ig))
                 (combine (seq s (length groups)) groups))) ls ->
    exists sts : list Stage,
      ls = concat (map stage_layers sts) /\
      length sts = length groups /\
      forall j, j < length groups ->
        Stage_built dims ws nh (s + j) (nth j groups 0)
          (nth j sts (None, [])).
Proof.
  induction groups as [|g groups IH]; intros s ls HF.
  - simpl in HF. inversion HF; subst. exists [].
    split; [reflexivity|]. split; [reflexivity|].
    simpl. intros j Hj. lia.
  - cbn [length seq combine map concat fst snd] in HF.
    apply Forall2_app_inv_l in HF as (l1 & l2 & H1 & H2 & ->).
    destruct (stage_of_specs _ _ _ _ _ H1) as (st & -> & Hst).
    destruct (IH _ _ H2) as (sts & -> & Hl & Hsts).
    exists (st :: sts). split; [reflexivity|].
    split; [simpl; now rewrite Hl|].
    intros [|j] Hj; simpl in Hj |- *.
    + now rewrite Nat.add_0_r.
    + replace (s + S j) with (S s + j) by lia. apply Hsts. lia.
Qed.

Lemma run_layers_pairs (ps : list (AttentionBlock R * AttentionBlock R)) :
  forall x,
    run_layers (concat (map (fun p => [LAttentionBlock (fst p);
                                       LAttentionBlock (snd p)]) ps)) x
    = run_all pair_forward ps x.
Proof.
  induction ps as [|p ps IH]; intros x; [reflexivity|].
  cbn [map concat app run_layers Layer_forward run_all].
  unfold pair_forward at 1.
  destruct (AttentionBlock_forward (fst p) x) as [y|]; cbn [bind];
    [|reflexivity].
  destruct (AttentionBlock_forward (snd p) y) as [z|]; cbn [bind];
    [apply IH | reflexivity].
Qed.

Lemma run_layers_stage (st : Stage) (x : Tensor R) :
  run_layers (stage_layers st) x = stage_forward st x.
Proof.
  unfold stage_layers, stage_forward. rewrite run_layers_app.
  destruct (fst st) as [c|]; cbn [run_layers Layer_forward bind].
  - destruct (Conv2d_forward c x) as [y|]; cbn [bind]; [|reflexivity].
    apply run_layers_pairs.
  - apply run_layers_pairs.
Qed.

Lemma run_layers_stages (sts : list Stage) :
  forall x,
    run_layers (concat (map stage_layers sts)) x
    = run_all stage_forward sts x.
Proof.
  induction sts as [|st sts IH]; intros x; [reflexivity|].
  cbn [map concat run_all]. rewrite run_layers_app, run_layers_stage.
  destruct (stage_forward st x) as [y|]; cbn [bind]; [apply IH|reflexivity].
Qed.

(** The forward pass of any classifier that [__init__] built is the
    staged pipeline. *)
Lemma Classifier_forward_stages (m : Classifier R) (groups dims : list nat)
  (ws nh nc cin : nat) :
  Classifier_built m groups dims ws nh nc cin ->
  exists (c0 : Conv2d R) (sts : list Stage) (lin : Linear R),
    cls_blocks m
    = LConv2d c0 :: concat (map stage_layers sts)
      ++ [LAdaptiveAvgPool2d; LFlatten; LLinear lin] /\
    Conv2d_built c0 cin (nth 0 dims 0) 3 1 1 /\
    length sts = length groups /\
    (forall i, i < length groups ->
       Stage_built dims ws nh i (nth i groups 0) (nth i sts (None, []))) /\
    Linear_built lin (last dims 0) nc /\
    forall x,
      Classifier_forward m x =
      (x0 <- Conv2d_forward c0 (sub_half x) ;;
       x1 <- run_all stage_forward sts x0 ;;
       p <- AdaptiveAvgPool2d_1 x1 ;;
       f <- Flatten_forward p ;;
       Linear_forward lin f).
Proof.
  intros Hm. pose proof (Classifier_built_layout Hm) as HF.
  unfold Classifier_layout in HF. cbn [app] in HF.
  inversion HF as [|s0 l0 ss0 rest B0 HF0 E1 E2]; subst.
  destruct l0 as [c0| | | |]; try contradiction.
  apply Forall2_app_inv_l in HF0 as (stages & suf & Hst & Hsuf & Er).
  inversion Hsuf as [|s1 l1 ss1 ls1 B1 Hsuf1]; subst.
  inversion Hsuf1 as [|s2 l2 ss2 ls2 B2 Hsuf2]; subst.
  inversion Hsuf2 as [|s3 l3 ss3 ls3 B3 Hsuf3]; subst.
  inversion Hsuf3; subst.
  destruct l1; try contradiction. destruct l2; try contradiction.
  destruct l3 as [| | | |lin]; try contradiction.
  destruct (stages_of_specs _ _ _ _ _ Hst) as (sts & -> & Hl & Hsts).
  exists c0, sts, lin.
  split; [congruence|]. split; [exact B0|]. split; [exact Hl|].
  split; [exact Hsts|]. split; [exact B3|].
  intros x. unfold Classifier_forward. rewrite <- E2.
  cbn [run_layers Layer_forward].
  destruct (Conv2d_forward c0 (sub_half x)) as [x0|]; cbn [bind];
    [|reflexivity].
  rewrite run_layers_app, run_layers_stages.
  destruct (run_all stage_forward sts x0) as [x1|]; cbn [bind];
    [|reflexivity].
  cbn [run_layers Layer_forward].
  destruct (AdaptiveAvgPool2d_1 x1) as [p|]; cbn [bind]; [|reflexivity].
  destruct (Flatten_forward p) as [f|]; cbn [bind]; [|reflexivity].
  destruct (Linear_forward lin f); reflexivity.
Qed.

End ClassifierSpec.

Section ClassifierClaim.
Context {R : Type} {SR : Scalar R} {TR : Transcendental R}.


End ClassifierClaim.

(** ** Concrete instances of the three step-by-step theorems *)

Lemma AttentionBlock_forward_spec_witness :
  AttentionBlock_built (ex_block 1 false 2 1) (1 * 1) false 2 1 /\
  0 < 1 /\
  has_shape ex_features [1; 1 * 1; 2; 2] /\
  (false = false -> 2 <> 0 /\ 2 mod 2 = 0 /\ 2 mod 2 = 0) /\
  exists y, AttentionBlock_forward (ex_block 1 false 2 1) ex_features
            = Some y /\ has_shape y [1; 1 * 1; 2; 2].
Proof.
  assert (H1 : AttentionBlock_built (ex_block 1 false 2 1) (1 * 1)
                 false 2 1) by built.
  assert (H2 : 0 < 1) by lia.
  assert (H3 : has_shape ex_features [1; 1 * 1; 2; 2])
    by (split; reflexivity).
  assert (H4 : false = false -> 2 <> 0 /\ 2 mod 2 = 0 /\ 2 mod 2 = 0)
    by (intros _; split; [lia | split; reflexivity]).
  split; [exact H1|]. split; [exact H2|]. split; [exact H3|].
  split; [exact H4|].
  destruct (@AttentionBlock_forward_spec Qc _ _ (ex_block 1 false 2 1)
              false 2 1 1 1 2 2 ex_features H1 H2 H3 H4)
    as (win & seq & n1 & a & s1 & n2 & h & f & s2 & y
        & _ & _ & _ & _ & _ & _ & _ & _ & _ & _ & _ & _ & _ & E & S & _).
  exists y. split; [exact E | exact S].
Defined.

Lemma TransformerSR_forward_shape_witness :
  TransformerSR_built ex_sr 2 [2%Z] 4 (1 * 1) 2 1 3 3 /\
  0 < 1 /\ 0 < 3 /\ 0 < 2 /\ 2 <> 0 /\
  Forall (fun p => p <> 0%Z) [2%Z] /\
  has_shape ex_image [1; 3; 2; 2] /\
  2 mod 2 = 0 /\
  exists y, TransformerSR_forward ex_sr ex_image = Some y /\
            has_shape y [1; 3; 2 * 2; 2 * 2].
Proof.
  assert (H1 : TransformerSR_built ex_sr 2 [2%Z] 4 (1 * 1) 2 1 3 3)
    by built.
  assert (H2 : 0 < 1) by lia.
  assert (H3 : 0 < 3) by lia.
  assert (H4 : 0 < 2) by lia.
  assert (H5 : 2 <> 0) by lia.
  assert (H6 : Forall (fun p => p <> 0%Z) [2%Z])
    by (constructor; [discriminate | constructor]).
  assert (H7 : has_shape ex_image [1; 3; 2; 2]) by (split; reflexivity).
  assert (H8 : 2 mod 2 = 0) by reflexivity.
  split; [exact H1|]. split; [exact H2|]. split; [exact H3|].
  split; [exact H4|]. split; [exact H5|]. split; [exact H6|].
  split; [exact H7|]. split; [exact H8|].
  destruct (@TransformerSR_forward_shape Qc _ _ ex_sr 2 [2%Z] 4 1 1 2 3 3
              1 2 2 ex_image H1 H2 H2 H3 H3 H4 H5 H6 H7 H4 H4 H8 H8)
    as (x0 & x1 & c & y & _ & _ & _ & _ & _ & _ & _ & _ & E & S & _).
  exists (add_half y). split; [exact E | exact S].
Defined.

